(** * A shallow embedding of the TSPLIB instance parser (mlp/src/iparser/iparser.cpp)

    The parser reads a line-oriented text file: a key/value specification
    header, then data sections (an edge-weight matrix, optionally display
    coordinates), closed by the sentinel line EOF.  The embedding follows
    the C++ source function by function:

    - [std::ifstream] is a record holding the unread characters and the
      eofbit / failbit state flags; [getline] and [operator>>] are
      functions on it that set the flags the way the standard library does;
    - member functions of [InstanceParser] run in a state monad over the
      parser object (stream, field table) and the diagnostic stream, with
      outcomes for a thrown C++ exception, for undefined behaviour and for
      a loop that was cut off;
    - [std::regex_search] is a small backtracking matcher over the regular
      expression constructs the two patterns of the source use. *)

From Stdlib Require Import ZArith Ascii String List Bool Lia.
From stdpp Require Import base option list gmap strings.

Local Open Scope string_scope.
Local Open Scope Z_scope.

(** ** Characters and strings *)

(** The escapes used by the source, by character code. *)
Definition ch_tab : ascii := "009"%char.
Definition ch_nl  : ascii := "010"%char.
Definition ch_vt  : ascii := "011"%char.
Definition ch_ff  : ascii := "012"%char.
Definition ch_cr  : ascii := "013"%char.

(** [const std::string WHITESPACE = " \n\r\t\f\v";] *)
Definition WHITESPACE : string :=
  String " " (String ch_nl (String ch_cr (String ch_tab (String ch_ff (String ch_vt ""))))).

(** Membership of a character in a string used as a character set. *)
Fixpoint char_in (c : ascii) (set : string) : bool :=
  match set with
  | "" => false
  | String d set' => Ascii.eqb c d || char_in c set'
  end.

(** [isspace] in the "C" locale, as used by [operator>>] and [strtol]. *)
Definition isspace (c : ascii) : bool := char_in c WHITESPACE.

Definition code (c : ascii) : Z := Z.of_N (N_of_ascii c).

Definition isdigit (c : ascii) : bool := (48 <=? code c) && (code c <=? 57).

Definition digit_val (c : ascii) : Z := code c - 48.

(** The bracket expression [[a-zA-Z0-9_]]. *)
Definition is_ident_char (c : ascii) : bool :=
  ((97 <=? code c) && (code c <=? 122))
  || ((65 <=? code c) && (code c <=? 90))
  || isdigit c
  || Ascii.eqb c "_"%char.

(** [s.find_last_not_of(set)]: index of the last character outside [set]. *)
Fixpoint find_last_not_of (set : string) (s : string) : option nat :=
  match s with
  | "" => None
  | String c s' =>
      match find_last_not_of set s' with
      | Some k => Some (S k)
      | None => if char_in c set then None else Some 0%nat
      end
  end.

(** [rtrim], lines 75-79. *)
Definition rtrim (s : string) : string :=
  match find_last_not_of WHITESPACE s with
  | None => ""
  | Some e => substring 0 (e + 1) s
  end.

(** ** Integers of the C++ type [int] *)

Definition INT_MAX : Z := 2147483647.
Definition INT_MIN : Z := -2147483648.

(** Value of the longest run of decimal digits at the front of [s], and
    the characters after it. *)
Fixpoint read_digits (acc : Z) (s : string) : Z * string :=
  match s with
  | String c s' => if isdigit c then read_digits (10 * acc + digit_val c) s' else (acc, s)
  | "" => (acc, s)
  end.

Fixpoint skipws (s : string) : string :=
  match s with
  | String c s' => if isspace c then skipws s' else s
  | "" => s
  end.

Definition starts_with_digit (s : string) : bool :=
  match s with
  | String c _ => isdigit c
  | "" => false
  end.

(** Optional sign at the front of [s]: the sign as a factor, and the rest. *)
Definition read_sign (s : string) : Z * string :=
  match s with
  | String "-" s' => (-1, s')
  | String "+" s' => (1, s')
  | _ => (1, s)
  end.

(** C++ exceptions that the modelled code can raise. *)
Inductive exception :=
| invalid_argument
| out_of_range.

(** [std::stoi(value)]: [strtol] in base 10 on the string (leading white
    space skipped, optional sign, the longest run of digits; whatever
    follows is ignored).  No digits: [std::invalid_argument]; a value that
    does not fit [int]: [std::out_of_range]. *)
Definition stoi (s : string) : exception + Z :=
  let (sign, t) := read_sign (skipws s) in
  if starts_with_digit t then
    let v := sign * fst (read_digits 0 t) in
    if (v <? INT_MIN) || (INT_MAX <? v) then inl out_of_range else inr v
  else inl invalid_argument.

(** ** The input stream *)

(** [std::ifstream]: whether a file is attached, the characters not yet
    read, and the state flags (badbit is never set: the file is in memory). *)
Record ifstream := mk_ifstream {
  is_open : bool;
  rdbuf : string;
  eofbit : bool;
  failbit : bool
}.

Definition good (fs : ifstream) : bool := negb (eofbit fs) && negb (failbit fs).

(** [fs.fail()], which is what [!fs] tests. *)
Definition fail (fs : ifstream) : bool := failbit fs.

Definition set_fail (fs : ifstream) : ifstream :=
  mk_ifstream (is_open fs) (rdbuf fs) (eofbit fs) true.

(** A freshly opened file with the given contents. *)
Definition open_file (contents : string) : ifstream :=
  mk_ifstream true contents false false.

(** Characters up to the first newline, and what follows the newline
    ([None] when the input ends before a newline is seen). *)
Fixpoint split_line (s : string) : string * option string :=
  match s with
  | "" => ("", None)
  | String c s' =>
      if Ascii.eqb c ch_nl then ("", Some s')
      else let (l, r) := split_line s' in (String c l, r)
  end.

(** [std::getline(fs, line)].  The sentry fails on a stream that is not
    good: failbit is set and [line] keeps its old contents.  Otherwise
    [line] is erased and filled up to the newline, which is consumed; end
    of input sets eofbit, and failbit too when nothing at all was
    extracted. *)
Definition getline (fs : ifstream) (line : string) : ifstream * string :=
  if negb (good fs) then (set_fail fs, line)
  else
    match rdbuf fs with
    | "" => (mk_ifstream (is_open fs) "" true true, "")
    | buf =>
        match split_line buf with
        | (l, Some rest) => (mk_ifstream (is_open fs) rest false false, l)
        | (l, None) => (mk_ifstream (is_open fs) "" true false, l)
        end
    end.

(** [fs >> x] for [x] of type [int].  The result is the stream and the new
    value of [x], [None] meaning that [x] was not written.  The sentry
    fails on a stream that is not good, and when only white space is left;
    then [x] is untouched.  Otherwise a sign and digits are read: without
    a digit [x] becomes 0 and failbit is set; a value outside [int] is
    clamped and failbit is set. *)
Definition extract_int (fs : ifstream) : ifstream * option Z :=
  if negb (good fs) then (set_fail fs, None)
  else
    match skipws (rdbuf fs) with
    | "" => (mk_ifstream (is_open fs) "" true true, None)
    | buf =>
        let (sign, t) := read_sign buf in
        if starts_with_digit t then
          let (v, rest) := read_digits 0 t in
          let at_end := match rest with "" => true | _ => false end in
          let x := sign * v in
          if x <? INT_MIN then (mk_ifstream (is_open fs) rest at_end true, Some INT_MIN)
          else if INT_MAX <? x then (mk_ifstream (is_open fs) rest at_end true, Some INT_MAX)
          else (mk_ifstream (is_open fs) rest at_end false, Some x)
        else
          let at_end := match t with "" => true | _ => false end in
          (mk_ifstream (is_open fs) t at_end true, Some 0)
    end.

(** ** Regular expressions *)

(** The constructs of the ECMAScript grammar that the two patterns of the
    source use.  Repetition is only ever applied to a one-character atom
    (a bracket expression or the dot). *)
Inductive regex :=
| RBol                              (* ^ *)
| REol                              (* $ *)
| RLit (s : string)                 (* literal characters *)
| RStar (p : ascii -> bool)         (* X*, X a one-character atom *)
| RPlus (p : ascii -> bool)         (* X+ *)
| ROpt (r : regex)                  (* (...)? *)
| RGroup (k : nat) (r : regex)      (* the k-th capture group *)
| RCat (r1 r2 : regex).

(** [std::smatch]: entry 0 is the whole match, entry k the k-th group;
    [None] is a group that did not take part in the match. *)
Definition smatch := list (option string).

(** [match[k]] converted to [std::string]: empty for an unmatched group. *)
Definition sub_str (m : smatch) (k : nat) : string :=
  match m !! k with
  | Some (Some s) => s
  | _ => ""
  end.

Fixpoint mark_count (r : regex) : nat :=
  match r with
  | ROpt r => mark_count r
  | RGroup _ r => S (mark_count r)
  | RCat r1 r2 => (mark_count r1 + mark_count r2)%nat
  | _ => 0%nat
  end.

(** [lit] as a prefix of [s]: what follows it. *)
Fixpoint strip_prefix (lit s : string) : option string :=
  match lit, s with
  | "", _ => Some s
  | String a lit', String b s' => if Ascii.eqb a b then strip_prefix lit' s' else None
  | String _ _, "" => None
  end.

Section Matcher.
Context {X : Type}.

(** Greedy repetition of a one-character atom, at least [min] times:
    take one more character when the atom accepts it and go on; when
    that fails, give the character back and try the continuation here. *)
Fixpoint greedy (p : ascii -> bool) (min : nat) (pos : nat) (s : string)
    (k : nat -> string -> option X) : option X :=
  let stop := match min with O => k pos s | S _ => None end in
  match s with
  | String c s' =>
      if p c then
        match greedy p (pred min) (S pos) s' k with
        | Some x => Some x
        | None => stop
        end
      else stop
  | "" => stop
  end.

(** The backtracking matcher, in continuation-passing style.  [pos] is
    the offset of [s] in the line, [s] the characters from there on. *)
Fixpoint rmatch (r : regex) (pos : nat) (s : string) (caps : smatch)
    (k : nat -> string -> smatch -> option X) : option X :=
  match r with
  | RBol => if (pos =? 0)%nat then k pos s caps else None
  | REol => match s with "" => k pos s caps | _ => None end
  | RLit lit =>
      match strip_prefix lit s with
      | Some s' => k (pos + String.length lit)%nat s' caps
      | None => None
      end
  | RStar p => greedy p 0 pos s (fun pos' s' => k pos' s' caps)
  | RPlus p => greedy p 1 pos s (fun pos' s' => k pos' s' caps)
  | ROpt r' =>
      match rmatch r' pos s caps k with
      | Some x => Some x
      | None => k pos s caps
      end
  | RGroup g r' =>
      rmatch r' pos s caps
        (fun pos' s' caps' =>
           k pos' s' (<[g := Some (substring 0 (pos' - pos) s)]> caps'))
  | RCat r1 r2 =>
      rmatch r1 pos s caps (fun pos' s' caps' => rmatch r2 pos' s' caps' k)
  end.
End Matcher.

(** Try the pattern at [pos], then at every later offset. *)
Fixpoint search_from (r : regex) (pos : nat) (s : string) : option smatch :=
  let here :=
    rmatch r pos s (replicate (S (mark_count r)) None)
      (fun pos' _ caps => Some (<[0%nat := Some (substring 0 (pos' - pos) s)]> caps)) in
  match here with
  | Some m => Some m
  | None =>
      match s with
      | String _ s' => search_from r (S pos) s'
      | "" => None
      end
  end.

(** [std::regex_search(s, match, re)]: the leftmost match, [None] when
    there is none. *)
Definition regex_search (s : string) (re : regex) : option smatch :=
  search_from re 0 s.

(** The dot of ECMAScript: any character but a line terminator. *)
Definition dot (c : ascii) : bool := negb (Ascii.eqb c ch_nl || Ascii.eqb c ch_cr).

Definition blank_or_tab (c : ascii) : bool := Ascii.eqb c " "%char || Ascii.eqb c ch_tab.

(** The pattern of line 235: between ^ and $, one group holding any run
    of the characters of [WHITESPACE]. *)
Definition blank_regex : regex :=
  RCat RBol (RCat (RGroup 1 (RStar (fun c => char_in c WHITESPACE))) REol).

(** The pattern of line 282: group 1 is one or more of [a-zA-Z0-9_];
    group 2, optional, is a colon and a space; blanks and tabs follow;
    group 3 is any run of the dot. *)
Definition entry_key_regex : regex :=
  RCat (RGroup 1 (RPlus is_ident_char))
    (RCat (ROpt (RGroup 2 (RLit ": ")))
       (RCat (RStar blank_or_tab) (RGroup 3 (RStar dot)))).

(** [is_blank], lines 233-243.  [std::nullopt] stands for a caught
    [std::regex_error].  The matcher above has no limit on the stack or
    on the steps it may use, so it never raises one: the handlers of
    lines 239-242 and 348-351 are not taken in this model, and what is
    shown below of a line holds for the lines on which the regex engine
    of the machine comes to an end. *)
Definition is_blank (s : string) : option bool :=
  match regex_search s blank_regex with
  | Some m => Some (1 <? length m)%nat
  | None => Some false
  end.

(** ** The parser object, diagnostics and the monad of member functions *)

(** [VarMapValueType]: a field of the header is a string or an integer. *)
Inductive VarMapValueType :=
| VString (s : string)
| VInt (n : Z).

(** What the code writes to [std::cerr], one constructor per message. *)
Inductive diag :=
| MatrixParsingError (i j : nat)                 (* Error on row i, colj. *)
| FieldUnsupported (key : string)                (* Field key is unsupported. *)
| FieldValueUnsupported (key value : string)     (* Field key does not support the value value. *)
| FieldNotDefined (key : string)                 (* Field key not defined! *)
| InvalidNode                                    (* Invalid node in DISPLAY_DATA_SECTION. *)
| UnsupportedFormat (value : string)             (* Unsuported EDGE_WEIGHT_FORMAT with value 'value'. *)
| ErrorBuildingMatrix                            (* Error building matrix. *)
| FileNotOpen                                    (* File not open! *)
| ErrorParsingData                               (* Error parsing data. *)
| ErrorParsingSpecification                      (* Error parsing specification. *)
| SpecificationInDataSection                     (* Corrupted file: specification found in the data section. *)
| DidNotMatchRegex                               (* Did not match regex. *)
| DistanceMatrixNotDefined                       (* Distance matrix not defined. *)
| LastEntryParsed (line : string).               (* Last entry parsed: "line". *)

(** Modelled from the spec: the class [InstanceParser] and the type of
    its member [entry_map] are declared in iparser.h, which is not among
    the sources.  The field table is a mapping from header-field name to
    a typed value, a string or an integer, with unique keys.  The record
    holds the members that the code uses, and the diagnostic stream
    written so far (oldest message first). *)
Record InstanceParser := mk_parser {
  fs : ifstream;
  entry_map : gmap string VarMapValueType;
  cerr : list diag
}.

(** Behaviour that the C++ standard leaves undefined. *)
Inductive undefined :=
| OutOfBounds (index : Z)       (* operator[] outside the container *)
| IndeterminateValue            (* read of an uninitialised variable *)
| SignedOverflow.               (* arithmetic overflow on int *)

Inductive outcome (A : Type) :=
| Returns (a : A) (p : InstanceParser)
| Throws (e : exception) (p : InstanceParser)
| Undefined (u : undefined)
| OutOfFuel.
Arguments Returns {A} a p.
Arguments Throws {A} e p.
Arguments Undefined {A} u.
Arguments OutOfFuel {A}.

Definition M (A : Type) : Type := InstanceParser -> outcome A.

#[global] Instance M_ret : MRet M := fun A a p => Returns a p.

#[global] Instance M_bind : MBind M := fun A B f m p =>
  match m p with
  | Returns a p' => f a p'
  | Throws e p' => Throws e p'
  | Undefined u => Undefined u
  | OutOfFuel => OutOfFuel
  end.

(** [std::cerr << ...] *)
Definition log (d : diag) : M unit :=
  fun p => Returns tt (mk_parser (fs p) (entry_map p) (cerr p ++ [d])).

Definition throw {A} (e : exception) : M A := fun p => Throws e p.

Definition undefined_behaviour {A} (u : undefined) : M A := fun _ => Undefined u.

(** [fs >> x] on the parser's stream: the new value of [x], if written. *)
Definition read_int : M (option Z) :=
  fun p =>
    let (fs', v) := extract_int (fs p) in
    Returns v (mk_parser fs' (entry_map p) (cerr p)).

(** [!fs] *)
Definition stream_failed : M bool := fun p => Returns (fail (fs p)) p.

(** [std::getline(fs, line)] on the parser's stream: the new [line]. *)
Definition read_line (line : string) : M string :=
  fun p =>
    let (fs', line') := getline (fs p) line in
    Returns line' (mk_parser fs' (entry_map p) (cerr p)).

(** [entry_map.insert(std::make_pair(key, v))]: on a map with unique keys,
    insert adds the pair only when the key is not yet present. *)
Definition map_insert (key : string) (v : VarMapValueType)
    (m : gmap string VarMapValueType) : gmap string VarMapValueType :=
  match m !! key with
  | Some _ => m
  | None => <[key := v]> m
  end.

Definition entry_map_insert (key : string) (v : VarMapValueType) : M unit :=
  fun p => Returns tt (mk_parser (fs p) (map_insert key v (entry_map p)) (cerr p)).

(** Modelled from the spec: [GetEntryValue<T>] is declared in iparser.h,
    which is not among the sources.  The dispatcher looks up prerequisite
    fields in the field table, a mapping from field name to a string or an
    integer with unique keys; the result is absent when the key is.  A
    value of the other alternative is reported as absent too (the code
    stores DIMENSION as an integer and every other field as a string, so
    the lookups of the source never meet that case). *)
Definition GetEntryValue_int (key : string) : M (option Z) :=
  fun p =>
    Returns (match entry_map p !! key with Some (VInt n) => Some n | _ => None end) p.

Definition GetEntryValue_string (key : string) : M (option string) :=
  fun p =>
    Returns (match entry_map p !! key with Some (VString s) => Some s | _ => None end) p.

(** A counted [for] loop whose body may leave the function: the body
    returns [inl] of the loop state to go on and [inr] of a result to
    return at once. *)
Fixpoint for_loop {S R : Type} (count : nat) (i : nat)
    (body : nat -> S -> M (S + R)) (s : S) : M (S + R) :=
  match count with
  | O => mret (inl s)
  | Datatypes.S count' =>
      r ← body i s;
      match r with
      | inl s' => for_loop count' (Datatypes.S i) body s'
      | inr res => mret (inr res)
      end
  end.

(** ** Matrices *)

(** Modelled from the spec: the containers [ds::SquareMatrix<Dist>] and
    [ds::Matrix<Pos>] and the types [Dist] and [Pos] are declared outside
    the sources at hand.  A matrix is a square or rectangular numeric grid
    addressable by (row, column); it is created sized to a known dimension
    before any decoding begins; every cell is read independently; matrix
    entries are fixed-width signed integers.  An access outside the grid
    is undefined behaviour, as for any C++ container indexed by
    [operator[]]. *)
Abbreviation Matrix := (list (list Z)).

(** A content for the cells of new matrices, used where a property is
    shown at a concrete input: every cell holds 9, so that a zero found in
    a matrix was written by the code. *)
Definition stale_cells (i j : nat) : Z := 9.

Section Allocation.

(** Nothing at hand says what the cells of a newly created matrix hold:
    [fresh_cell i j] is the content of the cell (i, j), whatever it is.
    Every definition from here on, and every property of them, holds for
    any such content.  Creating a matrix always succeeds (a machine that
    runs out of memory is not modelled). *)
Variable fresh_cell : nat → nat → Z.

(** Modelled from the spec: [Get] creates a matrix sized to the given
    dimensions. *)
Definition Matrix_Get (rows cols : nat) : Matrix :=
  map (fun i => map (fun j => fresh_cell i j) (seq 0 cols)) (seq 0 rows).

Definition SquareMatrix_Get (n : nat) : Matrix := Matrix_Get n n.

(** [m[i][j]] *)
Definition cell (m : Matrix) (i j : nat) : option Z :=
  row ← m !! i; row !! j.

(** [m[i][j] = v] when the cell exists. *)
Definition cell_set (m : Matrix) (i j : nat) (v : Z) : option Matrix :=
  row ← m !! i;
  if (j <? length row)%nat then Some (<[i := <[j := v]> row]> m) else None.

(** An assignment to the cell at row [i], column [j] of the matrix that
    [m] points to; [v = None] leaves the cell as it is (the reference is
    formed all the same). *)
Definition write_cell (m : Matrix) (i j : nat) (v : option Z) : M Matrix :=
  match cell_set m i j (default (default 0 (cell m i j)) v) with
  | Some m' => mret m'
  | None => undefined_behaviour (OutOfBounds (Z.of_nat (if (i <? length m)%nat then j else i)))
  end.

(** Conversion of an [int] to [std::size_t]. *)
Definition to_size_t (n : Z) : Z := n mod 2 ^ 64.

(** [v[i]] for an index that was converted to [std::size_t]. *)
Definition vec_at {A} (v : list A) (i : Z) : option A :=
  if (0 <=? i) && (i <? Z.of_nat (length v)) then v !! Z.to_nat i else None.

(** ** Matrix builders, lines 18-55 *)

(** [matrixParsingError] *)
Definition matrixParsingError (i j : nat) : M unit := log (MatrixParsingError i j).

(** A builder returns its [bool] and the matrix it was given by reference. *)
Definition MatrixBuilder : Type := Matrix -> M (bool * Matrix).

(** The body of the inner loop of [buildFullMatrix]: extract into the
    cell (i, j) itself, leave with an error when the stream failed. *)
Definition read_cell (i j : nat) (m : Matrix) : M (Matrix + Matrix) :=
  v ← read_int;
  m' ← write_cell m i j v;
  failed ← stream_failed;
  if (failed : bool) then matrixParsingError i j;; mret (inr m')
  else mret (inl m').

Definition buildFullMatrix : MatrixBuilder := fun m =>
  let n := length m in
  r ← for_loop n 0 (fun i m => for_loop n 0 (fun j m => read_cell i j m) m) m;
  match r with
  | inl m' => mret (true, m')
  | inr m' => mret (false, m')
  end.

(** The body shared by the two triangular builders: extract [dij], leave
    with an error when the stream failed, else assign [dij] to the cell
    (j, i) and then to the cell (i, j). *)
Definition read_mirrored (i j : nat) (m : Matrix) : M (Matrix + Matrix) :=
  dij ← read_int;
  failed ← stream_failed;
  if (failed : bool) then matrixParsingError i j;; mret (inr m)
  else
    match dij with
    | None => undefined_behaviour IndeterminateValue
    | Some d =>
        m1 ← write_cell m j i (Some d);
        m2 ← write_cell m1 i j (Some d);
        mret (inl m2)
    end.

Definition buildLowDiagRow : MatrixBuilder := fun m =>
  let n := length m in
  r ← for_loop n 0 (fun i m =>
         for_loop (S i) 0 (fun j m => read_mirrored i j m) m) m;
  match r with
  | inl m' => mret (true, m')
  | inr m' => mret (false, m')
  end.

Definition buildUpperRow : MatrixBuilder := fun m =>
  let n := length m in
  r ← for_loop n 0 (fun i m =>
         for_loop (n - (i + 1)) (i + 1) (fun j m => read_mirrored i j m) m) m;
  match r with
  | inl m' => mret (true, m')
  | inr m' => mret (false, m')
  end.

(** [ew_formats], lines 59-69. *)
Definition ew_formats : list (string * MatrixBuilder) :=
  [ ("FULL_MATRIX", buildFullMatrix);
    ("UPPER_ROW", buildUpperRow);
    ("LOWER_DIAG_ROW", buildLowDiagRow) ].

(** ** The instance *)

(** [Instance]; an empty [dmatrix] or [posmatrix] is the null pointer. *)
Record Instance := mk_instance {
  name : string;
  comment : string;
  dmatrix : option Matrix;
  posmatrix : option Matrix
}.

Definition empty_instance : Instance := mk_instance "" "" None None.

Definition set_name (v : string) (i : Instance) : Instance :=
  mk_instance v (comment i) (dmatrix i) (posmatrix i).

Definition set_comment (v : string) (i : Instance) : Instance :=
  mk_instance (name i) v (dmatrix i) (posmatrix i).

Definition set_dmatrix (m : Matrix) (i : Instance) : Instance :=
  mk_instance (name i) (comment i) (Some m) (posmatrix i).

Definition set_posmatrix (m : Matrix) (i : Instance) : Instance :=
  mk_instance (name i) (comment i) (dmatrix i) (Some m).

(** ** Specification entries, lines 97-135 *)

Definition ParseSpecification (instance : Instance) (entry : string * string)
    : M (bool * Instance) :=
  let '(key, value) := entry in
  let invalid_value : M (bool * Instance) :=
    log (FieldValueUnsupported key value);; mret (false, instance) in
  let insert (v : VarMapValueType) (i : Instance) : M (bool * Instance) :=
    entry_map_insert key v;; mret (true, i) in
  if String.eqb key "NAME" then insert (VString value) (set_name value instance)
  else if String.eqb key "TYPE" then
    if negb (String.eqb value "TSP") then invalid_value
    else insert (VString value) instance
  else if String.eqb key "COMMENT" then insert (VString value) (set_comment value instance)
  else if String.eqb key "DIMENSION" then
    match stoi value with
    | inl e => throw e
    | inr n => if n <=? 0 then mret (false, instance) else insert (VInt n) instance
    end
  else if String.eqb key "EDGE_WEIGHT_TYPE" then
    if negb (String.eqb value "EXPLICIT") then invalid_value
    else insert (VString value) instance
  else if String.eqb key "EDGE_WEIGHT_FORMAT" then insert (VString value) instance
  else if String.eqb key "NODE_COORD_TYPE" then
    if negb (String.eqb value "NO_COORDS") then invalid_value
    else insert (VString value) instance
  else if String.eqb key "DISPLAY_DATA_TYPE" then
    if negb (String.eqb value "TWOD_DISPLAY") && negb (String.eqb value "NO_DISPLAY")
    then invalid_value
    else insert (VString value) instance
  else log (FieldUnsupported key);; mret (false, instance).

(** ** Data sections, lines 137-231 *)

(** The local variables of [ParseDisplayData] that live across iterations
    of its loop; [None] is an [int] or [Pos] that was never written. *)
Record display_vars := mk_display_vars {
  node : option Z;
  x : option Z;
  y : option Z;
  pos : Matrix;
  visited : list bool
}.

(** One iteration of the loop of lines 162-172, for dimension [n]. *)
Definition display_step (n : Z) (i : nat) (st : display_vars)
    : M (display_vars + unit) :=
  v1 ← read_int;
  v2 ← read_int;
  v3 ← read_int;
  let node1 := match v1 with Some _ => v1 | None => node st end in
  let x1 := match v2 with Some _ => v2 | None => x st end in
  let y1 := match v3 with Some _ => v3 | None => y st end in
  match node1 with
  | None => undefined_behaviour IndeterminateValue
  | Some nd =>
      if nd =? INT_MIN then undefined_behaviour SignedOverflow
      else
        let nd := nd - 1 in
        if n <=? nd then log InvalidNode;; mret (inr tt)
        else
          match vec_at (visited st) (to_size_t nd) with
          | None => undefined_behaviour (OutOfBounds (to_size_t nd))
          | Some true => log InvalidNode;; mret (inr tt)
          | Some false =>
              match x1, y1 with
              | Some xv, Some yv =>
                  let k := Z.to_nat (to_size_t nd) in
                  p1 ← write_cell (pos st) k 0 (Some xv);
                  p2 ← write_cell p1 k 1 (Some yv);
                  mret (inl (mk_display_vars (Some nd) x1 y1 p2 (<[k := true]> (visited st))))
              | _, _ => undefined_behaviour IndeterminateValue
              end
          end
  end.

Definition ParseDisplayData (instance : Instance) : M (bool * Instance) :=
  n_opt ← GetEntryValue_int "DIMENSION";
  match n_opt with
  | None => log (FieldNotDefined "DIMENSION");; mret (false, instance)
  | Some n =>
      display_type_opt ← GetEntryValue_string "DISPLAY_DATA_TYPE";
      match display_type_opt with
      | None => log (FieldNotDefined "DISPLAY_DATA_TYPE");; mret (false, instance)
      | Some display_type =>
          if negb (String.eqb display_type "TWOD_DISPLAY") then
            log (FieldValueUnsupported "DISPLAY_DATA_TYPE" display_type);;
            mret (false, instance)
          else
            let count := Z.to_nat (to_size_t n) in
            let vars := mk_display_vars None None None
                          (Matrix_Get count 2) (replicate count false) in
            r ← for_loop count 0 (display_step n) vars;
            match r with
            | inl vars' => mret (true, set_posmatrix (pos vars') instance)
            | inr _ => mret (false, instance)
            end
      end
  end.

(** The loop of lines 195-196: clear the main diagonal. *)
Definition clear_diagonal (count : nat) (m : Matrix) : M Matrix :=
  r ← for_loop (R := Empty_set) count 0
         (fun i m => m' ← write_cell m i i (Some 0); mret (inl m')) m;
  match r with
  | inl m' => mret m'
  | inr e => match (e : Empty_set) with end
  end.

Definition ParseEdgeWeights (instance : Instance) : M (bool * Instance) :=
  n_opt ← GetEntryValue_int "DIMENSION";
  match n_opt with
  | None => log (FieldNotDefined "DIMENSION");; mret (false, instance)
  | Some n =>
      ew_format_opt ← GetEntryValue_string "EDGE_WEIGHT_FORMAT";
      match ew_format_opt with
      | None => log (FieldNotDefined "EDGE_WEIGHT_FORMAT");; mret (false, instance)
      | Some ew_format =>
          let count := Z.to_nat (to_size_t n) in
          dmatrix0 ← clear_diagonal count (SquareMatrix_Get count);
          match List.find (fun opt => String.eqb (fst opt) ew_format) ew_formats with
          | None => log (UnsupportedFormat ew_format);; mret (false, instance)
          | Some builder =>
              '(ok, dmatrix1) ← snd builder dmatrix0;
              if negb ok then log ErrorBuildingMatrix;; mret (false, instance)
              else mret (true, set_dmatrix dmatrix1 instance)
          end
      end
  end.

Definition ParseData (instance : Instance) (key : string) : M (bool * Instance) :=
  if String.eqb key "DISPLAY_DATA_SECTION" then ParseDisplayData instance
  else if String.eqb key "EDGE_WEIGHT_SECTION" then ParseEdgeWeights instance
  else log (FieldUnsupported key);; mret (false, instance).

(** ** The driver, lines 245-369 *)

Definition out_of_fuel {A} : M A := fun _ => OutOfFuel.

(** The inner loop of lines 292-300: read lines until one is not blank.
    The result is the new contents of [line], or [None] for the jump to
    the label [error]. *)
Fixpoint next_line (fuel : nat) (line : string) : M (option string) :=
  match fuel with
  | O => out_of_fuel
  | S fuel' =>
      line' ← read_line line;
      match is_blank line' with
      | None => mret None
      | Some true => next_line fuel' line'
      | Some false => mret (Some line')
      end
  end.

(** How the outer loop is left. *)
Inductive loop_exit :=
| AtSentinel        (* break, on the line EOF *)
| ParsingError      (* goto parsing_error *)
| Error.            (* goto error *)

(** What [regex_search] with [entry_key_regex] makes of a line. *)
Inductive line_class :=
| DataEntry (key : string)
| SpecificationEntry (key value : string)
| NoMatch.

(** Lines 314-319 and 344: the groups of the match and the test on the
    separator. *)
Definition classify (line : string) : line_class :=
  match regex_search line entry_key_regex with
  | Some m =>
      if (3 <? length m)%nat then
        let key := sub_str m 1 in
        let colon := sub_str m 2 in
        let value := rtrim (sub_str m 3) in
        if String.eqb colon "" then DataEntry key else SpecificationEntry key value
      else NoMatch
  | None => NoMatch
  end.

(** The outer loop of lines 284-352, with the variables [instance], [line]
    and [parsing_specifications]. *)
Fixpoint Parse_loop (fuel : nat) (instance : Instance) (line : string)
    (parsing_specifications : bool) : M (loop_exit * Instance * string) :=
  match fuel with
  | O => out_of_fuel
  | S fuel' =>
      got ← next_line fuel line;
      match got with
      | None => mret (Error, instance, line)
      | Some line =>
          if String.eqb line "EOF" then mret (AtSentinel, instance, line)
          else
            match classify line with
            | DataEntry key =>
                '(ok, instance') ← ParseData instance key;
                if negb ok then log ErrorParsingData;; mret (ParsingError, instance', line)
                else Parse_loop fuel' instance' line false
            | SpecificationEntry key value =>
                if parsing_specifications then
                  '(ok, instance') ← ParseSpecification instance (key, value);
                  if negb ok then
                    log ErrorParsingSpecification;; mret (ParsingError, instance', line)
                  else Parse_loop fuel' instance' line true
                else log SpecificationInDataSection;; mret (ParsingError, instance, line)
            | NoMatch => log DidNotMatchRegex;; mret (ParsingError, instance, line)
            end
      end
  end.

(** [InstanceParser::Parse]. *)
Definition Parse (fuel : nat) : M (option Instance) :=
  fun p =>
    if negb (is_open (fs p)) then (log FileNotOpen;; mret None) p
    else
      ('(exit, instance, line) ← Parse_loop fuel empty_instance "" true;
       match exit with
       | AtSentinel =>
           match dmatrix instance with
           | None => log DistanceMatrixNotDefined;; mret None
           | Some _ => mret (Some instance)
           end
       | ParsingError => log (LastEntryParsed line);; mret None
       | Error => mret None
       end) p.

(** [InstanceParser::Open] followed by the constructor, on a file with the
    given contents. *)
Definition Open (contents : string) : InstanceParser :=
  mk_parser (open_file contents) ∅ [].

(** A line break, to write files line by line. *)
Definition nl : string := String ch_nl "".

Definition lines (ls : list string) : string :=
  fold_right (fun l acc => l +:+ nl +:+ acc) "" ls.

(** ** Observations on outcomes and matrices *)

(** The value a call returned, if it returned. *)
Definition returned {A} (o : outcome A) : option A :=
  match o with
  | Returns a _ => Some a
  | _ => None
  end.

(** The exception that left a call, if one did. *)
Definition thrown {A} (o : outcome A) : option exception :=
  match o with
  | Throws e _ => Some e
  | _ => None
  end.

(** The diagnostics written by the time a call returned or threw. *)
Definition diagnostics {A} (o : outcome A) : list diag :=
  match o with
  | Returns _ p | Throws _ p => cerr p
  | _ => []
  end.

(** The field table when a call returned. *)
Definition fields {A} (o : outcome A) : gmap string VarMapValueType :=
  match o with
  | Returns _ p => entry_map p
  | _ => ∅
  end.

(** [m] has [n] rows of [n] cells. *)
Definition square (n : nat) (m : Matrix) : Prop :=
  length m = n ∧ ∀ row, row ∈ m → length row = n.

Definition symmetric (m : Matrix) : Prop :=
  ∀ i j, cell m i j = cell m j i.

Definition zero_diagonal (m : Matrix) : Prop :=
  ∀ i, (i < length m)%nat → cell m i i = Some 0.

(** The same two properties as boolean tests, for concrete matrices. *)
Definition symmetricb (m : Matrix) : bool :=
  forallb (fun i => forallb (fun j => bool_decide (cell m i j = cell m j i))
                      (seq 0 (length m))) (seq 0 (length m)).

Definition zero_diagonalb (m : Matrix) : bool :=
  forallb (fun i => bool_decide (cell m i i = Some 0)) (seq 0 (length m)).

(** ** The classifier in words

    The line classifier as the pattern reads once the search is unfolded:
    look for the first identifier character; the key is the run of
    identifier characters from there; a colon and a space right after the
    key make the line a specification entry, whose value is what follows
    up to a line terminator, without its leading blanks and tabs and
    right-trimmed; anything else after the key makes it a data entry. *)

Fixpoint take_while (p : ascii -> bool) (s : string) : string :=
  match s with
  | String c s' => if p c then String c (take_while p s') else ""
  | "" => ""
  end.

Fixpoint drop_while (p : ascii -> bool) (s : string) : string :=
  match s with
  | String c s' => if p c then drop_while p s' else s
  | "" => ""
  end.

Fixpoint all_chars (p : ascii -> bool) (s : string) : bool :=
  match s with
  | String c s' => p c && all_chars p s'
  | "" => true
  end.

Fixpoint from_first_ident (s : string) : option string :=
  match s with
  | String c s' => if is_ident_char c then Some s else from_first_ident s'
  | "" => None
  end.

Definition classify_by_shape (line : string) : line_class :=
  match from_first_ident line with
  | None => NoMatch
  | Some t =>
      let key := take_while is_ident_char t in
      match strip_prefix ": " (drop_while is_ident_char t) with
      | Some rest => SpecificationEntry key (rtrim (take_while dot (drop_while blank_or_tab rest)))
      | None => DataEntry key
      end
  end.

(** Positional value of a string of decimal digits. *)
Fixpoint positional (s : string) : Z :=
  match s with
  | "" => 0
  | String c s' => digit_val c * 10 ^ Z.of_nat (String.length s') + positional s'
  end.

(** ** The stream as a sequence of numbers *)

(** The stream after [k] extractions of an [int]. *)
Fixpoint after_reads (k : nat) (fs : ifstream) : ifstream :=
  match k with
  | O => fs
  | S k' => after_reads k' (fst (extract_int fs))
  end.

(** What the extraction number [k] (from 0) writes to its variable. *)
Definition nth_read (k : nat) (fs : ifstream) : option Z :=
  snd (extract_int (after_reads k fs)).

(** Number of cells in the rows before row [i] of a lower triangle with
    its diagonal: 0, 1, 3, 6, ... *)
Fixpoint triangle (i : nat) : nat :=
  match i with
  | O => O
  | S i' => (triangle i' + i)%nat
  end.

(** ** Loop invariants of the builders *)

(** [buildLowDiagRow] about to read the cell (i, j): the stream is where
    the numbers of the rows before [i] and of the first [j] cells of row
    [i] have been read, and every cell read so far holds, with its mirror
    image, the number read for it. *)
Definition low_diag_inv (fs0 : ifstream) (n i j : nat) (m : Matrix)
    (p : InstanceParser) : Prop :=
  square n m ∧
  fs p = after_reads (triangle i + j) fs0 ∧
  ∀ a b, (b ≤ a)%nat → (a < i ∨ a = i ∧ b < j)%nat →
    ∃ d, nth_read (triangle a + b) fs0 = Some d ∧
         cell m a b = Some d ∧ cell m b a = Some d.

(** [buildUpperRow] about to read the cell (i, j): the diagonal is still
    zero and every cell above the diagonal read so far equals its mirror
    image. *)
Definition upper_inv (n i j : nat) (m : Matrix) : Prop :=
  square n m ∧
  (∀ a, (a < n)%nat → cell m a a = Some 0) ∧
  ∀ a b, (a < b)%nat → (a < i ∨ a = i ∧ b < j)%nat → cell m a b = cell m b a.

(** [buildFullMatrix] about to read the cell (i, j): the stream is where
    the [i * n + j] numbers of the cells before it have been read, and
    each of those cells holds the number read for it. *)
Definition full_inv (fs0 : ifstream) (n i j : nat) (m : Matrix)
    (p : InstanceParser) : Prop :=
  square n m ∧
  fs p = after_reads (i * n + j) fs0 ∧
  ∀ a b, (b < n)%nat → (a < i ∨ a = i ∧ b < j)%nat →
    ∃ d, nth_read (a * n + b) fs0 = Some d ∧ cell m a b = Some d.

(** ** Computations that leave the field table alone *)

Definition keeps_fields {A} (m : M A) : Prop :=
  ∀ p a p', m p = Returns a p' → entry_map p' = entry_map p.

(** ** What a successful parse knows about its distance matrix *)

(** The distance matrix of the instance, when there is one, was built for
    the dimension and the format that the field table holds: it has that
    many rows and columns; under UPPER_ROW it is symmetric with a zero
    diagonal; under LOWER_DIAG_ROW it is symmetric. *)
Definition layout_ok (table : gmap string VarMapValueType) (instance : Instance) : Prop :=
  ∀ m, dmatrix instance = Some m →
    ∃ n fmt,
      table !! "DIMENSION" = Some (VInt n) ∧
      table !! "EDGE_WEIGHT_FORMAT" = Some (VString fmt) ∧
      square (Z.to_nat (to_size_t n)) m ∧
      (fmt = "UPPER_ROW" → symmetric m ∧ zero_diagonal m) ∧
      (fmt = "LOWER_DIAG_ROW" → symmetric m).

(** ** Files used as examples *)

(** Four cities, the lower triangle with its diagonal, row by row. *)
Definition lower_diag_row_file : string :=
  lines [ "DIMENSION: 4";
          "EDGE_WEIGHT_FORMAT: LOWER_DIAG_ROW";
          "EDGE_WEIGHT_SECTION";
          "0 1 0 2 3 0 4 5 6 0";
          "EOF" ].

(** The same instance with one row of the triangle per line. *)
Definition lower_diag_rows_file : string :=
  lines [ "DIMENSION: 4";
          "EDGE_WEIGHT_FORMAT: LOWER_DIAG_ROW";
          "EDGE_WEIGHT_SECTION";
          "0";
          "1 0";
          "2 3 0";
          " 4  5  6  0 ";
          "";
          "EOF" ].

(** Two cities, all four cells given, neither mirrored nor zero on the
    diagonal. *)
Definition full_matrix_file : string :=
  lines [ "DIMENSION: 2";
          "EDGE_WEIGHT_FORMAT: FULL_MATRIX";
          "EDGE_WEIGHT_SECTION";
          "7 1";
          "2 7";
          "EOF" ].

(** One city whose distance to itself is given as 5. *)
Definition lower_diag_one_file : string :=
  lines [ "DIMENSION: 1";
          "EDGE_WEIGHT_FORMAT: LOWER_DIAG_ROW";
          "EDGE_WEIGHT_SECTION";
          "5";
          "EOF" ].

(** DIMENSION given twice; one number in the edge-weight section. *)
Definition two_dimensions_file : string :=
  lines [ "DIMENSION: 1";
          "DIMENSION: 2";
          "EDGE_WEIGHT_FORMAT: FULL_MATRIX";
          "EDGE_WEIGHT_SECTION";
          "9";
          "EOF" ].

Definition dimension_abc_file : string :=
  lines [ "DIMENSION: abc"; "EOF" ].

(** A display section whose first node number is 0. *)
Definition node_zero_file : string :=
  lines [ "DIMENSION: 2";
          "DISPLAY_DATA_TYPE: TWOD_DISPLAY";
          "DISPLAY_DATA_SECTION";
          "0 10 10";
          "2 20 20";
          "EOF" ].

(** A header and the sentinel, no data section. *)
Definition header_only_file : string :=
  lines [ "NAME: a"; "TYPE: TSP"; "EOF" ].

(** A header line with no sentinel after it. *)
Definition no_sentinel_file : string :=
  lines [ "NAME: a" ].

Definition upper_row_one_file : string :=
  lines [ "DIMENSION: 1";
          "EDGE_WEIGHT_FORMAT: UPPER_ROW";
          "EDGE_WEIGHT_SECTION";
          "EOF" ].

Definition dimension_3abc_file : string :=
  lines [ "DIMENSION: 3abc";
          "EDGE_WEIGHT_FORMAT: UPPER_ROW";
          "EDGE_WEIGHT_SECTION";
          "1 2 3";
          "EOF" ].

(** The first character of [s], if any, fails [p]. *)
Definition stops (p : ascii -> bool) (s : string) : bool :=
  match s with
  | String c _ => negb (p c)
  | "" => true
  end.

Definition not_ident_char (c : ascii) : bool := negb (is_ident_char c).

(** ** Types of the fields *)

(** DIMENSION, when present, is a positive [int]; every other field is a
    string. *)
Definition table_typed (table : gmap string VarMapValueType) : Prop :=
  ∀ k v, table !! k = Some v →
    if String.eqb k "DIMENSION" then ∃ n, v = VInt n ∧ 0 < n ≤ INT_MAX
    else ∃ s, v = VString s.

(** ** Further structure used by the properties of the whole file *)

(** The last character of [t], if any, fails [p]. *)
Fixpoint ends_outside (p : ascii -> bool) (t : string) : bool :=
  match t with
  | "" => true
  | String c "" => negb (p c)
  | String _ t' => ends_outside p t'
  end.

(** Number of cells above the diagonal in the rows before row [i] of an
    [n] by [n] matrix. *)
Fixpoint upper_offset (n i : nat) : nat :=
  match i with
  | O => O
  | S i' => (upper_offset n i' + (n - S i'))%nat
  end.

(** [buildUpperRow], started on [m0] with the stream [fs0], about to read
    the cell (i, j): the stream is where the numbers of the cells before
    it have been read, the diagonal is that of [m0], and every cell above
    the diagonal read so far holds, with its mirror image, the number
    read for it. *)
Definition upper_read_inv (fs0 : ifstream) (m0 : Matrix) (n i j : nat) (m : Matrix)
    (p : InstanceParser) : Prop :=
  square n m ∧
  fs p = after_reads (upper_offset n i + (j - S i)) fs0 ∧
  (∀ a, cell m a a = cell m0 a a) ∧
  ∀ a b, (a < b < n)%nat → (a < i ∨ a = i ∧ b < j)%nat →
    ∃ d, nth_read (upper_offset n a + (b - S a)) fs0 = Some d ∧
         cell m a b = Some d ∧ cell m b a = Some d.

(** How many numbers a layout of the registry holds for [n] cities. *)
Definition layout_size (name : string) (n : nat) : nat :=
  if String.eqb name "FULL_MATRIX" then (n * n)%nat
  else if String.eqb name "UPPER_ROW" then (n * (n - 1) / 2)%nat
  else (n * (n + 1) / 2)%nat.

(** The header keys that [ParseSpecification] knows. *)
Definition specification_keys : list string :=
  [ "NAME"; "TYPE"; "COMMENT"; "DIMENSION"; "EDGE_WEIGHT_TYPE";
    "EDGE_WEIGHT_FORMAT"; "NODE_COORD_TYPE"; "DISPLAY_DATA_TYPE" ].

Definition not_newline (c : ascii) : bool := negb (Ascii.eqb c ch_nl).

(** The parser with [rest] left to read in a stream that is good. *)
Definition with_rest (p : InstanceParser) (rest : string) : InstanceParser :=
  mk_parser (mk_ifstream (is_open (fs p)) rest false false) (entry_map p) (cerr p).

(** How many entries of [visited] are set. *)
Fixpoint count_true (l : list bool) : nat :=
  match l with
  | [] => O
  | b :: l' => ((if b then 1 else 0) + count_true l')%nat
  end.

(** The loop of [ParseDisplayData] for [count] nodes, started on the
    stream [fs0], before its iteration [i]: [visited] has [count] entries
    of which [i] are set, three numbers were read per iteration, and, as
    long as the stream has not failed, every node marked as visited has
    in its row of the table the coordinates of the triple that named
    it. *)
Definition display_inv (fs0 : ifstream) (count i : nat) (st : display_vars)
    (q : InstanceParser) : Prop :=
  length (visited st) = count ∧
  count_true (visited st) = i ∧
  fs q = after_reads (3 * i) fs0 ∧
  (fail (fs q) = false →
   ∀ r, visited st !! r = Some true →
     ∃ k xv yv, (k < i)%nat ∧
       nth_read (3 * k) fs0 = Some (Z.of_nat r + 1) ∧
       nth_read (3 * k + 1) fs0 = Some xv ∧
       nth_read (3 * k + 2) fs0 = Some yv ∧
       cell (pos st) r 0 = Some xv ∧ cell (pos st) r 1 = Some yv).

(** ** A text without the edge-weight section *)

(** The line is a data entry with the key EDGE_WEIGHT_SECTION: such are
    the lines for which [Parse] calls [ParseEdgeWeights]. *)
Definition opens_edge_weights (line : string) : bool :=
  match classify line with
  | DataEntry key => String.eqb key "EDGE_WEIGHT_SECTION"
  | _ => false
  end.

(** No line of the text [s] opens the edge-weight section, from whichever
    of its characters the line is taken up.  (A data section is read
    number by number, and the line read after it is what is left of the
    line in which the section stopped; so a line counts from each of its
    characters on.) *)
Fixpoint no_edge_weight_section (s : string) : bool :=
  negb (opens_edge_weights (fst (split_line s)))
  && match s with
     | "" => true
     | String _ s' => no_edge_weight_section s'
     end.

(** Computations that leave unread only what was unread before, as far
    as the edge-weight section goes. *)
Definition keeps_clear {A} (m : M A) : Prop :=
  ∀ p a p',
    no_edge_weight_section (rdbuf (fs p)) = true →
    m p = Returns a p' →
    no_edge_weight_section (rdbuf (fs p')) = true.

(** A header, the display section of one city, and the sentinel. *)
Definition display_only_file : string :=
  lines [ "NAME: a";
          "DIMENSION: 1";
          "DISPLAY_DATA_TYPE: TWOD_DISPLAY";
          "DISPLAY_DATA_SECTION";
          "1 5 6";
          "EOF" ].

(** * Properties *)

(** ** The monad *)

Lemma bind_unfold {A B} (m : M A) (f : A → M B) (p : InstanceParser) :
  (m ≫= f) p =
  match m p with
  | Returns a p' => f a p'
  | Throws e p' => Throws e p'
  | Undefined u => Undefined u
  | OutOfFuel => OutOfFuel
  end.
Proof. reflexivity. Qed.

Lemma bind_returns {A B} (m : M A) (f : A → M B) p a p' :
  m p = Returns a p' → (m ≫= f) p = f a p'.
Proof. intros H. rewrite bind_unfold, H. reflexivity. Qed.

Lemma bind_returns_inv {A B} (m : M A) (f : A → M B) p b q :
  (m ≫= f) p = Returns b q →
  ∃ a p', m p = Returns a p' ∧ f a p' = Returns b q.
Proof.
  rewrite bind_unfold. destruct (m p) as [a p'| | |]; try discriminate.
  intros H. exists a, p'. split; [reflexivity | exact H].
Qed.

(** ** More fuel does not change a result *)

Lemma next_line_mono fuel : ∀ fuel' line p,
  (fuel ≤ fuel')%nat →
  next_line fuel line p ≠ OutOfFuel →
  next_line fuel' line p = next_line fuel line p.
Proof.
  induction fuel as [|fuel IH]; intros fuel' line p Hle Hne.
  - exfalso. apply Hne. reflexivity.
  - destruct fuel' as [|fuel']; [lia|].
    cbn [next_line] in *. rewrite !bind_unfold in *.
    destruct (read_line line p) as [l q| | |]; try reflexivity.
    destruct (is_blank l) as [[|]|]; try reflexivity.
    apply IH; [lia | exact Hne].
Qed.

Lemma Parse_loop_mono fuel : ∀ fuel' instance line ps p,
  (fuel ≤ fuel')%nat →
  Parse_loop fuel instance line ps p ≠ OutOfFuel →
  Parse_loop fuel' instance line ps p = Parse_loop fuel instance line ps p.
Proof.
  induction fuel as [|fuel IH]; intros fuel' instance line ps p Hle Hne.
  - exfalso. apply Hne. reflexivity.
  - destruct fuel' as [|fuel']; [lia|].
    cbn [Parse_loop] in *. rewrite !bind_unfold in *.
    assert (Hn : next_line (S fuel) line p ≠ OutOfFuel).
    { intros E. rewrite E in Hne. apply Hne. reflexivity. }
    rewrite (next_line_mono (S fuel) (S fuel') line p Hle Hn).
    destruct (next_line (S fuel) line p) as [[l|] q| | |]; try reflexivity.
    destruct (String.eqb l "EOF"); [reflexivity|].
    destruct (classify l) as [key|key value|]; try reflexivity.
    + rewrite !bind_unfold in *.
      destruct (ParseData instance key q) as [[ok i'] q'| | |]; try reflexivity.
      destruct ok; cbn [negb] in *; [|reflexivity].
      apply IH; [lia | exact Hne].
    + destruct ps; [|reflexivity].
      rewrite !bind_unfold in *.
      destruct (ParseSpecification instance (key, value) q) as [[ok i'] q'| | |];
        try reflexivity.
      destruct ok; cbn [negb] in *; [|reflexivity].
      apply IH; [lia | exact Hne].
Qed.

Lemma Parse_mono fuel fuel' p :
  (fuel ≤ fuel')%nat →
  Parse fuel p ≠ OutOfFuel →
  Parse fuel' p = Parse fuel p.
Proof.
  intros Hle Hne. unfold Parse in *.
  destruct (negb (is_open (fs p))); [reflexivity|].
  rewrite !bind_unfold in *.
  assert (Hn : Parse_loop fuel empty_instance "" true p ≠ OutOfFuel).
  { intros E. rewrite E in Hne. apply Hne. reflexivity. }
  rewrite (Parse_loop_mono fuel fuel' _ _ _ p Hle Hn). reflexivity.
Qed.

(** ** Cells of a matrix *)

Lemma cell_set_inv m i j v m' :
  cell_set m i j v = Some m' →
  ∃ row, m !! i = Some row ∧ (j < length row)%nat ∧ m' = <[i := <[j := v]> row]> m.
Proof.
  unfold cell_set. destruct (m !! i) as [row|] eqn:Hrow; simpl; [|discriminate].
  destruct (j <? length row)%nat eqn:Hj; [|discriminate].
  intros [= <-]. exists row. apply Nat.ltb_lt in Hj. auto.
Qed.

Lemma cell_set_same m i j v m' :
  cell_set m i j v = Some m' → cell m' i j = Some v.
Proof.
  intros (row & Hrow & Hj & ->)%cell_set_inv. unfold cell.
  rewrite list_lookup_insert_eq by (eapply lookup_lt_Some; eauto). simpl.
  apply list_lookup_insert_eq. exact Hj.
Qed.

Lemma cell_set_other m i j v m' a b :
  cell_set m i j v = Some m' → a ≠ i ∨ b ≠ j → cell m' a b = cell m a b.
Proof.
  intros (row & Hrow & Hj & ->)%cell_set_inv Hne. unfold cell.
  destruct (decide (a = i)) as [->|Hai].
  - rewrite list_lookup_insert_eq by (eapply lookup_lt_Some; eauto).
    rewrite Hrow. simpl. apply list_lookup_insert_ne. destruct Hne; congruence.
  - rewrite list_lookup_insert_ne by congruence. reflexivity.
Qed.

Lemma cell_set_length m i j v m' :
  cell_set m i j v = Some m' → length m' = length m.
Proof.
  intros (row & Hrow & Hj & ->)%cell_set_inv. apply length_insert.
Qed.

Lemma cell_set_square n m i j v m' :
  square n m → cell_set m i j v = Some m' → square n m'.
Proof.
  intros [Hlen Hrows] (row & Hrow & Hj & ->)%cell_set_inv. split.
  - rewrite length_insert. exact Hlen.
  - intros r Hr. apply list_elem_of_lookup in Hr as [k Hk].
    destruct (decide (k = i)) as [->|Hki].
    + rewrite list_lookup_insert_eq in Hk by (eapply lookup_lt_Some; eauto).
      injection Hk as <-. rewrite length_insert. apply Hrows.
      eapply list_elem_of_lookup_2; eauto.
    + rewrite list_lookup_insert_ne in Hk by congruence.
      apply Hrows. eapply list_elem_of_lookup_2; eauto.
Qed.

Lemma cell_set_in_range n m i j v m' :
  square n m → cell_set m i j v = Some m' → (i < n ∧ j < n)%nat.
Proof.
  intros [Hlen Hrows] (row & Hrow & Hj & ->)%cell_set_inv. split.
  - rewrite <- Hlen. eapply lookup_lt_Some; eauto.
  - rewrite <- (Hrows row); [exact Hj|]. eapply list_elem_of_lookup_2; eauto.
Qed.

Lemma cell_set_defined n m i j v :
  square n m → (i < n)%nat → (j < n)%nat → is_Some (cell_set m i j v).
Proof.
  intros [Hlen Hrows] Hi Hj. unfold cell_set.
  destruct (lookup_lt_is_Some_2 m i) as [row Hrow]; [lia|].
  rewrite Hrow. simpl.
  assert (length row = n) as Hr by (apply Hrows; eapply list_elem_of_lookup_2; eauto).
  destruct (Nat.ltb_spec j (length row)); [eauto | lia].
Qed.

Lemma cell_outside n m i j :
  square n m → (n ≤ i ∨ n ≤ j)%nat → cell m i j = None.
Proof.
  intros [Hlen Hrows] Hout. unfold cell.
  destruct (m !! i) as [row|] eqn:Hrow; simpl; [|reflexivity].
  apply lookup_ge_None.
  assert (length row = n) as Hr by (apply Hrows; eapply list_elem_of_lookup_2; eauto).
  apply lookup_lt_Some in Hrow. lia.
Qed.

Lemma cell_inside n m i j :
  square n m → (i < n)%nat → (j < n)%nat → is_Some (cell m i j).
Proof.
  intros [Hlen Hrows] Hi Hj. unfold cell.
  destruct (lookup_lt_is_Some_2 m i) as [row Hrow]; [lia|].
  rewrite Hrow. simpl. apply lookup_lt_is_Some_2.
  rewrite (Hrows row); [exact Hj|]. eapply list_elem_of_lookup_2; eauto.
Qed.

Lemma Matrix_Get_square n : square n (SquareMatrix_Get n).
Proof.
  unfold SquareMatrix_Get, Matrix_Get. split.
  - rewrite length_map. apply length_seq.
  - intros row Hrow. apply list_elem_of_fmap in Hrow as (i & -> & _).
    rewrite length_map. apply length_seq.
Qed.

(** ** Counted loops *)

(** An invariant of the body that holds at the start holds when the loop
    runs to its end. *)
Lemma for_loop_invariant {S R : Type} (I : nat → S → InstanceParser → Prop)
    (body : nat → S → M (S + R)) count :
  ∀ i s p s' p',
  (∀ k t q t' q', (i ≤ k < i + count)%nat → I k t q →
     body k t q = Returns (inl t') q' → I (Datatypes.S k) t' q') →
  I i s p →
  for_loop count i body s p = Returns (inl s') p' →
  I (i + count)%nat s' p'.
Proof.
  induction count as [|count IH]; intros i s p s' p' Hbody Hi Hrun.
  - cbn in Hrun. injection Hrun as <- <-. rewrite Nat.add_0_r. exact Hi.
  - cbn [for_loop] in Hrun. apply bind_returns_inv in Hrun as (r & q & Hb & Hrest).
    destruct r as [t|res]; [|discriminate].
    replace (i + Datatypes.S count)%nat with (Datatypes.S i + count)%nat by lia.
    apply (IH (Datatypes.S i) t q s' p'); [| |exact Hrest].
    + intros k t0 q0 t' q' Hk. apply Hbody. lia.
    + apply (Hbody i s p t q); [lia | exact Hi | exact Hb].
Qed.

(** ** The builders *)

Lemma after_reads_succ k fs :
  after_reads (S k) fs = fst (extract_int (after_reads k fs)).
Proof.
  revert fs. induction k as [|k IH]; intros fs; [reflexivity|].
  change (after_reads (S (S k)) fs) with (after_reads (S k) (fst (extract_int fs))).
  rewrite IH. reflexivity.
Qed.

Lemma write_cell_returns m i j d p m' p' :
  write_cell m i j (Some d) p = Returns m' p' →
  cell_set m i j d = Some m' ∧ p' = p.
Proof.
  unfold write_cell. simpl. destruct (cell_set m i j d) as [m1|]; [|discriminate].
  intros [= <- <-]. auto.
Qed.

Lemma write_cell_defined n m i j d p :
  square n m → (i < n)%nat → (j < n)%nat →
  ∃ m', write_cell m i j (Some d) p = Returns m' p ∧ cell_set m i j d = Some m'.
Proof.
  intros Hsq Hi Hj. destruct (cell_set_defined n m i j d Hsq Hi Hj) as [m' Hm'].
  exists m'. unfold write_cell. simpl. rewrite Hm'. auto.
Qed.

(** When the shared body goes on, one number was extracted and written to
    the cell (j, i) and then to the cell (i, j); nothing else changed. *)
Lemma read_mirrored_continues i j m p m' p' :
  read_mirrored i j m p = Returns (inl m') p' →
  ∃ d m1,
    extract_int (fs p) = (fs p', Some d) ∧
    cell_set m j i d = Some m1 ∧ cell_set m1 i j d = Some m' ∧
    entry_map p' = entry_map p ∧ cerr p' = cerr p.
Proof.
  unfold read_mirrored, read_int, stream_failed, matrixParsingError, log.
  rewrite !bind_unfold. destruct (extract_int (fs p)) as [fs1 v] eqn:Hx.
  rewrite !bind_unfold. cbn [fs entry_map cerr].
  destruct (fail fs1); [discriminate|].
  destruct v as [d|]; [|discriminate].
  rewrite !bind_unfold.
  destruct (write_cell m j i (Some d) _) as [m1 q| | |] eqn:H1; try discriminate.
  apply write_cell_returns in H1 as [H1 ->].
  rewrite !bind_unfold.
  destruct (write_cell m1 i j (Some d) _) as [m2 q| | |] eqn:H2; try discriminate.
  apply write_cell_returns in H2 as [H2 ->].
  intros [= <- <-]. exists d, m1. cbn. auto.
Qed.

Lemma low_diag_step fs0 n i j m p m' p' :
  (j ≤ i)%nat →
  low_diag_inv fs0 n i j m p →
  read_mirrored i j m p = Returns (inl m') p' →
  low_diag_inv fs0 n i (S j) m' p'.
Proof.
  intros Hji (Hsq & Hfs & Hfill) Hrun.
  apply read_mirrored_continues in Hrun as (d & m1 & Hx & H1 & H2 & _ & _).
  assert (Hsq1 : square n m1) by (eapply cell_set_square; eauto).
  split; [eapply cell_set_square; eauto|]. split.
  - replace (triangle i + S j)%nat with (S (triangle i + j)) by lia.
    rewrite after_reads_succ, <- Hfs, Hx. reflexivity.
  - intros a b Hba Hdone.
    destruct (decide (a = i ∧ b = j)) as [[-> ->]|Hnew].
    + exists d. split; [|split].
      * unfold nth_read. rewrite <- Hfs, Hx. reflexivity.
      * eapply cell_set_same; eauto.
      * destruct (decide (i = j)) as [->|Hij]; [eapply cell_set_same; eauto|].
        rewrite (cell_set_other m1 i j d m' j i H2) by lia.
        eapply cell_set_same; eauto.
    + destruct (Hfill a b Hba) as (d0 & Hn & Hab & Hba'); [lia|].
      exists d0. split; [exact Hn|]. split.
      * rewrite (cell_set_other m1 i j d m' a b H2) by lia.
        rewrite (cell_set_other m j i d m1 a b H1) by lia. exact Hab.
      * rewrite (cell_set_other m1 i j d m' b a H2) by lia.
        rewrite (cell_set_other m j i d m1 b a H1) by lia. exact Hba'.
Qed.

Lemma low_diag_row fs0 n i m p m' p' :
  low_diag_inv fs0 n i 0 m p →
  for_loop (S i) 0 (fun j m => read_mirrored i j m) m p = Returns (inl m') p' →
  low_diag_inv fs0 n (S i) 0 m' p'.
Proof.
  intros Hinv Hrun.
  pose proof (for_loop_invariant (R := Matrix) (low_diag_inv fs0 n i)
                (fun j m => read_mirrored i j m) (S i) 0 m p m' p') as H.
  destruct H as (Hsq & Hfs & Hfill); [| exact Hinv | exact Hrun |].
  - intros k t q t' q' Hk. apply low_diag_step. lia.
  - split; [exact Hsq|]. split.
    + rewrite Hfs. f_equal. cbn [triangle]. lia.
    + intros a b Hba Hdone. apply Hfill; [exact Hba | lia].
Qed.

(** What [buildLowDiagRow] leaves when it succeeds on an [n] by [n]
    matrix: it has read [triangle n] numbers, and the cells (i, j) and
    (j, i), for j ≤ i, both hold the number read at position
    [triangle i + j], the diagonal included. *)
Lemma buildLowDiagRow_spec n m p m' p' :
  square n m →
  buildLowDiagRow m p = Returns (true, m') p' →
  square n m' ∧
  fs p' = after_reads (triangle n) (fs p) ∧
  ∀ i j, (j ≤ i < n)%nat →
    ∃ d, nth_read (triangle i + j) (fs p) = Some d ∧
         cell m' i j = Some d ∧ cell m' j i = Some d.
Proof.
  intros Hsq Hrun. unfold buildLowDiagRow in Hrun.
  apply bind_returns_inv in Hrun as (r & q & Hloop & Hret).
  destruct r as [m2|m2]; [|discriminate]. injection Hret as <- <-.
  replace (length m) with n in Hloop by (symmetry; apply Hsq).
  pose proof (for_loop_invariant (R := Matrix) (fun i => low_diag_inv (fs p) n i 0)
                (fun i m => for_loop (S i) 0 (fun j m => read_mirrored i j m) m)
                n 0 m p m2 q) as H.
  destruct H as (Hsq' & Hfs & Hfill); [| | exact Hloop |].
  - intros k t q0 t' q' _. apply low_diag_row.
  - split; [exact Hsq|]. split; [reflexivity|]. intros a b _ Hdone. lia.
  - cbn [Nat.add] in *. split; [exact Hsq'|]. split.
    + rewrite Hfs. f_equal. lia.
    + intros i j Hij. apply Hfill; lia.
Qed.

Lemma buildLowDiagRow_symmetric n m p m' p' :
  square n m → buildLowDiagRow m p = Returns (true, m') p' → symmetric m'.
Proof.
  intros Hsq Hrun.
  destruct (buildLowDiagRow_spec n m p m' p' Hsq Hrun) as (Hsq' & _ & Hcells).
  intros i j.
  destruct (decide (i < n ∧ j < n)%nat) as [[Hi Hj]|Hout].
  - destruct (decide (j ≤ i)%nat).
    + destruct (Hcells i j) as (d & _ & -> & ->); [lia | reflexivity].
    + destruct (Hcells j i) as (d & _ & -> & ->); [lia | reflexivity].
  - rewrite (cell_outside n m' i j Hsq') by lia.
    rewrite (cell_outside n m' j i Hsq') by lia. reflexivity.
Qed.

Lemma upper_step n i j m p m' p' :
  (i < j)%nat →
  upper_inv n i j m →
  read_mirrored i j m p = Returns (inl m') p' →
  upper_inv n i (S j) m'.
Proof.
  intros Hij (Hsq & Hdiag & Hsym) Hrun.
  apply read_mirrored_continues in Hrun as (d & m1 & _ & H1 & H2 & _ & _).
  assert (Hsq1 : square n m1) by (eapply cell_set_square; eauto).
  split; [eapply cell_set_square; eauto|]. split.
  - intros a Ha.
    rewrite (cell_set_other m1 i j d m' a a H2) by lia.
    rewrite (cell_set_other m j i d m1 a a H1) by lia. apply Hdiag, Ha.
  - intros a b Hab Hdone.
    destruct (decide (a = i ∧ b = j)) as [[-> ->]|Hnew].
    + rewrite (cell_set_same m1 i j d m' H2).
      rewrite (cell_set_other m1 i j d m' j i H2) by lia.
      symmetry. eapply cell_set_same; eauto.
    + rewrite (cell_set_other m1 i j d m' a b H2) by lia.
      rewrite (cell_set_other m j i d m1 a b H1) by lia.
      rewrite (cell_set_other m1 i j d m' b a H2) by lia.
      rewrite (cell_set_other m j i d m1 b a H1) by lia.
      apply Hsym; [exact Hab | lia].
Qed.

Lemma upper_row n i m p m' p' :
  (i < n)%nat →
  upper_inv n i 0 m →
  for_loop (n - (i + 1)) (i + 1) (fun j m => read_mirrored i j m) m p
    = Returns (inl m') p' →
  upper_inv n (S i) 0 m'.
Proof.
  intros Hi (Hsq & Hdiag & Hsym) Hrun.
  pose proof (for_loop_invariant (R := Matrix)
                (fun j m (_ : InstanceParser) => upper_inv n i j m)
                (fun j m => read_mirrored i j m) (n - (i + 1)) (i + 1) m p m' p') as H.
  destruct H as (Hsq' & Hdiag' & Hsym'); [| | exact Hrun |].
  - intros k t q t' q' Hk. apply upper_step. lia.
  - split; [exact Hsq|]. split; [exact Hdiag|].
    intros a b Hab Hdone. apply Hsym; [exact Hab | lia].
  - split; [exact Hsq'|]. split; [exact Hdiag'|].
    intros a b Hab Hdone.
    destruct (decide (b < n)%nat) as [Hb|Hb].
    + apply Hsym'; [exact Hab | lia].
    + rewrite (cell_outside n m' a b Hsq') by lia.
      rewrite (cell_outside n m' b a Hsq') by lia. reflexivity.
Qed.

(** What [buildUpperRow] leaves when it succeeds on an [n] by [n] matrix
    whose diagonal was cleared. *)
Lemma buildUpperRow_spec n m p m' p' :
  square n m →
  (∀ a, (a < n)%nat → cell m a a = Some 0) →
  buildUpperRow m p = Returns (true, m') p' →
  square n m' ∧ symmetric m' ∧ zero_diagonal m'.
Proof.
  intros Hsq Hdiag Hrun. unfold buildUpperRow in Hrun.
  apply bind_returns_inv in Hrun as (r & q & Hloop & Hret).
  destruct r as [m2|m2]; [|discriminate]. injection Hret as <- <-.
  replace (length m) with n in Hloop by (symmetry; apply Hsq).
  pose proof (for_loop_invariant (R := Matrix)
                (fun i m (_ : InstanceParser) => upper_inv n i 0 m)
                (fun i m => for_loop (n - (i + 1)) (i + 1) (fun j m => read_mirrored i j m) m)
                n 0 m p m2 q) as H.
  destruct H as (Hsq' & Hdiag' & Hsym'); [| | exact Hloop |].
  - intros k t q0 t' q' Hk. apply upper_row. lia.
  - split; [exact Hsq|]. split; [exact Hdiag|]. intros a b _ Hdone. lia.
  - split; [exact Hsq'|]. split.
    + intros i j.
      destruct (decide (i < n ∧ j < n)%nat) as [[Hi Hj]|Hout].
      * destruct (Nat.lt_total i j) as [Hlt|[->|Hgt]]; [|reflexivity|].
        -- apply Hsym'; [exact Hlt | lia].
        -- symmetry. apply Hsym'; [exact Hgt | lia].
      * rewrite (cell_outside n m2 i j Hsq') by lia.
        rewrite (cell_outside n m2 j i Hsq') by lia. reflexivity.
    + intros a Ha. apply Hdiag'. destruct Hsq' as [<- _]. exact Ha.
Qed.

Lemma write_cell_returns_any m i j v p m' p' :
  write_cell m i j v p = Returns m' p' →
  ∃ d, cell_set m i j d = Some m' ∧ p' = p.
Proof.
  unfold write_cell.
  destruct (cell_set m i j (default (default 0 (cell m i j)) v)) as [m1|] eqn:H;
    [|discriminate].
  intros [= <- <-]. eauto.
Qed.

Lemma read_cell_square n i j m p m' p' :
  square n m → read_cell i j m p = Returns (inl m') p' → square n m'.
Proof.
  intros Hsq. unfold read_cell, read_int, stream_failed, matrixParsingError, log.
  rewrite !bind_unfold. destruct (extract_int (fs p)) as [fs1 v].
  rewrite !bind_unfold.
  destruct (write_cell m i j v _) as [m1 q| | |] eqn:Hw; try discriminate.
  apply write_cell_returns_any in Hw as (d & Hd & ->).
  rewrite !bind_unfold. cbn [fs]. destruct (fail fs1); [discriminate|].
  intros [= <- _]. eapply cell_set_square; eauto.
Qed.

Lemma buildFullMatrix_square n m p m' p' :
  square n m → buildFullMatrix m p = Returns (true, m') p' → square n m'.
Proof.
  intros Hsq Hrun. unfold buildFullMatrix in Hrun.
  apply bind_returns_inv in Hrun as (r & q & Hloop & Hret).
  destruct r as [m2|m2]; [|discriminate]. injection Hret as <- <-.
  eapply (for_loop_invariant (R := Matrix) (fun _ m (_ : InstanceParser) => square n m));
    [| exact Hsq | exact Hloop].
  intros k t q0 t' q' _ Ht Hrow.
  eapply (for_loop_invariant (R := Matrix) (fun _ m (_ : InstanceParser) => square n m));
    [| exact Ht | exact Hrow].
  intros j t1 q1 t1' q1' _ Ht1. apply read_cell_square. exact Ht1.
Qed.

Lemma clear_diagonal_spec n m p m' p' :
  square n m →
  clear_diagonal n m p = Returns m' p' →
  square n m' ∧ (∀ a, (a < n)%nat → cell m' a a = Some 0) ∧ p' = p.
Proof.
  intros Hsq Hrun. unfold clear_diagonal in Hrun.
  apply bind_returns_inv in Hrun as (r & q & Hloop & Hret).
  destruct r as [m2|[]]. injection Hret as <- <-.
  pose proof (for_loop_invariant (R := Empty_set)
    (fun i t q => square n t ∧ q = p ∧ ∀ a, (a < i)%nat → cell t a a = Some 0)
    (fun i m => m' ← write_cell m i i (Some 0); mret (inl m')) n 0 m p m2 q) as H.
  destruct H as (Hsq' & -> & Hdiag); [| | exact Hloop |].
  - intros k t q0 t' q' _ (Ht & -> & Hd) Hbody.
    apply bind_returns_inv in Hbody as (t1 & q1 & Hw & Hret).
    injection Hret as <- <-. apply write_cell_returns in Hw as [Hw ->].
    split; [eapply cell_set_square; eauto|]. split; [reflexivity|].
    intros a Ha. destruct (decide (a = k)) as [->|Hne].
    + eapply cell_set_same; eauto.
    + rewrite (cell_set_other t k k 0 t1 a a Hw) by lia. apply Hd. lia.
  - split; [exact Hsq|]. split; [reflexivity|]. intros a Ha. lia.
  - auto.
Qed.

(** ** Who writes the field table *)

Lemma keeps_ret {A} (a : A) : keeps_fields (mret a).
Proof. intros p b p' [= _ <-]. reflexivity. Qed.

Lemma keeps_bind {A B} (m : M A) (f : A → M B) :
  keeps_fields m → (∀ a, keeps_fields (f a)) → keeps_fields (m ≫= f).
Proof.
  intros Hm Hf p b p' (a & q & H1 & H2)%bind_returns_inv.
  rewrite (Hf a q b p' H2). apply (Hm p a q H1).
Qed.

Lemma keeps_log d : keeps_fields (log d).
Proof. intros p a p' [= _ <-]. reflexivity. Qed.

Lemma keeps_undefined {A} u : keeps_fields (@undefined_behaviour A u).
Proof. intros p a p' [=]. Qed.

Lemma keeps_read_int : keeps_fields read_int.
Proof.
  intros p a p'. unfold read_int. destruct (extract_int (fs p)).
  intros [= _ <-]. reflexivity.
Qed.

Lemma keeps_read_line line : keeps_fields (read_line line).
Proof.
  intros p a p'. unfold read_line. destruct (getline (fs p) line).
  intros [= _ <-]. reflexivity.
Qed.

Lemma keeps_stream_failed : keeps_fields stream_failed.
Proof. intros p a p' [= _ <-]. reflexivity. Qed.

Lemma keeps_GetEntryValue_int key : keeps_fields (GetEntryValue_int key).
Proof. intros p a p' [= _ <-]. reflexivity. Qed.

Lemma keeps_GetEntryValue_string key : keeps_fields (GetEntryValue_string key).
Proof. intros p a p' [= _ <-]. reflexivity. Qed.

Lemma keeps_write_cell m i j v : keeps_fields (write_cell m i j v).
Proof.
  intros p a p'. unfold write_cell.
  destruct (cell_set _ _ _ _); [|discriminate]. intros [= _ <-]. reflexivity.
Qed.

Lemma keeps_for_loop {S R} (body : nat → S → M (S + R)) count :
  (∀ i s, keeps_fields (body i s)) → ∀ i s, keeps_fields (for_loop count i body s).
Proof.
  intros Hbody. induction count as [|count IH]; intros i s; cbn [for_loop].
  - apply keeps_ret.
  - apply keeps_bind; [apply Hbody|]. intros [s'|r]; [apply IH | apply keeps_ret].
Qed.

Ltac keeps :=
  repeat first
    [ apply keeps_ret | apply keeps_log | apply keeps_undefined
    | apply keeps_read_int | apply keeps_read_line | apply keeps_stream_failed
    | apply keeps_GetEntryValue_int | apply keeps_GetEntryValue_string
    | apply keeps_write_cell
    | apply keeps_for_loop; intros ? ?
    | apply keeps_bind; [|intros ?]
    | match goal with
      | |- keeps_fields (match ?x with _ => _ end) => destruct x
      end ].

Lemma keeps_read_mirrored i j m : keeps_fields (read_mirrored i j m).
Proof. unfold read_mirrored, matrixParsingError. keeps. Qed.

Lemma keeps_read_cell i j m : keeps_fields (read_cell i j m).
Proof. unfold read_cell, matrixParsingError. keeps. Qed.

Lemma keeps_builder name builder m :
  (name, builder) ∈ ew_formats → keeps_fields (builder m).
Proof.
  unfold ew_formats. rewrite !elem_of_cons, elem_of_nil.
  intros [[= _ ->]|[[= _ ->]|[[= _ ->]|[]]]].
  - unfold buildFullMatrix. keeps.
  - unfold buildUpperRow. keeps.
  - unfold buildLowDiagRow. keeps.
Qed.

Lemma keeps_ParseEdgeWeights instance : keeps_fields (ParseEdgeWeights instance).
Proof.
  unfold ParseEdgeWeights.
  apply keeps_bind; [keeps|]. intros [n|]; [|keeps].
  apply keeps_bind; [keeps|]. intros [fmt|]; [|keeps].
  apply keeps_bind; [unfold clear_diagonal; keeps|]. intros m0.
  destruct (List.find _ ew_formats) as [[name builder]|] eqn:Hfind; [|keeps].
  apply find_some in Hfind as [Hin _]. apply list_elem_of_In in Hin.
  apply keeps_bind; [apply (keeps_builder name builder); exact Hin|].
  intros [ok m1]. keeps.
Qed.

Lemma keeps_ParseDisplayData instance : keeps_fields (ParseDisplayData instance).
Proof. unfold ParseDisplayData, display_step. keeps. Qed.

Lemma keeps_ParseData instance key : keeps_fields (ParseData instance key).
Proof.
  unfold ParseData.
  destruct (String.eqb key "DISPLAY_DATA_SECTION"); [apply keeps_ParseDisplayData|].
  destruct (String.eqb key "EDGE_WEIGHT_SECTION"); [apply keeps_ParseEdgeWeights|].
  keeps.
Qed.

Lemma map_insert_keeps key v (m : gmap string VarMapValueType) k w :
  m !! k = Some w → map_insert key v m !! k = Some w.
Proof.
  intros Hk. unfold map_insert. destruct (m !! key) eqn:Hkey; [exact Hk|].
  rewrite lookup_insert_ne; [exact Hk|]. intros ->. congruence.
Qed.

Lemma map_insert_present key v (m : gmap string VarMapValueType) :
  is_Some (m !! key) → map_insert key v m = m.
Proof. intros [w Hw]. unfold map_insert. rewrite Hw. reflexivity. Qed.

Lemma map_insert_absent key v (m : gmap string VarMapValueType) :
  m !! key = None → map_insert key v m !! key = Some v.
Proof. intros Hk. unfold map_insert. rewrite Hk. apply lookup_insert_eq. Qed.

Lemma map_insert_is_Some key v (m : gmap string VarMapValueType) :
  is_Some (map_insert key v m !! key).
Proof.
  destruct (m !! key) as [w|] eqn:Hk.
  - rewrite map_insert_present by eauto. eauto.
  - rewrite map_insert_absent by exact Hk. eauto.
Qed.

(** ** Specification entries *)

Ltac split_ifs :=
  repeat match goal with
    | |- context [if ?b then _ else _] => destruct b eqn:?
    end.

(** A specification entry that validates inserts its key, with some
    value, the way [insert] does; it touches neither the stream nor the
    matrices. *)
Lemma ParseSpecification_true instance key value instance' p p' :
  ParseSpecification instance (key, value) p = Returns (true, instance') p' →
  (∃ v, entry_map p' = map_insert key v (entry_map p)) ∧
  fs p' = fs p ∧ cerr p' = cerr p ∧
  dmatrix instance' = dmatrix instance ∧ posmatrix instance' = posmatrix instance.
Proof.
  unfold ParseSpecification, entry_map_insert, log.
  destruct (stoi value) as [e|n]; split_ifs; rewrite ?bind_unfold;
    try discriminate; intros [= <- <-]; cbn; eauto 10.
Qed.

Lemma ParseSpecification_keeps_entries instance entry b instance' p p' k w :
  ParseSpecification instance entry p = Returns (b, instance') p' →
  entry_map p !! k = Some w → entry_map p' !! k = Some w.
Proof.
  destruct entry as [key value].
  unfold ParseSpecification, entry_map_insert, log.
  destruct (stoi value) as [e|n]; split_ifs; rewrite ?bind_unfold;
    try discriminate; intros [= <- <- <-]; cbn; auto using map_insert_keeps.
Qed.

(** ** The edge-weight section *)

Lemma ParseEdgeWeights_layout instance p instance' p' :
  ParseEdgeWeights instance p = Returns (true, instance') p' →
  layout_ok (entry_map p) instance' ∧ is_Some (dmatrix instance').
Proof.
  unfold ParseEdgeWeights, GetEntryValue_int, GetEntryValue_string.
  rewrite !bind_unfold.
  destruct (entry_map p !! "DIMENSION") as [[s|n]|] eqn:Hdim;
    rewrite ?bind_unfold; try discriminate.
  destruct (entry_map p !! "EDGE_WEIGHT_FORMAT") as [[fmt|k]|] eqn:Hfmt;
    rewrite ?bind_unfold; try discriminate.
  set (count := Z.to_nat (to_size_t n)).
  destruct (clear_diagonal count (SquareMatrix_Get count) p) as [m0 q| | |] eqn:Hclear;
    try discriminate.
  apply clear_diagonal_spec in Hclear as (Hsq0 & Hdiag0 & ->);
    [|apply Matrix_Get_square].
  unfold ew_formats. cbn [List.find fst snd].
  destruct (String.eqb "FULL_MATRIX" fmt) eqn:E1;
    [|destruct (String.eqb "UPPER_ROW" fmt) eqn:E2;
      [|destruct (String.eqb "LOWER_DIAG_ROW" fmt) eqn:E3]];
    cbn [snd]; rewrite ?bind_unfold; try discriminate.
  - apply String.eqb_eq in E1 as <-.
    destruct (buildFullMatrix m0 p) as [[ok m1] q| | |] eqn:Hb; try discriminate.
    destruct ok; cbn [negb]; [|unfold log; rewrite bind_unfold; discriminate].
    intros [= <- <-]. split; [|cbn; eauto].
    intros m [= <-]. exists n, "FULL_MATRIX".
    repeat split; try assumption; try discriminate.
    all: eapply buildFullMatrix_square; eauto; apply Hsq0.
  - apply String.eqb_eq in E2 as <-.
    destruct (buildUpperRow m0 p) as [[ok m1] q| | |] eqn:Hb; try discriminate.
    destruct ok; cbn [negb]; [|unfold log; rewrite bind_unfold; discriminate].
    intros [= <- <-]. split; [|cbn; eauto].
    intros m [= <-]. exists n, "UPPER_ROW".
    destruct (buildUpperRow_spec count m0 p m1 q Hsq0 Hdiag0 Hb) as (Hsq & Hsym & Hz).
    split; [assumption|]. split; [assumption|]. split; [exact Hsq|].
    split; [auto | auto].
  - apply String.eqb_eq in E3 as <-.
    destruct (buildLowDiagRow m0 p) as [[ok m1] q| | |] eqn:Hb; try discriminate.
    destruct ok; cbn [negb]; [|unfold log; rewrite bind_unfold; discriminate].
    intros [= <- <-]. split; [|cbn; eauto].
    intros m [= <-]. exists n, "LOWER_DIAG_ROW".
    destruct (buildLowDiagRow_spec count m0 p m1 q Hsq0 Hb) as (Hsq & _ & _).
    split; [assumption|]. split; [assumption|]. split; [exact Hsq|].
    split; [discriminate|]. intros _.
    exact (buildLowDiagRow_symmetric count m0 p m1 q Hsq0 Hb).
Qed.

Lemma ParseDisplayData_dmatrix instance b instance' p p' :
  ParseDisplayData instance p = Returns (b, instance') p' →
  dmatrix instance' = dmatrix instance.
Proof.
  unfold ParseDisplayData, GetEntryValue_int, GetEntryValue_string, log.
  rewrite !bind_unfold.
  destruct (entry_map p !! "DIMENSION") as [[s|n]|];
    rewrite ?bind_unfold; try (intros [= _ <- _]; reflexivity).
  destruct (entry_map p !! "DISPLAY_DATA_TYPE") as [[t|k]|];
    rewrite ?bind_unfold; try (intros [= _ <- _]; reflexivity).
  destruct (negb (String.eqb t "TWOD_DISPLAY"));
    rewrite ?bind_unfold; try (intros [= _ <- _]; reflexivity).
  destruct (for_loop _ _ _ _ _) as [[vars|[]] q| | |]; try discriminate;
    intros [= _ <- _]; reflexivity.
Qed.

Lemma ParseData_layout instance key instance' p p' :
  layout_ok (entry_map p) instance →
  ParseData instance key p = Returns (true, instance') p' →
  layout_ok (entry_map p') instance'.
Proof.
  intros Hok Hrun. rewrite (keeps_ParseData instance key p _ p' Hrun).
  unfold ParseData in Hrun.
  destruct (String.eqb key "DISPLAY_DATA_SECTION").
  { intros m Hm. rewrite (ParseDisplayData_dmatrix _ _ _ _ _ Hrun) in Hm.
    apply Hok, Hm. }
  destruct (String.eqb key "EDGE_WEIGHT_SECTION").
  { apply ParseEdgeWeights_layout in Hrun as [H _]. exact H. }
  unfold log in Hrun. rewrite bind_unfold in Hrun. discriminate.
Qed.

Lemma ParseSpecification_layout instance entry instance' p p' :
  layout_ok (entry_map p) instance →
  ParseSpecification instance entry p = Returns (true, instance') p' →
  layout_ok (entry_map p') instance'.
Proof.
  intros Hok Hrun m Hm. destruct entry as [key value].
  destruct (ParseSpecification_true _ _ _ _ _ _ Hrun) as (_ & _ & _ & Hd & _).
  rewrite Hd in Hm. destruct (Hok m Hm) as (n & fmt & H1 & H2 & H3).
  exists n, fmt. split; [|split; [|exact H3]].
  - eapply ParseSpecification_keeps_entries; eauto.
  - eapply ParseSpecification_keeps_entries; eauto.
Qed.

Lemma keeps_next_line fuel : ∀ line, keeps_fields (next_line fuel line).
Proof.
  induction fuel as [|fuel IH]; intros line; cbn [next_line].
  - intros p a p' [=].
  - apply keeps_bind; [apply keeps_read_line|]. intros l.
    destruct (is_blank l) as [[|]|]; [apply IH | apply keeps_ret | apply keeps_ret].
Qed.

Lemma Parse_loop_layout fuel : ∀ instance line ps p instance' line' p',
  layout_ok (entry_map p) instance →
  Parse_loop fuel instance line ps p = Returns (AtSentinel, instance', line') p' →
  layout_ok (entry_map p') instance'.
Proof.
  induction fuel as [|fuel IH]; intros instance line ps p instance' line' p' Hok Hrun;
    [discriminate|].
  cbn [Parse_loop] in Hrun.
  apply bind_returns_inv in Hrun as (got & q & Hline & Hrun).
  apply keeps_next_line in Hline. rewrite <- Hline in Hok.
  destruct got as [l|]; [|discriminate].
  destruct (String.eqb l "EOF"); [injection Hrun as <- _ <-; exact Hok|].
  destruct (classify l) as [key|key value|].
  - apply bind_returns_inv in Hrun as ([ok i1] & q1 & Hdata & Hrun).
    destruct ok; cbn [negb] in Hrun.
    + eapply IH; [|exact Hrun]. eapply ParseData_layout; eauto.
    + unfold log in Hrun. rewrite bind_unfold in Hrun. discriminate.
  - destruct ps.
    + apply bind_returns_inv in Hrun as ([ok i1] & q1 & Hspec & Hrun).
      destruct ok; cbn [negb] in Hrun.
      * eapply IH; [|exact Hrun]. eapply ParseSpecification_layout; eauto.
      * unfold log in Hrun. rewrite bind_unfold in Hrun. discriminate.
    + unfold log in Hrun. rewrite bind_unfold in Hrun. discriminate.
  - unfold log in Hrun. rewrite bind_unfold in Hrun. discriminate.
Qed.

(** ** Running the parser on concrete files *)

(** [Parse] with [n] units of fuel decides the run; more fuel gives the
    same. *)
Ltac enough_fuel n :=
  match goal with
  | H : (_ ≤ ?fuel)%nat |- _ =>
      rewrite (Parse_mono n fuel _ H) by (vm_compute; discriminate)
  end.

Lemma lower_diag_row_file_parses fuel :
  (5 ≤ fuel)%nat →
  returned (Parse fuel (Open lower_diag_row_file)) =
  Some (Some (mk_instance "" ""
                (Some [[0; 1; 2; 4]; [1; 0; 3; 5]; [2; 3; 0; 6]; [4; 5; 6; 0]]) None)).
Proof. intros H. enough_fuel 5%nat. vm_compute. reflexivity. Qed.

Lemma lower_diag_rows_file_parses fuel :
  (6 ≤ fuel)%nat →
  returned (Parse fuel (Open lower_diag_rows_file)) =
  Some (Some (mk_instance "" ""
                (Some [[0; 1; 2; 4]; [1; 0; 3; 5]; [2; 3; 0; 6]; [4; 5; 6; 0]]) None)).
Proof. intros H. enough_fuel 6%nat. vm_compute. reflexivity. Qed.

(** C1. The file declaring DIMENSION 4 and LOWER_DIAG_ROW with the numbers
    0 1 0 2 3 0 4 5 6 0 parses, all numbers on one line or one row of the
    triangle per line, and its distance matrix is
    [[0,1,2,4],[1,0,3,5],[2,3,0,6],[4,5,6,0]].  In general, when the
    lower-diagonal-row builder succeeds on an n by n matrix it has read
    the triangle j ≤ i row by row: the cell (i, j) and its mirror image
    (j, i) both hold the number read at position i(i+1)/2 + j of the
    stream, and for i = j that is the diagonal cell, read like the rest. *)
Theorem lower_diag_row_reads_triangle :
  (∀ fuel file,
     (6 ≤ fuel)%nat →
     file = lower_diag_row_file ∨ file = lower_diag_rows_file →
     returned (Parse fuel (Open file)) =
     Some (Some (mk_instance "" ""
                   (Some [[0; 1; 2; 4]; [1; 0; 3; 5]; [2; 3; 0; 6]; [4; 5; 6; 0]]) None)))
  ∧
  (∀ n m p m' p' i j,
     square n m →
     buildLowDiagRow m p = Returns (true, m') p' →
     (j ≤ i < n)%nat →
     ∃ d, nth_read (triangle i + j) (fs p) = Some d ∧
          cell m' i j = Some d ∧ cell m' j i = Some d).
Proof.
  split.
  - intros fuel file Hfuel [-> | ->].
    + apply lower_diag_row_file_parses. lia.
    + apply lower_diag_rows_file_parses. exact Hfuel.
  - intros n m p m' p' i j Hsq Hrun Hij.
    destruct (buildLowDiagRow_spec n m p m' p' Hsq Hrun) as (_ & _ & H).
    apply H, Hij.
Qed.

Lemma symmetricb_false m : symmetricb m = false → ¬ symmetric m.
Proof.
  intros Hb Hsym. unfold symmetricb in Hb.
  apply not_true_iff_false in Hb. apply Hb.
  apply forallb_forall. intros i _. apply forallb_forall. intros j _.
  apply bool_decide_eq_true. apply Hsym.
Qed.

Lemma zero_diagonalb_false m : zero_diagonalb m = false → ¬ zero_diagonal m.
Proof.
  intros Hb Hz. unfold zero_diagonalb in Hb.
  apply not_true_iff_false in Hb. apply Hb.
  apply forallb_forall. intros i Hi. apply bool_decide_eq_true. apply Hz.
  apply in_seq in Hi. lia.
Qed.

(** C2, amended.  Every successful parse returns an instance whose
    distance matrix is square, of the dimension held by the field table;
    it is symmetric with a zero diagonal when the format is UPPER_ROW, and
    symmetric when the format is LOWER_DIAG_ROW.  (Under FULL_MATRIX the
    cells are whatever the section gave.) *)
Theorem successful_parse_layout fuel p instance :
  returned (Parse fuel p) = Some (Some instance) →
  ∃ n fmt m,
    fields (Parse fuel p) !! "DIMENSION" = Some (VInt n) ∧
    fields (Parse fuel p) !! "EDGE_WEIGHT_FORMAT" = Some (VString fmt) ∧
    dmatrix instance = Some m ∧
    square (Z.to_nat (to_size_t n)) m ∧
    (fmt = "UPPER_ROW" → symmetric m ∧ zero_diagonal m) ∧
    (fmt = "LOWER_DIAG_ROW" → symmetric m).
Proof.
  unfold Parse. destruct (negb (is_open (fs p))); [discriminate|].
  rewrite bind_unfold.
  destruct (Parse_loop fuel empty_instance "" true p) as [[[exit i] l] q| | |] eqn:Hloop;
    try discriminate.
  destruct exit; try discriminate.
  destruct (dmatrix i) as [m|] eqn:Hm; [|discriminate].
  intros [= <-]. cbn [fields].
  assert (H0 : layout_ok (entry_map p) empty_instance) by (intros m0 Hm0; discriminate).
  pose proof (Parse_loop_layout fuel empty_instance "" true p i l q H0 Hloop) as Hok.
  destruct (Hok m Hm) as (n & fmt & H1 & H2 & H3 & H4 & H5).
  exists n, fmt, m. auto 10.
Qed.

(** ** Repeated header keys *)

(** What a specification entry that validates stores: the key with the
    value as a string, or, for DIMENSION, with the integer that [stoi]
    read; the table takes it the way [insert] does. *)
Lemma ParseSpecification_stores instance key value instance' p p' :
  ParseSpecification instance (key, value) p = Returns (true, instance') p' →
  (key = "DIMENSION" →
     ∃ n, stoi value = inr n ∧ 0 < n ∧
          entry_map p' = map_insert key (VInt n) (entry_map p)) ∧
  (key ≠ "DIMENSION" → entry_map p' = map_insert key (VString value) (entry_map p)).
Proof.
  unfold ParseSpecification, entry_map_insert, log.
  destruct (String.eqb_spec key "DIMENSION") as [->|Hkey].
  - cbn [String.eqb Ascii.eqb Bool.eqb].
    destruct (stoi value) as [e|n]; [discriminate|].
    destruct (Z.leb_spec n 0); rewrite ?bind_unfold; [discriminate|].
    intros [= <- <-]. split; [|congruence]. intros _. exists n. auto.
  - destruct (stoi value) as [e|n]; split_ifs; rewrite ?bind_unfold;
      try discriminate; intros [= <- <-]; cbn [entry_map];
      (split; [congruence | reflexivity]).
Qed.

(** C3, amended.  Of two validated header entries with the same key, the
    first of them meeting a table without that key, the field table keeps
    the value of the earlier one: the later entry leaves the table as it
    finds it, whatever happened in between that kept the entries already
    present, and a lookup by the dispatcher afterwards gives the value of
    the first entry, the integer read from it for DIMENSION and the
    string itself for any other key. *)
Theorem first_write_wins instance1 instance2 key value1 value2 p1 q1 p2 q2 i1 i2 :
  entry_map p1 !! key = None →
  ParseSpecification instance1 (key, value1) p1 = Returns (true, i1) q1 →
  (∀ k w, entry_map q1 !! k = Some w → entry_map p2 !! k = Some w) →
  ParseSpecification instance2 (key, value2) p2 = Returns (true, i2) q2 →
  entry_map q2 = entry_map p2 ∧
  (key = "DIMENSION" →
     ∃ n, stoi value1 = inr n ∧
          entry_map q2 !! "DIMENSION" = Some (VInt n) ∧
          returned (GetEntryValue_int "DIMENSION" q2) = Some (Some n)) ∧
  (key ≠ "DIMENSION" →
     entry_map q2 !! key = Some (VString value1) ∧
     returned (GetEntryValue_string key q2) = Some (Some value1)).
Proof.
  intros Hnew Hfirst Hbetween Hsecond.
  destruct (ParseSpecification_stores _ _ _ _ _ _ Hfirst) as [Hint Hstr].
  destruct (ParseSpecification_true _ _ _ _ _ _ Hsecond) as ([v2 Hq2] & _).
  assert (Hkeep : ∀ w, entry_map q1 !! key = Some w →
                       entry_map q2 = entry_map p2 ∧ entry_map q2 !! key = Some w).
  { intros w Hw. apply Hbetween in Hw.
    assert (entry_map q2 = entry_map p2) as Heq.
    { rewrite Hq2. apply map_insert_present. eauto. }
    rewrite Heq. auto. }
  destruct (String.eqb_spec key "DIMENSION") as [->|Hkey].
  - destruct (Hint eq_refl) as (n & Hn & _ & Hq1).
    destruct (Hkeep (VInt n)) as [Heq Hw].
    { rewrite Hq1. apply map_insert_absent, Hnew. }
    split; [exact Heq|]. split; [|congruence]. intros _. exists n.
    split; [exact Hn|]. split; [exact Hw|].
    unfold GetEntryValue_int. cbn [returned]. rewrite Hw. reflexivity.
  - destruct (Hkeep (VString value1)) as [Heq Hw].
    { rewrite (Hstr Hkey). apply map_insert_absent, Hnew. }
    split; [exact Heq|]. split; [congruence|]. intros _.
    split; [exact Hw|].
    unfold GetEntryValue_string. cbn [returned]. rewrite Hw. reflexivity.
Qed.

(** ** The DIMENSION entry *)


(** C4: the code at the failing input.  The header line DIMENSION: abc
    makes [std::stoi] throw [std::invalid_argument]; the handler around
    the loop body catches [std::regex_error] only, so the exception leaves
    [Parse]: there is no error result. *)
Theorem dimension_not_numeric_throws fuel :
  thrown (Parse (S fuel) (Open dimension_abc_file)) = Some invalid_argument
  ∧ returned (Parse (S fuel) (Open dimension_abc_file)) = None.
Proof.
  rewrite (Parse_mono 1 (S fuel)) by (lia || (vm_compute; discriminate)).
  vm_compute. auto.
Qed.

(** ** Input that ends before the sentinel *)

(** Once the stream is not good and [line] is blank, the inner loop reads
    the same blank line for ever. *)
Lemma next_line_stuck fuel : ∀ line p,
  good (fs p) = false →
  is_blank line = Some true →
  next_line fuel line p = OutOfFuel.
Proof.
  induction fuel as [|fuel IH]; intros line p Hgood Hblank; [reflexivity|].
  cbn [next_line]. rewrite bind_unfold. unfold read_line, getline.
  rewrite Hgood. cbn [negb]. rewrite Hblank. apply IH; [|exact Hblank].
  unfold good, set_fail. cbn. apply andb_false_r.
Qed.

(** A stream that is good with nothing left to read: the next [getline]
    gives an empty line and fails, and the loop never leaves. *)
Lemma Parse_loop_at_end fuel instance line ps p :
  good (fs p) = true →
  rdbuf (fs p) = "" →
  Parse_loop fuel instance line ps p = OutOfFuel.
Proof.
  intros Hgood Hbuf. destruct fuel as [|fuel]; [reflexivity|].
  cbn [Parse_loop next_line]. rewrite !bind_unfold. unfold read_line, getline.
  rewrite Hgood, Hbuf. cbn [negb].
  change (is_blank "") with (Some true). cbn iota.
  rewrite next_line_stuck; reflexivity.
Qed.

(** One turn of the outer loop on a specification entry that validates. *)
Lemma Parse_loop_specification fuel instance line p l q key value instance' q' :
  next_line (S fuel) line p = Returns (Some l) q →
  String.eqb l "EOF" = false →
  classify l = SpecificationEntry key value →
  ParseSpecification instance (key, value) q = Returns (true, instance') q' →
  Parse_loop (S fuel) instance line true p = Parse_loop fuel instance' l true q'.
Proof.
  intros Hline Hsent Hclass Hspec. cbn [Parse_loop].
  rewrite (bind_returns _ _ _ _ _ Hline). rewrite Hsent, Hclass.
  rewrite (bind_returns _ _ _ _ _ Hspec). reflexivity.
Qed.

(** C5: the code at the failing inputs.  On an empty file, and on a file
    whose last line is a header line with no sentinel after it, [Parse]
    does not return, whatever the fuel: the loop never tests the stream,
    and at the end of the input [getline] keeps giving a blank line. *)
Theorem no_sentinel_never_returns fuel :
  Parse fuel (Open "") = OutOfFuel
  ∧ Parse fuel (Open no_sentinel_file) = OutOfFuel.
Proof.
  split.
  - unfold Parse. cbn [Open fs open_file is_open negb]. rewrite bind_unfold.
    rewrite Parse_loop_at_end; reflexivity.
  - destruct fuel as [|fuel]; [reflexivity|].
    unfold Parse. cbn [Open fs open_file is_open negb]. rewrite bind_unfold.
    rewrite (Parse_loop_specification fuel empty_instance "" _ "NAME: a"
               (mk_parser (open_file "") ∅ []) "NAME" "a"
               (set_name "a" empty_instance)
               (mk_parser (open_file "") (map_insert "NAME" (VString "a") ∅) [])).
    + rewrite Parse_loop_at_end; reflexivity.
    + rewrite (next_line_mono 1 (S fuel)) by (lia || (vm_compute; discriminate)).
      vm_compute. reflexivity.
    + reflexivity.
    + vm_compute. reflexivity.
    + reflexivity.
Qed.

(** ** The display-data section *)

(** The guard of the loop, by the node number [v] that the iteration
    reads.  Above the range the iteration ends the section with the
    diagnostic for an invalid node. *)
Lemma display_step_above n i st p v :
  nth_read 0 (fs p) = Some v →
  INT_MIN < v →
  n ≤ v - 1 →
  display_step n i st p =
    Returns (inr tt)
      (mk_parser (after_reads 3 (fs p)) (entry_map p) (cerr p ++ [InvalidNode])).
Proof.
  unfold nth_read, display_step, read_int, log. cbn [after_reads].
  intros Hv Hmin Hn. rewrite !bind_unfold.
  destruct (extract_int (fs p)) as [fs1 v1]. cbn [snd] in Hv. subst v1.
  rewrite !bind_unfold. cbn [fs fst].
  destruct (extract_int fs1) as [fs2 v2]. rewrite !bind_unfold. cbn [fs fst].
  destruct (extract_int fs2) as [fs3 v3]. cbn [fs fst entry_map cerr].
  destruct (Z.eqb_spec v INT_MIN); [lia|].
  destruct (Z.leb_spec n (v - 1)); [reflexivity | lia].
Qed.

(** So does a node number that was seen before. *)
Lemma display_step_duplicate n i st p v :
  nth_read 0 (fs p) = Some v →
  INT_MIN < v →
  v - 1 < n →
  vec_at (visited st) (to_size_t (v - 1)) = Some true →
  display_step n i st p =
    Returns (inr tt)
      (mk_parser (after_reads 3 (fs p)) (entry_map p) (cerr p ++ [InvalidNode])).
Proof.
  unfold nth_read, display_step, read_int, log. cbn [after_reads].
  intros Hv Hmin Hn Hseen. rewrite !bind_unfold.
  destruct (extract_int (fs p)) as [fs1 v1]. cbn [snd] in Hv. subst v1.
  rewrite !bind_unfold. cbn [fs fst].
  destruct (extract_int fs1) as [fs2 v2]. rewrite !bind_unfold. cbn [fs fst].
  destruct (extract_int fs2) as [fs3 v3]. cbn [fs fst entry_map cerr].
  destruct (Z.eqb_spec v INT_MIN); [lia|].
  destruct (Z.leb_spec n (v - 1)); [lia|]. rewrite Hseen. reflexivity.
Qed.

(** Below the range nothing stops the iteration before it indexes
    [visited]: a node number of 0 or less, in a section for a dimension
    that fits [int], reads the vector out of bounds. *)
Lemma display_step_below n i st p v :
  nth_read 0 (fs p) = Some v →
  INT_MIN < v ≤ 0 →
  0 ≤ n →
  Z.of_nat (length (visited st)) ≤ INT_MAX →
  display_step n i st p = Undefined (OutOfBounds (to_size_t (v - 1))).
Proof.
  unfold nth_read, display_step, read_int, log. cbn [after_reads].
  intros Hv Hrange Hn Hlen. rewrite !bind_unfold.
  destruct (extract_int (fs p)) as [fs1 v1]. cbn [snd] in Hv. subst v1.
  rewrite !bind_unfold. cbn [fs fst].
  destruct (extract_int fs1) as [fs2 v2]. rewrite !bind_unfold. cbn [fs fst].
  destruct (extract_int fs2) as [fs3 v3]. cbn [fs fst entry_map cerr].
  destruct (Z.eqb_spec v INT_MIN); [lia|].
  destruct (Z.leb_spec n (v - 1)); [lia|].
  assert (vec_at (visited st) (to_size_t (v - 1)) = None) as ->; [|reflexivity].
  unfold vec_at, to_size_t, INT_MIN, INT_MAX in *.
  assert (Hmod : (v - 1) mod 2 ^ 64 = v - 1 + 2 ^ 64).
  { symmetry. apply (Z.mod_unique_pos _ _ (-1)); lia. }
  rewrite Hmod.
  destruct (Z.ltb_spec (v - 1 + 2 ^ 64) (Z.of_nat (length (visited st)))); [lia|].
  rewrite andb_false_r. reflexivity.
Qed.

(** C6: the code at the failing input.  A display section whose first
    triple names the node 0 makes the index -1 after the decrement; the
    test [node >= n] lets it through and [visited[node]] is read outside
    the vector, at index 2^64 - 1: the lower end of the range is not
    checked and no invalid-node error is returned. *)
Theorem node_zero_out_of_bounds fuel :
  Parse (fuel + 3) (Open node_zero_file) = Undefined (OutOfBounds (2 ^ 64 - 1))
  ∧ diagnostics (Parse (fuel + 3) (Open node_zero_file)) = [].
Proof.
  rewrite (Parse_mono 3 (fuel + 3)) by (lia || (vm_compute; discriminate)).
  vm_compute. auto.
Qed.

(** ** One city *)

(** C10.  With DIMENSION 1 and the format UPPER_ROW the edge-weight
    section succeeds without reading anything: the parser, its stream and
    its diagnostics are as before, and the instance comes back with the
    distance matrix [[0]], the rest of it as it was.  The zero is the
    work of the loop that clears the diagonal, whatever the new matrix
    held: the builder has no iteration for one city, it reads nothing and
    leaves the only cell as it finds it. *)
Theorem upper_row_dimension_one instance p :
  entry_map p !! "DIMENSION" = Some (VInt 1) →
  entry_map p !! "EDGE_WEIGHT_FORMAT" = Some (VString "UPPER_ROW") →
  (∃ instance',
     ParseEdgeWeights instance p = Returns (true, instance') p ∧
     dmatrix instance' = Some [[0]] ∧
     name instance' = name instance ∧ comment instance' = comment instance ∧
     posmatrix instance' = posmatrix instance)
  ∧ (∀ v, clear_diagonal 1 [[v]] p = Returns [[0]] p)
  ∧ (∀ v, buildUpperRow [[v]] p = Returns (true, [[v]]) p).
Proof.
  intros Hdim Hfmt. split; [|split].
  - exists (set_dmatrix [[0]] instance). split; [|repeat split].
    unfold ParseEdgeWeights, GetEntryValue_int, GetEntryValue_string.
    rewrite !bind_unfold, Hdim. rewrite !bind_unfold, Hfmt.
    destruct p as [s t c]. reflexivity.
  - intros v. destruct p as [s t c]. reflexivity.
  - intros v. destruct p as [s t c]. reflexivity.
Qed.

Lemma upper_row_one_file_parses fuel :
  (4 ≤ fuel)%nat →
  returned (Parse fuel (Open upper_row_one_file)) =
  Some (Some (mk_instance "" "" (Some [[0]]) None)).
Proof. intros H. enough_fuel 4%nat. vm_compute. reflexivity. Qed.

(** ** The line classifier *)

Lemma greedy_longest {X} (p : ascii → bool) (k : nat → string → option X) x s :
  ∀ min pos,
  (min ≤ String.length (take_while p s))%nat →
  k (pos + String.length (take_while p s))%nat (drop_while p s) = Some x →
  greedy p min pos s k = Some x.
Proof.
  induction s as [|c s IH]; intros min pos Hmin Hk; cbn in *.
  - destruct min; [|lia]. rewrite Nat.add_0_r in Hk. exact Hk.
  - destruct (p c); cbn in *.
    + rewrite (IH (pred min) (S pos)); [reflexivity | lia |].
      rewrite <- Hk. f_equal. lia.
    + destruct min; [|lia]. rewrite Nat.add_0_r in Hk. exact Hk.
Qed.

Lemma greedy_too_short {X} (p : ascii → bool) (k : nat → string → option X) s :
  ∀ min pos,
  (String.length (take_while p s) < min)%nat →
  greedy p min pos s k = None.
Proof.
  induction s as [|c s IH]; intros min pos Hmin; cbn in *.
  - destruct min; [lia | reflexivity].
  - destruct (p c); cbn in *.
    + rewrite (IH (pred min) (S pos)) by lia. destruct min; [lia | reflexivity].
    + destruct min; [lia | reflexivity].
Qed.

Lemma substring_take_while p s pos :
  substring 0 (pos + String.length (take_while p s) - pos) s = take_while p s.
Proof.
  replace (pos + String.length (take_while p s) - pos)%nat
    with (String.length (take_while p s)) by lia.
  induction s as [|c s IH]; [reflexivity|].
  cbn. destruct (p c); cbn; [rewrite IH|]; reflexivity.
Qed.

Lemma substring_strip_prefix lit s rest pos :
  strip_prefix lit s = Some rest →
  substring 0 (pos + String.length lit - pos) s = lit.
Proof.
  replace (pos + String.length lit - pos)%nat with (String.length lit) by lia.
  revert s. induction lit as [|a lit IH]; intros s H.
  - destruct s; reflexivity.
  - destruct s as [|b s]; [discriminate|]. cbn in H.
    destruct (Ascii.eqb a b) eqn:E; [|discriminate].
    apply Ascii.eqb_eq in E as <-. cbn. rewrite (IH s H). reflexivity.
Qed.

Lemma first_some {X} (o : option X) (y : option X) x :
  o = Some x → match o with Some x0 => Some x0 | None => y end = Some x.
Proof. intros ->. reflexivity. Qed.

(** The groups of a match of [entry_key_regex] that starts at the front of
    [s], when [s] starts with an identifier character. *)
Lemma rmatch_entry_key pos s :
  (1 ≤ String.length (take_while is_ident_char s))%nat →
  ∃ whole,
    rmatch entry_key_regex pos s (replicate 4 None)
      (fun pos' _ caps => Some (<[0%nat := Some (substring 0 (pos' - pos) s)]> caps))
    = Some [ Some whole;
             Some (take_while is_ident_char s);
             match strip_prefix ": " (drop_while is_ident_char s) with
             | Some _ => Some ": "
             | None => None
             end;
             Some (take_while dot
                     (drop_while blank_or_tab
                        (default (drop_while is_ident_char s)
                           (strip_prefix ": " (drop_while is_ident_char s))))) ].
Proof.
  intros Hkey.
  destruct (strip_prefix ": " (drop_while is_ident_char s)) as [rest|] eqn:Hcolon;
    eexists; unfold entry_key_regex; cbn [rmatch replicate];
    (apply greedy_longest; [exact Hkey|]);
    rewrite substring_take_while, Hcolon.
  - apply first_some. apply greedy_longest; [lia|]. apply greedy_longest; [lia|].
    rewrite substring_take_while.
    rewrite (substring_strip_prefix ": " _ rest _ Hcolon). cbn. reflexivity.
  - apply greedy_longest; [lia|]. apply greedy_longest; [lia|].
    rewrite substring_take_while. cbn. reflexivity.
Qed.

Lemma rmatch_entry_key_none {X} pos s caps (k : nat → string → smatch → option X) :
  String.length (take_while is_ident_char s) = 0%nat →
  rmatch entry_key_regex pos s caps k = None.
Proof.
  intros Hkey. unfold entry_key_regex. cbn [rmatch].
  apply greedy_too_short. lia.
Qed.

Lemma search_from_entry_key s : ∀ pos,
  match from_first_ident s with
  | None => search_from entry_key_regex pos s = None
  | Some t =>
      ∃ whole,
        search_from entry_key_regex pos s
        = Some [ Some whole;
                 Some (take_while is_ident_char t);
                 match strip_prefix ": " (drop_while is_ident_char t) with
                 | Some _ => Some ": "
                 | None => None
                 end;
                 Some (take_while dot
                         (drop_while blank_or_tab
                            (default (drop_while is_ident_char t)
                               (strip_prefix ": " (drop_while is_ident_char t))))) ]
  end.
Proof.
  induction s as [|c s IH]; intros pos.
  - cbn [from_first_ident search_from].
    rewrite rmatch_entry_key_none; reflexivity.
  - cbn [from_first_ident]. destruct (is_ident_char c) eqn:Hc.
    + destruct (rmatch_entry_key pos (String c s)) as [whole Hm].
      { cbn. rewrite Hc. cbn. lia. }
      exists whole. cbn [search_from].
      change (mark_count entry_key_regex) with 3%nat.
      rewrite Hm. reflexivity.
    + specialize (IH (S pos)). cbn [search_from].
      rewrite rmatch_entry_key_none by (cbn; rewrite Hc; reflexivity).
      exact IH.
Qed.

(** The classifier of the source is the classifier by shape. *)
Lemma classify_shape line : classify line = classify_by_shape line.
Proof.
  unfold classify, classify_by_shape, regex_search.
  pose proof (search_from_entry_key line 0) as H.
  destruct (from_first_ident line) as [t|]; [|rewrite H; reflexivity].
  destruct H as [whole ->]. cbn [length Nat.ltb Nat.leb sub_str lookup list_lookup].
  destruct (strip_prefix ": " (drop_while is_ident_char t)) as [rest|]; reflexivity.
Qed.

Lemma greedy_to_end {X} (p : ascii → bool) (f : nat → option X) s :
  ∀ min pos,
  all_chars p s = false →
  greedy p min pos s (fun pos' s' => match s' with "" => f pos' | _ => None end) = None.
Proof.
  induction s as [|c s IH]; intros min pos Hall; cbn in *; [discriminate|].
  destruct (p c); cbn in *.
  - rewrite IH by exact Hall. destruct min; reflexivity.
  - destruct min; reflexivity.
Qed.

Lemma all_chars_take_while p s :
  all_chars p s = true → take_while p s = s ∧ drop_while p s = "".
Proof.
  induction s as [|c s IH]; cbn; [auto|].
  destruct (p c); cbn; [|discriminate].
  intros H. destruct (IH H) as [-> ->]. auto.
Qed.

Lemma search_blank_later s : ∀ pos, search_from blank_regex (S pos) s = None.
Proof.
  induction s as [|c s IH]; intros pos; cbn [search_from blank_regex rmatch Nat.eqb].
  - reflexivity.
  - apply IH.
Qed.

(** [is_blank] holds of the lines made of characters of [WHITESPACE]. *)
Lemma is_blank_spec s : is_blank s = Some (all_chars isspace s).
Proof.
  unfold is_blank, regex_search.
  destruct (all_chars isspace s) eqn:Hall.
  - destruct (all_chars_take_while _ _ Hall) as [Ht Hd].
    assert (∃ m, search_from blank_regex 0 s = Some [Some m; Some s]) as [m ->];
      [|reflexivity].
    destruct s as [|c s]; [eexists; reflexivity|]. eexists.
    cbn [search_from blank_regex rmatch Nat.eqb mark_count Nat.add replicate].
    apply first_some. apply greedy_longest; [lia|].
    change (λ c0 : ascii, char_in c0 WHITESPACE) with isspace.
    rewrite Hd. rewrite (substring_take_while isspace (String c s) 0), Ht.
    cbn. reflexivity.
  - assert (search_from blank_regex 0 s = None) as ->; [|reflexivity].
    destruct s as [|c s]; [discriminate|].
    cbn [search_from blank_regex rmatch Nat.eqb mark_count Nat.add replicate].
    change (λ c0 : ascii, char_in c0 WHITESPACE) with isspace.
    rewrite (greedy_to_end isspace) by exact Hall.
    apply search_blank_later.
Qed.

Lemma append_nil_l s : "" +:+ s = s.
Proof. reflexivity. Qed.

Lemma append_cons c a b : String c a +:+ b = String c (a +:+ b).
Proof. reflexivity. Qed.

Lemma take_drop_app p a b :
  all_chars p a = true → stops p b = true →
  take_while p (a +:+ b) = a ∧ drop_while p (a +:+ b) = b.
Proof.
  intros Ha Hb. induction a as [|c a IH].
  - rewrite append_nil_l. destruct b as [|d b]; cbn in *; [auto|].
    destruct (p d); [discriminate | auto].
  - rewrite append_cons. cbn in *. destruct (p c); cbn in *; [|discriminate].
    destruct (IH Ha) as [-> ->]. auto.
Qed.

Lemma from_first_ident_here s :
  s ≠ "" → all_chars is_ident_char s = true → ∀ t, from_first_ident (s +:+ t) = Some (s +:+ t).
Proof.
  intros Hne Hall t. destruct s as [|c s]; [congruence|].
  rewrite append_cons. cbn in *. destruct (is_ident_char c); [reflexivity | discriminate].
Qed.

Lemma from_first_ident_none s :
  from_first_ident s = None ↔ all_chars not_ident_char s = true.
Proof.
  induction s as [|c s IH]; cbn; [tauto|].
  unfold not_ident_char at 1. destruct (is_ident_char c); cbn; [|exact IH].
  split; discriminate.
Qed.

Lemma classify_by_shape_no_match line :
  classify_by_shape line = NoMatch ↔ from_first_ident line = None.
Proof.
  unfold classify_by_shape. destruct (from_first_ident line) as [t|]; [|tauto].
  destruct (strip_prefix ": " (drop_while is_ident_char t)); split; discriminate.
Qed.

Lemma append_empty s : s +:+ "" = s.
Proof.
  induction s as [|c s IH]; [reflexivity|]. rewrite append_cons, IH. reflexivity.
Qed.

(** C7, amended.  A line is classified by the first identifier in it, the
    way [classify_by_shape] spells it out.  A
    line made of an identifier, a colon and a space, and trailing content
    is a header entry with that key; its value is the content up to a line
    terminator, without leading blanks and tabs, right-trimmed.  A line
    that is an identifier alone is a data entry with that key.  The only
    lines that do not match are those without any identifier character;
    such a line, when it is neither blank nor the sentinel, ends the loop
    with the diagnostic for a line that did not match, and the line is
    kept for the closing diagnostic. *)
Theorem line_classification :
  (∀ line, classify line = classify_by_shape line)
  ∧ (∀ key content,
     key ≠ "" → all_chars is_ident_char key = true →
     classify (key +:+ ": " +:+ content) =
     SpecificationEntry key (rtrim (take_while dot (drop_while blank_or_tab content))))
  ∧ (∀ key,
       key ≠ "" → all_chars is_ident_char key = true →
       classify key = DataEntry key)
  ∧ (∀ line, classify line = NoMatch ↔ all_chars not_ident_char line = true)
  ∧ (∀ fuel instance line0 ps p line q,
       next_line (S fuel) line0 p = Returns (Some line) q →
       String.eqb line "EOF" = false →
       classify line = NoMatch →
       Parse_loop (S fuel) instance line0 ps p =
       Returns (ParsingError, instance, line)
         (mk_parser (fs q) (entry_map q) (cerr q ++ [DidNotMatchRegex]))).
Proof.
  split; [exact classify_shape|]. split; [|split; [|split]].
  - intros key content Hne Hall. rewrite classify_shape. unfold classify_by_shape.
    rewrite (from_first_ident_here key Hne Hall).
    destruct (take_drop_app is_ident_char key (": " +:+ content) Hall) as [-> ->];
      reflexivity.
  - intros key Hne Hall. rewrite classify_shape. unfold classify_by_shape.
    rewrite <- (append_empty key) at 1.
    rewrite (from_first_ident_here key Hne Hall).
    destruct (take_drop_app is_ident_char key "" Hall) as [-> ->]; reflexivity.
  - intros line. rewrite classify_shape, classify_by_shape_no_match.
    apply from_first_ident_none.
  - intros fuel instance line0 ps p line q Hline Hsent Hclass.
    cbn [Parse_loop]. rewrite (bind_returns _ _ _ _ _ Hline).
    rewrite Hsent, Hclass. reflexivity.
Qed.

(** ** Reading an integer off the front of a string *)

Lemma digit_not_space_nor_sign c :
  isdigit c = true →
  isspace c = false ∧ ∀ s, read_sign (String c s) = (1, String c s).
Proof.
  destruct c as [[] [] [] [] [] [] [] []]; intros H;
    first [discriminate H | split; [reflexivity | intros s; reflexivity]].
Qed.

Lemma read_digits_app ds rest : ∀ acc,
  all_chars isdigit ds = true → stops isdigit rest = true →
  read_digits acc (ds +:+ rest) =
  (acc * 10 ^ Z.of_nat (String.length ds) + positional ds, rest).
Proof.
  induction ds as [|c ds IH]; intros acc Hds Hrest.
  - rewrite append_nil_l. cbn [String.length positional]. 
    replace (acc * 10 ^ Z.of_nat 0 + 0) with acc by (cbn; lia).
    destruct rest as [|d rest]; [reflexivity|]. cbn in *.
    destruct (isdigit d); [discriminate | reflexivity].
  - rewrite append_cons. cbn [all_chars] in Hds.
    apply andb_true_iff in Hds as [Hc Hds].
    cbn [read_digits]. rewrite Hc, (IH _ Hds Hrest). f_equal.
    cbn [String.length positional]. rewrite Nat2Z.inj_succ, Z.pow_succ_r by lia. lia.
Qed.




(** The same through the whole parser: DIMENSION: 3abc declares three
    cities. *)
Lemma dimension_3abc_file_parses fuel :
  (5 ≤ fuel)%nat →
  returned (Parse fuel (Open dimension_3abc_file)) =
    Some (Some (mk_instance "" "" (Some [[0; 1; 2]; [1; 0; 3]; [2; 3; 0]]) None))
  ∧ fields (Parse fuel (Open dimension_3abc_file)) !! "DIMENSION" = Some (VInt 3).
Proof. intros H. enough_fuel 5%nat. vm_compute. auto. Qed.

(** ** The field table is well typed *)

Lemma stoi_range value n : stoi value = inr n → INT_MIN ≤ n ≤ INT_MAX.
Proof.
  unfold stoi. destruct (read_sign (skipws value)) as [sign t].
  destruct (starts_with_digit t); [|discriminate].
  destruct (Z.ltb_spec (sign * (read_digits 0 t).1) INT_MIN); [discriminate|].
  destruct (Z.ltb_spec INT_MAX (sign * (read_digits 0 t).1)); [discriminate|].
  cbn. intros [= <-]. lia.
Qed.

Lemma map_insert_typed key v (table : gmap string VarMapValueType) :
  table_typed table →
  (if String.eqb key "DIMENSION" then ∃ n, v = VInt n ∧ 0 < n ≤ INT_MAX
   else ∃ s, v = VString s) →
  table_typed (map_insert key v table).
Proof.
  intros Ht Hv k w. unfold map_insert.
  destruct (table !! key) eqn:Hkey; [apply Ht|].
  destruct (decide (k = key)) as [->|Hne].
  - rewrite lookup_insert_eq. intros [= <-]. exact Hv.
  - rewrite lookup_insert_ne by congruence. apply Ht.
Qed.

Lemma ParseSpecification_typed instance entry b instance' p p' :
  table_typed (entry_map p) →
  ParseSpecification instance entry p = Returns (b, instance') p' →
  table_typed (entry_map p').
Proof.
  intros Ht. destruct entry as [key value].
  unfold ParseSpecification, entry_map_insert, log.
  destruct (stoi value) as [e|n] eqn:Hstoi; split_ifs; rewrite ?bind_unfold;
    try discriminate; intros [= <- <- <-]; cbn [entry_map]; try exact Ht;
    apply map_insert_typed; try exact Ht;
    repeat match goal with
      | H : String.eqb key _ = true |- _ => apply String.eqb_eq in H; subst key
      end; cbn; eauto.
  apply stoi_range in Hstoi. exists n. split; [reflexivity|]. lia.
Qed.

Lemma Parse_loop_typed fuel : ∀ instance line ps p r p',
  table_typed (entry_map p) →
  Parse_loop fuel instance line ps p = Returns r p' →
  table_typed (entry_map p').
Proof.
  induction fuel as [|fuel IH]; intros instance line ps p r p' Ht Hrun; [discriminate|].
  cbn [Parse_loop] in Hrun.
  apply bind_returns_inv in Hrun as (got & q & Hline & Hrun).
  apply keeps_next_line in Hline. rewrite <- Hline in Ht.
  destruct got as [l|]; [|injection Hrun as _ <-; exact Ht].
  destruct (String.eqb l "EOF"); [injection Hrun as _ <-; exact Ht|].
  destruct (classify l) as [key|key value|].
  - apply bind_returns_inv in Hrun as ([ok i1] & q1 & Hdata & Hrun).
    apply keeps_ParseData in Hdata. rewrite <- Hdata in Ht.
    destruct ok; cbn [negb] in Hrun.
    + eapply IH; eauto.
    + injection Hrun as _ <-. exact Ht.
  - destruct ps.
    + apply bind_returns_inv in Hrun as ([ok i1] & q1 & Hspec & Hrun).
      apply (ParseSpecification_typed _ _ _ _ _ _ Ht) in Hspec.
      destruct ok; cbn [negb] in Hrun.
      * eapply IH; eauto.
      * injection Hrun as _ <-. exact Hspec.
    + injection Hrun as _ <-. exact Ht.
  - injection Hrun as _ <-. exact Ht.
Qed.

(** Whatever the file, the table that [Parse] leaves holds a positive
    [int] for DIMENSION and strings for the other fields: the lookups of
    the data sections never meet a value of the other alternative, and a
    dimension converts to [std::size_t] unchanged. *)
Lemma Parse_typed fuel contents r p' :
  Parse fuel (Open contents) = Returns r p' → table_typed (entry_map p').
Proof.
  unfold Parse. cbn [Open fs open_file is_open negb]. intros Hrun.
  apply bind_returns_inv in Hrun as ([[exit i] l] & q & Hloop & Hrun).
  apply Parse_loop_typed in Hloop;
    [|intros k v; cbn [Open entry_map]; rewrite lookup_empty; discriminate].
  destruct exit; [destruct (dmatrix i)| |]; injection Hrun as _ <-; exact Hloop.
Qed.

(** ** The builders stay inside the matrix *)

(** A loop whose body returns under an invariant returns. *)
Lemma for_loop_returns {S R : Type} (I : nat → S → Prop)
    (body : nat → S → M (S + R)) count :
  ∀ i s p,
  (∀ k t q, (i ≤ k < i + count)%nat → I k t →
     ∃ r q', body k t q = Returns r q' ∧ ∀ t', r = inl t' → I (Datatypes.S k) t') →
  I i s →
  ∃ r p', for_loop count i body s p = Returns r p' ∧
          ∀ s', r = inl s' → I (i + count)%nat s'.
Proof.
  induction count as [|count IH]; intros i s p Hbody Hi.
  - exists (inl s), p. split; [reflexivity|].
    intros s' [= <-]. rewrite Nat.add_0_r. exact Hi.
  - destruct (Hbody i s p) as (r & q & Hrun & Hnext); [lia | exact Hi |].
    cbn [for_loop]. rewrite (bind_returns _ _ _ _ _ Hrun).
    destruct r as [t|res].
    + destruct (IH (Datatypes.S i) t q) as (r' & p' & Hloop & Hend).
      * intros k t0 q0 Hk. apply Hbody. lia.
      * apply Hnext. reflexivity.
      * exists r', p'. split; [exact Hloop|].
        intros s' Hs'. replace (i + Datatypes.S count)%nat
          with (Datatypes.S i + count)%nat by lia. apply Hend, Hs'.
    + exists (inr res), q. split; [reflexivity|]. intros ? [=].
Qed.

(** An extraction that leaves its variable unwritten has failed. *)
Lemma extract_int_unwritten fs0 :
  snd (extract_int fs0) = None → fail (fst (extract_int fs0)) = true.
Proof.
  unfold extract_int. destruct (negb (good fs0)); [reflexivity|].
  destruct (skipws (rdbuf fs0)) as [|c s] eqn:Hs; [reflexivity|].
  destruct (read_sign (String c s)) as [sign t].
  destruct (starts_with_digit t); [|discriminate].
  destruct (read_digits 0 t) as [v rest].
  destruct (sign * v <? INT_MIN); [discriminate|].
  destruct (INT_MAX <? sign * v); discriminate.
Qed.

Lemma read_mirrored_returns n i j m p :
  square n m → (i < n)%nat → (j < n)%nat →
  ∃ r p', read_mirrored i j m p = Returns r p' ∧ ∀ m', r = inl m' → square n m'.
Proof.
  intros Hsq Hi Hj. unfold read_mirrored, read_int, stream_failed, matrixParsingError, log.
  rewrite !bind_unfold. pose proof (extract_int_unwritten (fs p)) as Hun.
  destruct (extract_int (fs p)) as [fs1 v]. cbn [fst snd] in Hun.
  rewrite !bind_unfold. cbn [fs].
  destruct (fail fs1) eqn:Hfail.
  - eexists _, _. split; [reflexivity | intros ? [=]].
  - destruct v as [d|]; [|specialize (Hun eq_refl); congruence].
    rewrite !bind_unfold.
    destruct (write_cell_defined n m j i d (mk_parser fs1 (entry_map p) (cerr p)) Hsq Hj Hi)
      as (m1 & -> & H1).
    assert (Hsq1 : square n m1) by (eapply cell_set_square; eauto).
    rewrite !bind_unfold.
    destruct (write_cell_defined n m1 i j d (mk_parser fs1 (entry_map p) (cerr p)) Hsq1 Hi Hj)
      as (m2 & -> & H2).
    eexists _, _. split; [reflexivity|].
    intros m' [= <-]. eapply cell_set_square; eauto.
Qed.

Lemma read_cell_returns n i j m p :
  square n m → (i < n)%nat → (j < n)%nat →
  ∃ r p', read_cell i j m p = Returns r p' ∧ ∀ m', r = inl m' → square n m'.
Proof.
  intros Hsq Hi Hj. unfold read_cell, read_int, stream_failed, matrixParsingError, log.
  rewrite !bind_unfold. destruct (extract_int (fs p)) as [fs1 v].
  rewrite !bind_unfold. unfold write_cell.
  destruct (cell_set_defined n m i j (default (default 0 (cell m i j)) v) Hsq Hi Hj)
    as [m1 H1].
  rewrite H1. cbn -[cell_set]. rewrite bind_unfold. cbn [fs].
  destruct (fail fs1).
  - eexists _, _. split; [reflexivity | intros ? [=]].
  - eexists _, _. split; [reflexivity|].
    intros m' [= <-]. eapply cell_set_square; eauto.
Qed.

(** On the square matrix that the edge-weight section allocates, every
    builder of the registry returns: no access leaves the matrix, no
    number is used before it was read, nothing is thrown. *)
Lemma builders_return n m p name builder :
  (name, builder) ∈ ew_formats →
  square n m →
  ∃ ok m' p', builder m p = Returns (ok, m') p'.
Proof.
  unfold ew_formats. rewrite !elem_of_cons, elem_of_nil.
  intros [[= _ ->]|[[= _ ->]|[[= _ ->]|[]]]] Hsq;
    assert (Hlen : length m = n) by apply Hsq.
  - unfold buildFullMatrix. rewrite Hlen.
    destruct (for_loop_returns (R := Matrix) (fun _ m => square n m)
                (fun i m => for_loop n 0 (fun j m => read_cell i j m) m) n 0 m p)
      as (r & p' & Hrun & _); [|exact Hsq|].
    + intros i t q Hi Ht.
      destruct (for_loop_returns (R := Matrix) (fun _ m => square n m)
                  (fun j m => read_cell i j m) n 0 t q) as (r & q' & Hrow & Hend);
        [|exact Ht|eauto].
      intros j t1 q1 Hj Ht1. apply (read_cell_returns n); [exact Ht1 | lia | lia].
    + rewrite (bind_returns _ _ _ _ _ Hrun). destruct r; eauto.
  - unfold buildUpperRow. rewrite Hlen.
    destruct (for_loop_returns (R := Matrix) (fun _ m => square n m)
                (fun i m => for_loop (n - (i + 1)) (i + 1)
                              (fun j m => read_mirrored i j m) m) n 0 m p)
      as (r & p' & Hrun & _); [|exact Hsq|].
    + intros i t q Hi Ht.
      destruct (for_loop_returns (R := Matrix) (fun _ m => square n m)
                  (fun j m => read_mirrored i j m) (n - (i + 1)) (i + 1) t q)
        as (r & q' & Hrow & Hend); [|exact Ht|eauto].
      intros j t1 q1 Hj Ht1. apply (read_mirrored_returns n); [exact Ht1 | lia | lia].
    + rewrite (bind_returns _ _ _ _ _ Hrun). destruct r; eauto.
  - unfold buildLowDiagRow. rewrite Hlen.
    destruct (for_loop_returns (R := Matrix) (fun _ m => square n m)
                (fun i m => for_loop (S i) 0 (fun j m => read_mirrored i j m) m) n 0 m p)
      as (r & p' & Hrun & _); [|exact Hsq|].
    + intros i t q Hi Ht.
      destruct (for_loop_returns (R := Matrix) (fun _ m => square n m)
                  (fun j m => read_mirrored i j m) (S i) 0 t q)
        as (r & q' & Hrow & Hend); [|exact Ht|eauto].
      intros j t1 q1 Hj Ht1. apply (read_mirrored_returns n); [exact Ht1 | lia | lia].
    + rewrite (bind_returns _ _ _ _ _ Hrun). destruct r; eauto.
Qed.

Lemma clear_diagonal_returns n m p :
  square n m → ∃ m', clear_diagonal n m p = Returns m' p ∧ square n m'.
Proof.
  intros Hsq. unfold clear_diagonal.
  destruct (for_loop_returns (R := Empty_set) (fun _ m => square n m)
              (fun i m => m' ← write_cell m i i (Some 0); mret (inl m')) n 0 m p)
    as (r & p' & Hrun & Hend); [|exact Hsq|].
  - intros i t q Hi Ht.
    destruct (write_cell_defined n t i i 0 q Ht) as (t' & Hw & Hset); [lia | lia |].
    exists (inl t'), q. split; [rewrite (bind_returns _ _ _ _ _ Hw); reflexivity|].
    intros t1 [= <-]. eapply cell_set_square; eauto.
  - destruct r as [m'|[]].
    assert (p' = p) as ->.
    { pose proof (for_loop_invariant (R := Empty_set) (fun _ _ q => q = p)
                    (fun i m => m' ← write_cell m i i (Some 0); mret (inl m'))
                    n 0 m p m' p') as Hp.
      apply Hp; [|reflexivity|exact Hrun].
      intros k t q t' q' _ -> Hbody.
      apply bind_returns_inv in Hbody as (t1 & q1 & Hw & Hret).
      apply write_cell_returns in Hw as [_ ->]. injection Hret as _ <-. reflexivity. }
    exists m'. rewrite (bind_returns _ _ _ _ _ Hrun). split; [reflexivity|].
    apply Hend. reflexivity.
Qed.

(** ** What a parse never undoes *)

(** Only the edge-weight section gives the instance a distance matrix. *)
Lemma ParseData_dmatrix instance key b instance' p p' :
  key ≠ "EDGE_WEIGHT_SECTION" →
  ParseData instance key p = Returns (b, instance') p' →
  dmatrix instance' = dmatrix instance.
Proof.
  intros Hkey. unfold ParseData.
  destruct (String.eqb key "DISPLAY_DATA_SECTION"); [apply ParseDisplayData_dmatrix|].
  destruct (String.eqb_spec key "EDGE_WEIGHT_SECTION"); [congruence|].
  unfold log. rewrite bind_unfold. intros [= _ <- _]. reflexivity.
Qed.

(** An entry of the field table stays as it is to the end of the loop:
    later header lines do not replace it and data sections do not touch
    the table. *)
Lemma Parse_loop_keeps_entries fuel : ∀ instance line ps p r p' k w,
  entry_map p !! k = Some w →
  Parse_loop fuel instance line ps p = Returns r p' →
  entry_map p' !! k = Some w.
Proof.
  induction fuel as [|fuel IH]; intros instance line ps p r p' k w Hk Hrun; [discriminate|].
  cbn [Parse_loop] in Hrun.
  apply bind_returns_inv in Hrun as (got & q & Hline & Hrun).
  apply keeps_next_line in Hline. rewrite <- Hline in Hk.
  destruct got as [l|]; [|injection Hrun as _ <-; exact Hk].
  destruct (String.eqb l "EOF"); [injection Hrun as _ <-; exact Hk|].
  destruct (classify l) as [key|key value|].
  - apply bind_returns_inv in Hrun as ([ok i1] & q1 & Hdata & Hrun).
    apply keeps_ParseData in Hdata. rewrite <- Hdata in Hk.
    destruct ok; cbn [negb] in Hrun.
    + eapply IH; eauto.
    + injection Hrun as _ <-. exact Hk.
  - destruct ps.
    + apply bind_returns_inv in Hrun as ([ok i1] & q1 & Hspec & Hrun).
      apply (ParseSpecification_keeps_entries _ _ _ _ _ _ k w) in Hspec; [|exact Hk].
      destruct ok; cbn [negb] in Hrun.
      * eapply IH; eauto.
      * injection Hrun as _ <-. exact Hspec.
    + injection Hrun as _ <-. exact Hk.
  - injection Hrun as _ <-. exact Hk.
Qed.

(** ** The full matrix, cell by cell *)

Lemma read_cell_continues i j m p m' p' :
  read_cell i j m p = Returns (inl m') p' →
  ∃ d, extract_int (fs p) = (fs p', Some d) ∧ cell_set m i j d = Some m'.
Proof.
  unfold read_cell, read_int, stream_failed, matrixParsingError, log.
  rewrite !bind_unfold. pose proof (extract_int_unwritten (fs p)) as Hun.
  destruct (extract_int (fs p)) as [fs1 v]. cbn [fst snd] in Hun.
  rewrite !bind_unfold.
  destruct (write_cell m i j v _) as [m1 q| | |] eqn:Hw; try discriminate.
  rewrite !bind_unfold.
  destruct (fail (fs q)) eqn:Hfail; [discriminate|].
  intros [= <- <-].
  destruct v as [d|].
  - apply write_cell_returns in Hw as [Hw ->]. exists d. auto.
  - apply write_cell_returns_any in Hw as (d & _ & ->). cbn [fs] in Hfail.
    specialize (Hun eq_refl). congruence.
Qed.

Lemma full_step fs0 n i j m p m' p' :
  (j < n)%nat →
  full_inv fs0 n i j m p →
  read_cell i j m p = Returns (inl m') p' →
  full_inv fs0 n i (S j) m' p'.
Proof.
  intros Hj (Hsq & Hfs & Hfill) Hrun.
  apply read_cell_continues in Hrun as (d & Hx & Hset).
  split; [eapply cell_set_square; eauto|]. split.
  - replace (i * n + S j)%nat with (S (i * n + j)) by lia.
    rewrite after_reads_succ, <- Hfs, Hx. reflexivity.
  - intros a b Hb Hdone.
    destruct (decide (a = i ∧ b = j)) as [[-> ->]|Hnew].
    + exists d. split; [|eapply cell_set_same; eauto].
      unfold nth_read. rewrite <- Hfs, Hx. reflexivity.
    + destruct (Hfill a b Hb) as (d0 & Hn & Hab); [lia|].
      exists d0. split; [exact Hn|].
      rewrite (cell_set_other m i j d m' a b Hset) by lia. exact Hab.
Qed.

(** What [buildFullMatrix] leaves when it succeeds on an [n] by [n]
    matrix: it has read [n * n] numbers, and the cell (i, j) holds the
    number read at position [i * n + j], whatever the cell (j, i) holds. *)
Lemma buildFullMatrix_spec n m p m' p' :
  square n m →
  buildFullMatrix m p = Returns (true, m') p' →
  square n m' ∧
  fs p' = after_reads (n * n) (fs p) ∧
  ∀ i j, (i < n)%nat → (j < n)%nat →
    ∃ d, nth_read (i * n + j) (fs p) = Some d ∧ cell m' i j = Some d.
Proof.
  intros Hsq Hrun. unfold buildFullMatrix in Hrun.
  apply bind_returns_inv in Hrun as (r & q & Hloop & Hret).
  destruct r as [m2|m2]; [|discriminate]. injection Hret as <- <-.
  replace (length m) with n in Hloop by (symmetry; apply Hsq).
  pose proof (for_loop_invariant (R := Matrix) (fun i => full_inv (fs p) n i 0)
                (fun i m => for_loop n 0 (fun j m => read_cell i j m) m)
                n 0 m p m2 q) as H.
  destruct H as (Hsq' & Hfs & Hfill); [| | exact Hloop |].
  - intros i t q0 t' q' _ Hinv Hrow.
    pose proof (for_loop_invariant (R := Matrix) (full_inv (fs p) n i)
                  (fun j m => read_cell i j m) n 0 t q0 t' q') as Hr.
    destruct Hr as (Hsq1 & Hfs1 & Hfill1); [| exact Hinv | exact Hrow |].
    + intros j t1 q1 t1' q1' Hj. apply full_step. lia.
    + cbn [Nat.add] in *. split; [exact Hsq1|]. split.
      * rewrite Hfs1. f_equal. lia.
      * intros a b Hb Hdone. apply Hfill1; [exact Hb | lia].
  - split; [exact Hsq|]. split; [reflexivity|]. intros a b _ Hdone. lia.
  - cbn [Nat.add] in *. split; [exact Hsq'|]. split.
    + rewrite Hfs. f_equal. lia.
    + intros i j Hi Hj. apply Hfill; [exact Hj | lia].
Qed.

(** * Properties of the rest of the file *)

(** ** Blank lines and trimming *)

(** X1.  Whenever [is_blank] gives an answer, the answer is yes exactly
    when the line is made only of characters of [WHITESPACE]; the empty
    line is such a line.  (Nothing is said here of a line on which the
    regex engine of the machine gives up: the matcher is modelled without
    limits on its resources.) *)
Theorem is_blank_whitespace_only s b :
  is_blank s = Some b →
  (b = true ↔ all_chars (fun c => char_in c WHITESPACE) s = true).
Proof. rewrite is_blank_spec. intros [= <-]. reflexivity. Qed.

Lemma substring_zero s : substring 0 0 s = "".
Proof. destruct s; reflexivity. Qed.

Lemma find_last_none_all set s :
  find_last_not_of set s = None ↔ all_chars (fun c => char_in c set) s = true.
Proof.
  induction s as [|c s IH]; cbn; [tauto|].
  destruct (find_last_not_of set s) as [k|].
  - split; [discriminate|]. intros H. apply andb_true_iff in H as [_ H].
    apply IH in H. discriminate.
  - destruct (char_in c set); cbn; [|split; discriminate].
    split; intros _; [apply IH|]; reflexivity.
Qed.

(** [rtrim] one character at a time. *)
Lemma rtrim_cons c s :
  rtrim (String c s) =
  match find_last_not_of WHITESPACE s with
  | Some _ => String c (rtrim s)
  | None => if isspace c then "" else String c ""
  end.
Proof.
  unfold rtrim, isspace. cbn [find_last_not_of].
  destruct (find_last_not_of WHITESPACE s) as [k|].
  - replace (S k + 1)%nat with (S (k + 1)) by lia. reflexivity.
  - destruct (char_in c WHITESPACE); [reflexivity|].
    cbn. rewrite substring_zero. reflexivity.
Qed.

Lemma rtrim_splits s :
  ∃ w, s = rtrim s +:+ w ∧ all_chars isspace w = true ∧ ends_outside isspace (rtrim s) = true.
Proof.
  induction s as [|c s (w & Hs & Hw & Hend)].
  - exists "". auto.
  - rewrite rtrim_cons.
    destruct (find_last_not_of WHITESPACE s) as [k|] eqn:Hk.
    + exists w. rewrite append_cons, <- Hs. split; [reflexivity|]. split; [exact Hw|].
      assert (rtrim s ≠ "") as Hne.
      { unfold rtrim. rewrite Hk. destruct s; [discriminate|].
        replace (k + 1)%nat with (S k) by lia. discriminate. }
      cbn. destruct (rtrim s); [congruence | exact Hend].
    + apply find_last_none_all in Hk. fold isspace in Hk.
      change (fun c => char_in c WHITESPACE) with isspace in Hk.
      destruct (isspace c) eqn:Hc.
      * exists (String c s). rewrite append_nil_l. split; [reflexivity|].
        split; [|reflexivity]. cbn [all_chars]. rewrite Hc, Hk. reflexivity.
      * exists s. split; [reflexivity|]. split; [exact Hk|].
        cbn [ends_outside]. rewrite Hc. reflexivity.
Qed.

Lemma rtrim_fixed t :
  ends_outside isspace t = true → rtrim t = t.
Proof.
  induction t as [|c t IH]; [reflexivity|]. intros Hend. rewrite rtrim_cons.
  destruct t as [|d t].
  - cbn [ends_outside find_last_not_of] in *.
    destruct (isspace c); [discriminate | reflexivity].
  - change (ends_outside isspace (String c (String d t)))
      with (ends_outside isspace (String d t)) in Hend.
    specialize (IH Hend). destruct (find_last_not_of WHITESPACE (String d t)) eqn:Hk.
    + rewrite IH. reflexivity.
    + unfold rtrim in IH. rewrite Hk in IH. discriminate.
Qed.

(** X2.  [rtrim] cuts a string where its trailing white space starts:
    the string is the result followed by characters of [WHITESPACE] only,
    the result does not end in one, and trimming twice is trimming
    once. *)
Theorem rtrim_cuts_trailing_whitespace s :
  (∃ w, s = rtrim s +:+ w ∧ all_chars isspace w = true)
  ∧ ends_outside isspace (rtrim s) = true
  ∧ rtrim (rtrim s) = rtrim s.
Proof.
  destruct (rtrim_splits s) as (w & Hs & Hw & Hend).
  split; [eauto|]. split; [exact Hend|]. apply rtrim_fixed, Hend.
Qed.

(** ** What the classifier hands on *)

Lemma from_first_ident_starts s t :
  from_first_ident s = Some t → ∃ c t', t = String c t' ∧ is_ident_char c = true.
Proof.
  induction s as [|c s IH]; cbn; [discriminate|].
  destruct (is_ident_char c) eqn:Hc; [|exact IH].
  intros [= <-]. eauto.
Qed.

Lemma take_while_all p s : all_chars p (take_while p s) = true.
Proof.
  induction s as [|c s IH]; cbn; [reflexivity|].
  destruct (p c) eqn:Hc; cbn; [rewrite Hc; exact IH | reflexivity].
Qed.

Lemma drop_while_stops p s : stops p (drop_while p s) = true.
Proof.
  induction s as [|c s IH]; cbn; [reflexivity|].
  destruct (p c) eqn:Hc; cbn; [exact IH | rewrite Hc; reflexivity].
Qed.

Lemma take_while_stops p q s : stops p s = true → stops p (take_while q s) = true.
Proof. destruct s as [|c s]; cbn; [auto|]. destruct (q c); auto. Qed.

Lemma all_chars_prefix p a b : all_chars p (a +:+ b) = true → all_chars p a = true.
Proof.
  induction a as [|c a IH]; [reflexivity|]. rewrite append_cons. cbn.
  intros [Hc H]%andb_true_iff. rewrite Hc, (IH H). reflexivity.
Qed.

Lemma stops_prefix p a b : stops p (a +:+ b) = true → stops p a = true.
Proof. destruct a as [|c a]; [reflexivity|]. rewrite append_cons. auto. Qed.

(** X3.  Whatever the line, a key that the classifier hands on is a
    non-empty run of identifier characters, and a value it hands on has
    no trailing white space, no leading blank or tab and no line
    terminator in it. *)
Theorem classified_entries_are_clean line :
  match classify line with
  | SpecificationEntry key value =>
      key ≠ "" ∧ all_chars is_ident_char key = true ∧
      rtrim value = value ∧ stops blank_or_tab value = true ∧
      all_chars dot value = true
  | DataEntry key => key ≠ "" ∧ all_chars is_ident_char key = true
  | NoMatch => True
  end.
Proof.
  rewrite classify_shape. unfold classify_by_shape.
  destruct (from_first_ident line) as [t|] eqn:Ht; [|exact I].
  apply from_first_ident_starts in Ht as (c & t' & -> & Hc).
  assert (Hkey : take_while is_ident_char (String c t') ≠ ""
                 ∧ all_chars is_ident_char (take_while is_ident_char (String c t')) = true).
  { split; [|apply take_while_all]. cbn. rewrite Hc. discriminate. }
  destruct (strip_prefix ": " (drop_while is_ident_char (String c t'))) as [rest|];
    [|exact Hkey].
  destruct Hkey as [Hne Hall]. split; [exact Hne|]. split; [exact Hall|].
  set (x := take_while dot (drop_while blank_or_tab rest)).
  destruct (rtrim_splits x) as (w & Hx & Hw & Hend).
  split; [apply rtrim_fixed, Hend|]. split.
  - apply (stops_prefix _ _ w). rewrite <- Hx. unfold x.
    apply take_while_stops, drop_while_stops.
  - apply (all_chars_prefix _ _ w). rewrite <- Hx. apply take_while_all.
Qed.

(** ** The three layouts, number by number *)

Lemma upper_read_step fs0 m0 n i j m p m' p' :
  (i < j < n)%nat →
  upper_read_inv fs0 m0 n i j m p →
  read_mirrored i j m p = Returns (inl m') p' →
  upper_read_inv fs0 m0 n i (S j) m' p'.
Proof.
  intros Hij (Hsq & Hfs & Hdiag & Hfill) Hrun.
  apply read_mirrored_continues in Hrun as (d & m1 & Hx & H1 & H2 & _ & _).
  assert (Hsq1 : square n m1) by (eapply cell_set_square; eauto).
  split; [eapply cell_set_square; eauto|]. split; [|split].
  - replace (upper_offset n i + (S j - S i))%nat
      with (S (upper_offset n i + (j - S i))) by lia.
    rewrite after_reads_succ, <- Hfs, Hx. reflexivity.
  - intros a.
    rewrite (cell_set_other m1 i j d m' a a H2) by lia.
    rewrite (cell_set_other m j i d m1 a a H1) by lia. apply Hdiag.
  - intros a b Hab Hdone.
    destruct (decide (a = i ∧ b = j)) as [[-> ->]|Hnew].
    + exists d. split; [|split].
      * unfold nth_read. rewrite <- Hfs, Hx. reflexivity.
      * eapply cell_set_same; eauto.
      * rewrite (cell_set_other m1 i j d m' j i H2) by lia.
        eapply cell_set_same; eauto.
    + destruct (Hfill a b Hab) as (d0 & Hn & Hcell & Hmirror); [lia|].
      exists d0. split; [exact Hn|]. split.
      * rewrite (cell_set_other m1 i j d m' a b H2) by lia.
        rewrite (cell_set_other m j i d m1 a b H1) by lia. exact Hcell.
      * rewrite (cell_set_other m1 i j d m' b a H2) by lia.
        rewrite (cell_set_other m j i d m1 b a H1) by lia. exact Hmirror.
Qed.

Lemma upper_read_row fs0 m0 n i m p m' p' :
  (i < n)%nat →
  upper_read_inv fs0 m0 n i (S i) m p →
  for_loop (n - (i + 1)) (i + 1) (fun j m => read_mirrored i j m) m p
    = Returns (inl m') p' →
  upper_read_inv fs0 m0 n (S i) (S (S i)) m' p'.
Proof.
  intros Hi Hinv Hrun.
  pose proof (for_loop_invariant (R := Matrix) (upper_read_inv fs0 m0 n i)
                (fun j m => read_mirrored i j m) (n - (i + 1)) (i + 1) m p m' p') as H.
  destruct H as (Hsq & Hfs & Hdiag & Hfill); [| | exact Hrun |].
  - intros k t q t' q' Hk. apply upper_read_step. lia.
  - replace (i + 1)%nat with (S i) by lia. exact Hinv.
  - split; [exact Hsq|]. split; [|split; [exact Hdiag|]].
    + rewrite Hfs. f_equal. cbn [upper_offset]. lia.
    + intros a b Hab Hdone. apply Hfill; [exact Hab | lia].
Qed.

(** What [buildUpperRow] leaves when it succeeds on an [n] by [n]
    matrix. *)
Lemma buildUpperRow_reads n m p m' p' :
  square n m →
  buildUpperRow m p = Returns (true, m') p' →
  square n m' ∧
  fs p' = after_reads (upper_offset n n) (fs p) ∧
  (∀ a, cell m' a a = cell m a a) ∧
  ∀ i j, (i < j < n)%nat →
    ∃ d, nth_read (upper_offset n i + (j - S i)) (fs p) = Some d ∧
         cell m' i j = Some d ∧ cell m' j i = Some d.
Proof.
  intros Hsq Hrun. unfold buildUpperRow in Hrun.
  apply bind_returns_inv in Hrun as (r & q & Hloop & Hret).
  destruct r as [m2|m2]; [|discriminate]. injection Hret as <- <-.
  replace (length m) with n in Hloop by (symmetry; apply Hsq).
  pose proof (for_loop_invariant (R := Matrix)
                (fun i => upper_read_inv (fs p) m n i (S i))
                (fun i m => for_loop (n - (i + 1)) (i + 1)
                              (fun j m => read_mirrored i j m) m)
                n 0 m p m2 q) as H.
  destruct H as (Hsq' & Hfs & Hdiag & Hfill); [| | exact Hloop |].
  - intros k t q0 t' q' Hk. apply upper_read_row. lia.
  - split; [exact Hsq|]. split; [reflexivity|]. split; [reflexivity|].
    intros a b Hab Hdone. lia.
  - cbn [Nat.add] in *. split; [exact Hsq'|]. split; [|split; [exact Hdiag|]].
    + rewrite Hfs. f_equal. lia.
    + intros i j Hij. apply Hfill; [exact Hij | lia].
Qed.

(** X4.  When [buildFullMatrix] succeeds on an [n] by [n] matrix, the
    cell (i, j) holds the number read at position i * n + j of the
    stream: the section is stored row by row, each cell on its own. *)
Theorem full_matrix_stores_row_major n m p m' p' i j :
  square n m →
  buildFullMatrix m p = Returns (true, m') p' →
  (i < n)%nat → (j < n)%nat →
  ∃ d, nth_read (i * n + j) (fs p) = Some d ∧ cell m' i j = Some d.
Proof.
  intros Hsq Hrun Hi Hj.
  destruct (buildFullMatrix_spec n m p m' p' Hsq Hrun) as (_ & _ & H).
  apply H; assumption.
Qed.

(** X5.  When [buildUpperRow] succeeds on an [n] by [n] matrix, the cells
    (i, j) and (j, i), for i < j, both hold the number read for the cell
    (i, j), the rows of the upper triangle following one another in the
    stream; the diagonal is not read and keeps what it held. *)
Theorem upper_row_fills_both_triangles n m p m' p' i j :
  square n m →
  buildUpperRow m p = Returns (true, m') p' →
  (i < j < n)%nat →
  (∃ d, nth_read (upper_offset n i + (j - S i)) (fs p) = Some d ∧
        cell m' i j = Some d ∧ cell m' j i = Some d)
  ∧ cell m' i i = cell m i i ∧ cell m' j j = cell m j j.
Proof.
  intros Hsq Hrun Hij.
  destruct (buildUpperRow_reads n m p m' p' Hsq Hrun) as (_ & _ & Hdiag & H).
  split; [apply H, Hij|]. split; apply Hdiag.
Qed.

Lemma triangle_closed n : (2 * triangle n = n * (n + 1))%nat.
Proof. induction n as [|n IH]; cbn [triangle]; lia. Qed.

Lemma upper_offset_closed n i : (i ≤ n)%nat → (2 * upper_offset n i + i * (i + 1) = 2 * i * n)%nat.
Proof. induction i as [|i IH]; intros Hi; cbn [upper_offset]; [lia|]. specialize (IH ltac:(lia)). nia. Qed.

(** X6.  A builder of the registry that succeeds on an [n] by [n] matrix
    has taken exactly the numbers of its layout from the stream and no
    more: n * n for FULL_MATRIX, n (n - 1) / 2 for UPPER_ROW,
    n (n + 1) / 2 for LOWER_DIAG_ROW. *)
Theorem builders_read_their_layout name builder n m p m' p' :
  (name, builder) ∈ ew_formats →
  square n m →
  builder m p = Returns (true, m') p' →
  fs p' = after_reads (layout_size name n) (fs p).
Proof.
  unfold ew_formats. rewrite !elem_of_cons, elem_of_nil.
  intros [[= -> ->]|[[= -> ->]|[[= -> ->]|[]]]] Hsq Hrun; unfold layout_size; cbn [String.eqb Ascii.eqb Bool.eqb].
  - apply (buildFullMatrix_spec n m p m' p' Hsq Hrun).
  - destruct (buildUpperRow_reads n m p m' p' Hsq Hrun) as (_ & -> & _).
    f_equal. pose proof (upper_offset_closed n n ltac:(lia)) as H.
    apply (Nat.div_unique_exact (n * (n - 1)) 2); [lia | nia].
  - destruct (buildLowDiagRow_spec n m p m' p' Hsq Hrun) as (_ & -> & _).
    f_equal. pose proof (triangle_closed n) as H.
    apply (Nat.div_unique_exact (n * (n + 1)) 2); [lia | nia].
Qed.

(** ** A builder that fails *)




Lemma read_cell_keeps_cerr i j m p m' p' :
  read_cell i j m p = Returns (inl m') p' → cerr p' = cerr p.
Proof.
  unfold read_cell, read_int, stream_failed, matrixParsingError, log.
  rewrite !bind_unfold. destruct (extract_int (fs p)) as [fs1 v].
  rewrite !bind_unfold.
  destruct (write_cell m i j v _) as [m1 q| | |] eqn:Hw; try discriminate.
  apply write_cell_returns_any in Hw as (d & _ & ->).
  rewrite !bind_unfold. cbn [fs entry_map cerr].
  destruct (fail fs1); [discriminate|]. intros [= _ <-]. reflexivity.
Qed.

Lemma read_mirrored_keeps_cerr i j m p m' p' :
  read_mirrored i j m p = Returns (inl m') p' → cerr p' = cerr p.
Proof. intros H. apply read_mirrored_continues in H as (d & m1 & _ & _ & _ & _ & H). exact H. Qed.


Lemma row_of_cells_keeps_cerr (body : nat → nat → Matrix → M (Matrix + Matrix)) i count j0 :
  (∀ j m p m' p', body i j m p = Returns (inl m') p' → cerr p' = cerr p) →
  ∀ m p m' p',
  for_loop count j0 (fun j m => body i j m) m p = Returns (inl m') p' →
  cerr p' = cerr p.
Proof.
  intros Hkeep m p m' p' Hrun.
  apply (for_loop_invariant (R := Matrix) (fun _ _ q => cerr q = cerr p)
           (fun j m => body i j m) count j0 m p m' p'); [|reflexivity|exact Hrun].
  intros k t q t' q' _ Hq Hb. rewrite <- Hq. eapply Hkeep; eauto.
Qed.


(** ** The edge-weight section as a whole *)

(** X8.  On a square matrix every builder of the registry comes back
    with its [bool], whatever the stream holds: no cell outside the
    matrix is indexed and no number is stored that was not read.  (These
    are the two ways a builder could run into undefined behaviour; the
    bounds of the loops keep every index below the size of the matrix,
    and a number is stored only after the stream was tested.) *)
Theorem builders_stay_inside_the_matrix name builder n m p :
  (name, builder) ∈ ew_formats →
  square n m →
  ∃ ok m' p', builder m p = Returns (ok, m') p'.
Proof. intros Hin Hsq. exact (builders_return n m p name builder Hin Hsq). Qed.

(** X9.  The edge-weight section checks its prerequisites in order and
    before it reads: without DIMENSION it reports that field; with it but
    without EDGE_WEIGHT_FORMAT it reports that one; with a format that is
    not FULL_MATRIX, UPPER_ROW or LOWER_DIAG_ROW it reports the format as
    unsupported.  In each case it returns false, and the instance and the
    stream are as before. *)
Theorem edge_weights_prerequisites instance p :
  (entry_map p !! "DIMENSION" = None →
     ParseEdgeWeights instance p =
     Returns (false, instance)
       (mk_parser (fs p) (entry_map p) (cerr p ++ [FieldNotDefined "DIMENSION"])))
  ∧ (∀ n, entry_map p !! "DIMENSION" = Some (VInt n) →
       entry_map p !! "EDGE_WEIGHT_FORMAT" = None →
       ParseEdgeWeights instance p =
       Returns (false, instance)
         (mk_parser (fs p) (entry_map p) (cerr p ++ [FieldNotDefined "EDGE_WEIGHT_FORMAT"])))
  ∧ (∀ n fmt, entry_map p !! "DIMENSION" = Some (VInt n) →
       entry_map p !! "EDGE_WEIGHT_FORMAT" = Some (VString fmt) →
       fmt ∉ ["FULL_MATRIX"; "UPPER_ROW"; "LOWER_DIAG_ROW"] →
       ParseEdgeWeights instance p =
       Returns (false, instance)
         (mk_parser (fs p) (entry_map p) (cerr p ++ [UnsupportedFormat fmt]))).
Proof.
  unfold ParseEdgeWeights, GetEntryValue_int, GetEntryValue_string, log.
  split; [|split].
  - intros Hdim. rewrite !bind_unfold, Hdim. reflexivity.
  - intros n Hdim Hfmt. rewrite !bind_unfold, Hdim. rewrite !bind_unfold, Hfmt. reflexivity.
  - intros n fmt Hdim Hfmt Hnot. rewrite !bind_unfold, Hdim. rewrite !bind_unfold, Hfmt.
    cbv zeta. rewrite !bind_unfold.
    destruct (clear_diagonal_returns (Z.to_nat (to_size_t n))
                (SquareMatrix_Get (Z.to_nat (to_size_t n))) p) as (m0 & -> & _);
      [apply Matrix_Get_square|].
    unfold ew_formats. cbn [List.find fst].
    rewrite !not_elem_of_cons in Hnot. destruct Hnot as (H1 & H2 & H3 & _).
    destruct (String.eqb_spec "FULL_MATRIX" fmt); [congruence|].
    destruct (String.eqb_spec "UPPER_ROW" fmt); [congruence|].
    destruct (String.eqb_spec "LOWER_DIAG_ROW" fmt); [congruence|].
    reflexivity.
Qed.

(** ** Sections that fail *)

Lemma ParseEdgeWeights_result instance b instance' p p' :
  ParseEdgeWeights instance p = Returns (b, instance') p' →
  name instance' = name instance ∧ comment instance' = comment instance ∧
  posmatrix instance' = posmatrix instance ∧ (b = false → instance' = instance).
Proof.
  unfold ParseEdgeWeights, GetEntryValue_int, GetEntryValue_string, log.
  rewrite !bind_unfold.
  destruct (entry_map p !! "DIMENSION") as [[s|n]|];
    rewrite ?bind_unfold; try (intros [= <- <- _]; auto).
  destruct (entry_map p !! "EDGE_WEIGHT_FORMAT") as [[fmt|k]|];
    rewrite ?bind_unfold; try (intros [= <- <- _]; auto).
  destruct (clear_diagonal _ _ p) as [m0 q| | |]; try discriminate.
  destruct (List.find _ ew_formats) as [[nm builder]|];
    rewrite ?bind_unfold; try (intros [= <- <- _]; auto).
  cbn [snd]. destruct (builder m0 q) as [[ok m1] q1| | |]; try discriminate.
  destruct ok; cbn [negb]; rewrite ?bind_unfold; intros [= <- <- _]; auto.
  repeat split. discriminate.
Qed.

Lemma ParseDisplayData_result instance b instance' p p' :
  ParseDisplayData instance p = Returns (b, instance') p' →
  name instance' = name instance ∧ comment instance' = comment instance ∧
  dmatrix instance' = dmatrix instance ∧ (b = false → instance' = instance).
Proof.
  unfold ParseDisplayData, GetEntryValue_int, GetEntryValue_string, log.
  rewrite !bind_unfold.
  destruct (entry_map p !! "DIMENSION") as [[s|n]|];
    rewrite ?bind_unfold; try (intros [= <- <- _]; auto).
  destruct (entry_map p !! "DISPLAY_DATA_TYPE") as [[t|k]|];
    rewrite ?bind_unfold; try (intros [= <- <- _]; auto).
  destruct (negb (String.eqb t "TWOD_DISPLAY"));
    rewrite ?bind_unfold; try (intros [= <- <- _]; auto).
  destruct (for_loop _ _ _ _ _) as [[vars|[]] q| | |]; try discriminate;
    intros [= <- <- _]; auto.
  repeat split. discriminate.
Qed.

Lemma ParseData_result instance key b instance' p p' :
  ParseData instance key p = Returns (b, instance') p' →
  name instance' = name instance ∧ comment instance' = comment instance ∧
  (key = "EDGE_WEIGHT_SECTION" → posmatrix instance' = posmatrix instance) ∧
  (key ≠ "EDGE_WEIGHT_SECTION" → dmatrix instance' = dmatrix instance) ∧
  (b = false → instance' = instance) ∧
  entry_map p' = entry_map p.
Proof.
  intros Hrun. pose proof (keeps_ParseData instance key p _ p' Hrun) as Hmap.
  unfold ParseData in Hrun.
  destruct (String.eqb_spec key "DISPLAY_DATA_SECTION") as [->|Hd].
  { apply ParseDisplayData_result in Hrun as (H1 & H2 & H3 & H4).
    repeat split; auto. discriminate. }
  destruct (String.eqb_spec key "EDGE_WEIGHT_SECTION") as [->|He].
  { apply ParseEdgeWeights_result in Hrun as (H1 & H2 & H3 & H4).
    repeat split; auto. congruence. }
  unfold log in Hrun. rewrite bind_unfold in Hrun. injection Hrun as <- <- _.
  repeat split; auto.
Qed.

(** X10.  A data section touches only its own part of the instance, and
    a section that fails touches none: name and comment are kept, the
    edge-weight section leaves the display table alone and the display
    section the distance matrix; after a failure the instance is what it
    was, and the field table is never written. *)
Theorem sections_keep_the_rest instance key b instance' p p' :
  ParseData instance key p = Returns (b, instance') p' →
  name instance' = name instance ∧ comment instance' = comment instance ∧
  (key = "EDGE_WEIGHT_SECTION" → posmatrix instance' = posmatrix instance) ∧
  (key ≠ "EDGE_WEIGHT_SECTION" → dmatrix instance' = dmatrix instance) ∧
  (b = false → instance' = instance) ∧
  entry_map p' = entry_map p.
Proof. apply ParseData_result. Qed.

(** ** Header entries that are turned down *)

Lemma ParseSpecification_false instance key value instance' p p' :
  ParseSpecification instance (key, value) p = Returns (false, instance') p' →
  instance' = instance ∧ entry_map p' = entry_map p ∧ fs p' = fs p ∧
  (cerr p' = cerr p ∨ cerr p' = (cerr p ++ [FieldUnsupported key])%list
   ∨ cerr p' = (cerr p ++ [FieldValueUnsupported key value])%list).
Proof.
  unfold ParseSpecification, entry_map_insert, log.
  destruct (stoi value) as [e|n]; split_ifs; rewrite ?bind_unfold;
    try discriminate; intros [= <- <-]; cbn; auto 10.
Qed.

(** X11.  A header entry that is turned down changes nothing but the
    diagnostics: the instance, the field table and the stream are as
    before.  A key outside the eight known ones is turned down with the
    diagnostic for an unsupported field, whatever its value. *)
Theorem rejected_entry_changes_nothing instance key value p :
  (∀ instance' p',
     ParseSpecification instance (key, value) p = Returns (false, instance') p' →
     instance' = instance ∧ entry_map p' = entry_map p ∧ fs p' = fs p)
  ∧ (key ∉ specification_keys →
     ParseSpecification instance (key, value) p =
     Returns (false, instance)
       (mk_parser (fs p) (entry_map p) (cerr p ++ [FieldUnsupported key]))).
Proof.
  split.
  - intros instance' p' Hrun.
    destruct (ParseSpecification_false _ _ _ _ _ _ Hrun) as (H1 & H2 & H3 & _). auto.
  - unfold specification_keys. rewrite !not_elem_of_cons.
    intros (H1 & H2 & H3 & H4 & H5 & H6 & H7 & H8 & _).
    unfold ParseSpecification, log.
    repeat match goal with
      | |- context [String.eqb key ?k] =>
          destruct (String.eqb_spec key k); [congruence|]
      end.
    reflexivity.
Qed.

(** ** NAME and COMMENT given twice *)

(** X12.  NAME and COMMENT accept any value.  Given twice, the instance
    ends with the later value and the field table, when it had none
    before, with the earlier one: the two records of the same field
    disagree. *)
Theorem name_and_comment_twice instance p v1 v2 :
  (entry_map p !! "NAME" = None →
   ∃ i1 p1 i2 p2,
     ParseSpecification instance ("NAME", v1) p = Returns (true, i1) p1 ∧
     ParseSpecification i1 ("NAME", v2) p1 = Returns (true, i2) p2 ∧
     name i2 = v2 ∧ entry_map p2 !! "NAME" = Some (VString v1))
  ∧ (entry_map p !! "COMMENT" = None →
     ∃ i1 p1 i2 p2,
       ParseSpecification instance ("COMMENT", v1) p = Returns (true, i1) p1 ∧
       ParseSpecification i1 ("COMMENT", v2) p1 = Returns (true, i2) p2 ∧
       comment i2 = v2 ∧ entry_map p2 !! "COMMENT" = Some (VString v1)).
Proof.
  split; intros Hnone; eexists _, _, _, _;
    (split; [reflexivity|]); (split; [reflexivity|]); (split; [reflexivity|]);
    cbn [entry_map]; rewrite map_insert_present;
    try apply map_insert_absent; try exact Hnone;
    rewrite map_insert_absent by exact Hnone; eauto.
Qed.

(** ** A dimension that is not positive *)

Lemma digit_val_range c : isdigit c = true → 0 ≤ digit_val c ≤ 9.
Proof.
  unfold isdigit, digit_val. intros [H1 H2]%andb_true_iff.
  apply Z.leb_le in H1, H2. lia.
Qed.

Lemma positional_nonneg ds : all_chars isdigit ds = true → 0 ≤ positional ds.
Proof.
  induction ds as [|c ds IH]; cbn [all_chars positional]; [lia|].
  intros [Hc Hds]%andb_true_iff. specialize (IH Hds).
  pose proof (digit_val_range c Hc).
  assert (0 ≤ 10 ^ Z.of_nat (String.length ds)) by (apply Z.pow_nonneg; lia). nia.
Qed.

Lemma stoi_unsigned ds rest :
  ds ≠ "" → all_chars isdigit ds = true → stops isdigit rest = true →
  positional ds ≤ INT_MAX →
  stoi (ds +:+ rest) = inr (positional ds).
Proof.
  intros Hne Hds Hrest Hval. destruct ds as [|c ds]; [congruence|].
  pose proof (positional_nonneg _ Hds) as Hpos.
  pose proof Hds as Hall. cbn [all_chars] in Hds.
  apply andb_true_iff in Hds as [Hc _].
  destruct (digit_not_space_nor_sign c Hc) as [Hsp Hsign].
  unfold stoi. rewrite append_cons. cbn [skipws]. rewrite Hsp, Hsign.
  cbn [starts_with_digit]. rewrite Hc. rewrite <- append_cons.
  rewrite (read_digits_app _ _ 0 Hall Hrest). cbn [fst].
  replace (1 * (0 * 10 ^ Z.of_nat (String.length (String c ds)) + positional (String c ds)))
    with (positional (String c ds)) by lia.
  unfold INT_MAX, INT_MIN in *.
  destruct (Z.ltb_spec (positional (String c ds)) (-2147483648)); [lia|].
  destruct (Z.ltb_spec 2147483647 (positional (String c ds))); [lia|].
  reflexivity.
Qed.

Lemma stoi_negative ds rest :
  ds ≠ "" → all_chars isdigit ds = true → stops isdigit rest = true →
  positional ds ≤ - INT_MIN →
  stoi ("-" +:+ ds +:+ rest) = inr (- positional ds).
Proof.
  intros Hne Hds Hrest Hval. destruct ds as [|c ds]; [congruence|].
  pose proof (positional_nonneg _ Hds) as Hpos.
  pose proof Hds as Hall. cbn [all_chars] in Hds.
  apply andb_true_iff in Hds as [Hc _].
  unfold stoi. rewrite append_cons, append_nil_l.
  change (skipws (String "-" (String c ds +:+ rest))) with (String "-" (String c ds +:+ rest)).
  change (read_sign (String "-" (String c ds +:+ rest))) with (-1, String c ds +:+ rest).
  cbv iota beta. rewrite append_cons at 1. cbn [starts_with_digit]. rewrite Hc.
  rewrite (read_digits_app _ _ 0 Hall Hrest). cbn [fst].
  replace (-1 * (0 * 10 ^ Z.of_nat (String.length (String c ds)) + positional (String c ds)))
    with (- positional (String c ds)) by lia.
  unfold INT_MAX, INT_MIN in *.
  destruct (Z.ltb_spec (- positional (String c ds)) (-2147483648)); [lia|].
  destruct (Z.ltb_spec 2147483647 (- positional (String c ds))); [lia|].
  reflexivity.
Qed.

(** X13.  A DIMENSION whose value reads as zero or as a negative integer
    (one that fits [int]) is turned down, and silently: unlike the other
    fields with a bad value, nothing is written to the diagnostics, and
    the parser is left exactly as it was. *)
Theorem dimension_not_positive_is_silent instance p sign digits rest :
  digits ≠ "" →
  all_chars isdigit digits = true →
  stops isdigit rest = true →
  (sign = "" ∧ positional digits = 0) ∨ (sign = "-" ∧ positional digits ≤ - INT_MIN) →
  ParseSpecification instance ("DIMENSION", sign +:+ digits +:+ rest) p =
  Returns (false, instance) p.
Proof.
  intros Hne Hds Hrest Hcase.
  pose proof (positional_nonneg _ Hds) as Hpos.
  unfold ParseSpecification. cbn [String.eqb Ascii.eqb Bool.eqb].
  destruct Hcase as [[-> Hzero]|[-> Hneg]].
  - rewrite append_nil_l, (stoi_unsigned digits rest Hne Hds Hrest)
      by (rewrite Hzero; unfold INT_MAX; lia).
    rewrite Hzero. reflexivity.
  - rewrite (stoi_negative digits rest Hne Hds Hrest Hneg).
    destruct (Z.leb_spec (- positional digits) 0); [reflexivity | lia].
Qed.

(** ** The field table during a parse *)

(** X14.  Whatever the file, the field table that [Parse] leaves when it
    returns holds a positive [int] under DIMENSION and a string under
    every other key: the lookups of the data sections never meet a value
    of the other kind, and a stored dimension is never zero or
    negative. *)
Theorem parsed_fields_are_typed fuel contents k v :
  fields (Parse fuel (Open contents)) !! k = Some v →
  (k = "DIMENSION" → ∃ n, v = VInt n ∧ 0 < n ≤ INT_MAX)
  ∧ (k ≠ "DIMENSION" → ∃ s, v = VString s).
Proof.
  destruct (Parse fuel (Open contents)) as [r p'| | |] eqn:Hrun; cbn [fields];
    try (rewrite lookup_empty; discriminate).
  intros Hk. pose proof (Parse_typed fuel contents r p' Hrun k v Hk) as Ht.
  destruct (String.eqb_spec k "DIMENSION"); split; intros; (congruence || exact Ht).
Qed.

Lemma next_line_some fuel : ∀ line p got p',
  next_line fuel line p = Returns got p' →
  ∃ l, got = Some l ∧ is_blank l = Some false.
Proof.
  induction fuel as [|fuel IH]; intros line p got p' Hrun; [discriminate|].
  cbn [next_line] in Hrun. apply bind_returns_inv in Hrun as (l & q & _ & Hrun).
  destruct (is_blank l) as [[|]|] eqn:Hb.
  - eapply IH; eauto.
  - injection Hrun as <- _. eauto.
  - rewrite is_blank_spec in Hb. discriminate.
Qed.



(** ** Blank lines *)

Lemma split_line_app l rest :
  all_chars not_newline l = true →
  split_line (l +:+ nl +:+ rest) = (l, Some rest).
Proof.
  induction l as [|c l IH]; intros Hl.
  - rewrite append_nil_l. unfold nl. rewrite append_cons, append_nil_l. reflexivity.
  - rewrite append_cons. cbn [all_chars] in Hl.
    apply andb_true_iff in Hl as [Hc Hl]. cbn [split_line].
    unfold not_newline in Hc. apply negb_true_iff in Hc. rewrite Hc, (IH Hl). reflexivity.
Qed.

Lemma read_line_first l rest line p :
  good (fs p) = true →
  rdbuf (fs p) = l +:+ nl +:+ rest →
  all_chars not_newline l = true →
  read_line line p = Returns l (with_rest p rest).
Proof.
  intros Hgood Hbuf Hl. unfold read_line, getline. rewrite Hgood, Hbuf. cbn [negb].
  pose proof (split_line_app l rest Hl) as Hs.
  destruct (l +:+ nl +:+ rest) as [|c s] eqn:E.
  - destruct l; [discriminate E | rewrite append_cons in E; discriminate E].
  - rewrite Hs. reflexivity.
Qed.

(** On a good stream the old contents of [line] do not matter. *)
Lemma next_line_good fuel line line' p :
  good (fs p) = true → next_line fuel line p = next_line fuel line' p.
Proof.
  intros Hgood. destruct fuel as [|fuel]; [reflexivity|].
  cbn [next_line]. rewrite !bind_unfold. unfold read_line, getline. rewrite Hgood.
  reflexivity.
Qed.

Lemma Parse_loop_good fuel instance line line' ps p :
  good (fs p) = true →
  Parse_loop fuel instance line ps p = Parse_loop fuel instance line' ps p.
Proof.
  intros Hgood. destruct fuel as [|fuel]; [reflexivity|].
  cbn [Parse_loop]. rewrite !bind_unfold. rewrite (next_line_good _ line line' p Hgood).
  destruct (next_line (S fuel) line' p) as [got q| | |] eqn:Hline; try reflexivity.
  apply next_line_some in Hline as (l & -> & _). reflexivity.
Qed.

(** X16.  A line of white space is skipped without a trace: when the
    stream is good and starts with such a line, the loop does what it
    does on the rest of the stream, with the same instance, field table
    and diagnostics, in header mode as in data mode. *)
Theorem blank_line_is_transparent fuel instance line line' ps p l rest :
  good (fs p) = true →
  rdbuf (fs p) = l +:+ nl +:+ rest →
  all_chars isspace l = true →
  all_chars not_newline l = true →
  Parse_loop fuel instance line' ps (with_rest p rest) ≠ OutOfFuel →
  Parse_loop (S fuel) instance line ps p =
  Parse_loop fuel instance line' ps (with_rest p rest).
Proof.
  intros Hgood Hbuf Hblank Hl Hfuel.
  rewrite (Parse_loop_good fuel instance line' l ps (with_rest p rest)) in * by reflexivity.
  destruct fuel as [|f]; [exfalso; apply Hfuel; reflexivity|].
  assert (Hne : next_line (S f) l (with_rest p rest) ≠ OutOfFuel).
  { intros E. apply Hfuel. cbn [Parse_loop]. rewrite bind_unfold, E. reflexivity. }
  rewrite <- (Parse_loop_mono (S f) (S (S f)) instance l ps (with_rest p rest))
    by (lia || exact Hfuel).
  assert (Hskip : next_line (S (S f)) line p = next_line (S (S f)) l (with_rest p rest)).
  { rewrite (next_line_mono (S f) (S (S f)) l (with_rest p rest)) by (lia || exact Hne).
    cbn [next_line]. rewrite bind_unfold.
    rewrite (read_line_first l rest line p Hgood Hbuf Hl).
    rewrite is_blank_spec, Hblank. reflexivity. }
  cbn [Parse_loop]. rewrite !bind_unfold, Hskip.
  destruct (next_line (S (S f)) l (with_rest p rest)) as [got q| | |] eqn:Hline;
    try reflexivity.
  apply next_line_some in Hline as (l0 & -> & _). reflexivity.
Qed.

(** ** What a parse says *)

Lemma next_line_keeps_cerr fuel : ∀ line p got p',
  next_line fuel line p = Returns got p' → cerr p' = cerr p.
Proof.
  induction fuel as [|fuel IH]; intros line p got p' Hrun; [discriminate|].
  cbn [next_line] in Hrun. apply bind_returns_inv in Hrun as (l & q & Hread & Hrun).
  assert (cerr q = cerr p) as <-.
  { unfold read_line in Hread. destruct (getline (fs p) line).
    injection Hread as _ <-. reflexivity. }
  destruct (is_blank l) as [[|]|]; [eapply IH; eauto | |];
    injection Hrun as _ <-; reflexivity.
Qed.

Lemma builder_keeps_cerr name builder m p m' p' :
  (name, builder) ∈ ew_formats →
  builder m p = Returns (true, m') p' → cerr p' = cerr p.
Proof.
  unfold ew_formats. rewrite !elem_of_cons, elem_of_nil.
  intros [[= -> ->]|[[= -> ->]|[[= -> ->]|[]]]] Hrun;
    [unfold buildFullMatrix in Hrun | unfold buildUpperRow in Hrun
     | unfold buildLowDiagRow in Hrun];
    apply bind_returns_inv in Hrun as (r & q & Hloop & Hret);
    (destruct r as [m2|m2]; [|discriminate]); injection Hret as <- <-;
    set (n := length m) in *.
  - apply (for_loop_invariant (R := Matrix) (fun _ _ q => cerr q = cerr p)
             (fun i m => for_loop n 0 (fun j m => read_cell i j m) m)
             n 0 m p m2 q); [|reflexivity|exact Hloop].
    intros k t q0 t' q' _ Hq Hrow. rewrite <- Hq.
    apply (row_of_cells_keeps_cerr read_cell k _ 0 (read_cell_keeps_cerr k) _ _ _ _ Hrow).
  - apply (for_loop_invariant (R := Matrix) (fun _ _ q => cerr q = cerr p)
             (fun i m => for_loop (n - (i + 1)) (i + 1)
                           (fun j m => read_mirrored i j m) m)
             n 0 m p m2 q); [|reflexivity|exact Hloop].
    intros k t q0 t' q' _ Hq Hrow. rewrite <- Hq.
    apply (row_of_cells_keeps_cerr read_mirrored k _ _ (read_mirrored_keeps_cerr k)
             _ _ _ _ Hrow).
  - apply (for_loop_invariant (R := Matrix) (fun _ _ q => cerr q = cerr p)
             (fun i m => for_loop (S i) 0 (fun j m => read_mirrored i j m) m)
             n 0 m p m2 q); [|reflexivity|exact Hloop].
    intros k t q0 t' q' _ Hq Hrow. rewrite <- Hq.
    apply (row_of_cells_keeps_cerr read_mirrored k _ _ (read_mirrored_keeps_cerr k)
             _ _ _ _ Hrow).
Qed.

Lemma ParseEdgeWeights_silent instance instance' p p' :
  ParseEdgeWeights instance p = Returns (true, instance') p' → cerr p' = cerr p.
Proof.
  unfold ParseEdgeWeights, GetEntryValue_int, GetEntryValue_string, log.
  rewrite !bind_unfold.
  destruct (entry_map p !! "DIMENSION") as [[s|n]|];
    rewrite ?bind_unfold; try discriminate.
  destruct (entry_map p !! "EDGE_WEIGHT_FORMAT") as [[fmt|k]|];
    rewrite ?bind_unfold; try discriminate.
  destruct (clear_diagonal _ _ p) as [m0 q| | |] eqn:Hclear; try discriminate.
  apply clear_diagonal_spec in Hclear as (_ & _ & ->); [|apply Matrix_Get_square].
  destruct (List.find _ ew_formats) as [[nm builder]|] eqn:Hfind;
    rewrite ?bind_unfold; try discriminate.
  apply find_some in Hfind as [Hin _]. apply list_elem_of_In in Hin.
  cbn [snd]. destruct (builder m0 p) as [[ok m1] q1| | |] eqn:Hb; try discriminate.
  destruct ok; cbn [negb]; rewrite ?bind_unfold; [|discriminate].
  intros [= _ <-]. eapply builder_keeps_cerr; eauto.
Qed.

Lemma display_step_keeps_cerr n i st p st' p' :
  display_step n i st p = Returns (inl st') p' → cerr p' = cerr p.
Proof.
  unfold display_step, read_int, log. rewrite !bind_unfold.
  destruct (extract_int (fs p)) as [fs1 v1]. rewrite !bind_unfold. cbn [fs].
  destruct (extract_int fs1) as [fs2 v2]. rewrite !bind_unfold. cbn [fs].
  destruct (extract_int fs2) as [fs3 v3]. cbn [fs entry_map cerr].
  destruct (match v1 with Some _ => v1 | None => node st end) as [nd|]; [|discriminate].
  destruct (nd =? INT_MIN); [discriminate|].
  destruct (n <=? nd - 1); [discriminate|].
  destruct (vec_at (visited st) (to_size_t (nd - 1))) as [[|]|]; try discriminate.
  destruct (match v2 with Some _ => v2 | None => x st end) as [xv|]; [|discriminate].
  destruct (match v3 with Some _ => v3 | None => y st end) as [yv|]; [|discriminate].
  rewrite !bind_unfold.
  destruct (write_cell (pos st) _ 0 (Some xv) _) as [p1 q1| | |] eqn:H1; try discriminate.
  apply write_cell_returns in H1 as [_ ->]. rewrite !bind_unfold.
  destruct (write_cell p1 _ 1 (Some yv) _) as [p2 q2| | |] eqn:H2; try discriminate.
  apply write_cell_returns in H2 as [_ ->]. intros [= _ <-]. reflexivity.
Qed.

Lemma ParseDisplayData_silent instance instance' p p' :
  ParseDisplayData instance p = Returns (true, instance') p' → cerr p' = cerr p.
Proof.
  unfold ParseDisplayData, GetEntryValue_int, GetEntryValue_string, log.
  rewrite !bind_unfold.
  destruct (entry_map p !! "DIMENSION") as [[s|n]|];
    rewrite ?bind_unfold; try discriminate.
  destruct (entry_map p !! "DISPLAY_DATA_TYPE") as [[dt|z]|];
    rewrite ?bind_unfold; try discriminate.
  destruct (negb (String.eqb dt "TWOD_DISPLAY")); rewrite ?bind_unfold; try discriminate.
  destruct (for_loop _ _ _ _ _) as [[vars|[]] q| | |] eqn:Hloop; try discriminate.
  intros [= _ <-].
  refine (for_loop_invariant (R := unit) (fun _ _ q => cerr q = cerr p)
            _ _ _ _ _ _ _ _ eq_refl Hloop).
  intros k st q0 st' q' _ Hq Hb. rewrite <- Hq.
  eapply display_step_keeps_cerr; eauto.
Qed.

Lemma Parse_loop_silent fuel : ∀ instance line ps p instance' line' p',
  Parse_loop fuel instance line ps p = Returns (AtSentinel, instance', line') p' →
  cerr p' = cerr p.
Proof.
  induction fuel as [|fuel IH]; intros instance line ps p instance' line' p' Hrun;
    [discriminate|].
  cbn [Parse_loop] in Hrun.
  apply bind_returns_inv in Hrun as (got & q & Hline & Hrun).
  apply next_line_keeps_cerr in Hline. rewrite <- Hline.
  destruct got as [l|]; [|discriminate].
  destruct (String.eqb l "EOF"); [injection Hrun as _ _ <-; reflexivity|].
  destruct (classify l) as [key|key value|].
  - apply bind_returns_inv in Hrun as ([ok i1] & q1 & Hdata & Hrun).
    destruct ok; cbn [negb] in Hrun; [|discriminate].
    rewrite (IH _ _ _ _ _ _ _ Hrun). unfold ParseData in Hdata.
    destruct (String.eqb key "DISPLAY_DATA_SECTION");
      [eapply ParseDisplayData_silent; eauto|].
    destruct (String.eqb key "EDGE_WEIGHT_SECTION");
      [eapply ParseEdgeWeights_silent; eauto|].
    unfold log in Hdata. rewrite bind_unfold in Hdata. discriminate.
  - destruct ps; [|discriminate].
    apply bind_returns_inv in Hrun as ([ok i1] & q1 & Hspec & Hrun).
    destruct ok; cbn [negb] in Hrun; [|discriminate].
    rewrite (IH _ _ _ _ _ _ _ Hrun).
    destruct (ParseSpecification_true _ _ _ _ _ _ Hspec) as (_ & _ & Hc & _). exact Hc.
  - discriminate.
Qed.

(** X18.  A parse that returns an instance has written no diagnostic at
    all: every message on the diagnostic stream comes from a parse that
    failed. *)
Theorem successful_parse_is_silent fuel p instance p' :
  Parse fuel p = Returns (Some instance) p' → cerr p' = cerr p.
Proof.
  unfold Parse. destruct (negb (is_open (fs p))); [discriminate|].
  intros Hrun. apply bind_returns_inv in Hrun as ([[exit i] l] & q & Hloop & Hrun).
  destruct exit; try discriminate.
  destruct (dmatrix i); [|discriminate]. injection Hrun as _ <-.
  eapply Parse_loop_silent; eauto.
Qed.

(** ** The display-data section, triple by triple *)

Lemma count_true_insert l k :
  l !! k = Some false → count_true (<[k := true]> l) = S (count_true l).
Proof.
  revert k. induction l as [|b l IH]; intros k Hk; [discriminate|].
  destruct k as [|k].
  - cbn in *. injection Hk as ->. reflexivity.
  - change (<[S k:=true]> (b :: l)) with (b :: <[k:=true]> l).
    cbn [count_true]. rewrite (IH k Hk). lia.
Qed.

Lemma count_true_le l : (count_true l ≤ length l)%nat.
Proof. induction l as [|[] l IH]; cbn; lia. Qed.

Lemma count_true_full l r :
  count_true l = length l → (r < length l)%nat → l !! r = Some true.
Proof.
  revert r. induction l as [|b l IH]; intros r Hfull Hr; cbn in *; [lia|].
  pose proof (count_true_le l). destruct b; [|lia].
  destruct r as [|r]; [reflexivity|]. apply IH; lia.
Qed.

Lemma count_true_replicate n : count_true (replicate n false) = 0%nat.
Proof. induction n as [|n IH]; cbn; [reflexivity | exact IH]. Qed.

Lemma after_reads_add a b fs0 :
  after_reads (a + b) fs0 = after_reads b (after_reads a fs0).
Proof.
  revert fs0. induction a as [|a IH]; intros fs0; [reflexivity|].
  cbn [Nat.add after_reads]. apply IH.
Qed.

(** Once the stream has failed it stays failed. *)
Lemma extract_int_sticky fs0 :
  fail fs0 = true → fail (fst (extract_int fs0)) = true.
Proof.
  unfold extract_int, good, fail. intros ->. rewrite andb_false_r. reflexivity.
Qed.

Lemma extract_int_ok fs0 :
  fail (fst (extract_int fs0)) = false →
  fail fs0 = false ∧ ∃ v, snd (extract_int fs0) = Some v ∧ INT_MIN ≤ v ≤ INT_MAX.
Proof.
  intros Hok. split.
  - destruct (fail fs0) eqn:Hf; [|reflexivity].
    rewrite (extract_int_sticky fs0 Hf) in Hok. discriminate.
  - pose proof (extract_int_unwritten fs0) as Hun. revert Hok Hun.
    unfold extract_int. destruct (negb (good fs0)); [discriminate|].
    destruct (skipws (rdbuf fs0)) as [|c s]; [discriminate|].
    destruct (read_sign (String c s)) as [sign t].
    destruct (starts_with_digit t); [|discriminate].
    destruct (read_digits 0 t) as [v rest].
    destruct (Z.ltb_spec (sign * v) INT_MIN); [discriminate|].
    destruct (Z.ltb_spec INT_MAX (sign * v)); [discriminate|].
    intros _ _. exists (sign * v). split; [reflexivity | lia].
Qed.

Lemma vec_at_some {A} (v : list A) i a :
  vec_at v i = Some a → 0 ≤ i < Z.of_nat (length v) ∧ v !! Z.to_nat i = Some a.
Proof.
  unfold vec_at. destruct (Z.leb_spec 0 i); [|discriminate].
  destruct (Z.ltb_spec i (Z.of_nat (length v))); [|discriminate].
  cbn. auto.
Qed.

(** An iteration that goes on: what it read, tested and wrote. *)
Lemma display_step_continues n i st p st' p' :
  display_step n i st p = Returns (inl st') p' →
  ∃ nd0 xv yv p1,
    fs p' = after_reads 3 (fs p) ∧
    match nth_read 0 (fs p) with Some v => Some v | None => node st end = Some nd0 ∧
    match nth_read 1 (fs p) with Some v => Some v | None => x st end = Some xv ∧
    match nth_read 2 (fs p) with Some v => Some v | None => y st end = Some yv ∧
    vec_at (visited st) (to_size_t (nd0 - 1)) = Some false ∧
    cell_set (pos st) (Z.to_nat (to_size_t (nd0 - 1))) 0 xv = Some p1 ∧
    cell_set p1 (Z.to_nat (to_size_t (nd0 - 1))) 1 yv = Some (pos st') ∧
    visited st' = <[Z.to_nat (to_size_t (nd0 - 1)) := true]> (visited st).
Proof.
  unfold nth_read, display_step, read_int, log. cbn [after_reads].
  rewrite !bind_unfold.
  destruct (extract_int (fs p)) as [fs1 v1]. rewrite !bind_unfold. cbn [fs fst snd].
  destruct (extract_int fs1) as [fs2 v2]. rewrite !bind_unfold. cbn [fs fst snd].
  destruct (extract_int fs2) as [fs3 v3]. cbn [fs fst snd entry_map cerr].
  destruct (match v1 with Some _ => v1 | None => node st end) as [nd|] eqn:Hnode;
    [|discriminate].
  destruct (nd =? INT_MIN); [discriminate|].
  destruct (n <=? nd - 1); [discriminate|].
  destruct (vec_at (visited st) (to_size_t (nd - 1))) as [[|]|] eqn:Hvis; try discriminate.
  destruct (match v2 with Some _ => v2 | None => x st end) as [xv|] eqn:Hx; [|discriminate].
  destruct (match v3 with Some _ => v3 | None => y st end) as [yv|] eqn:Hy; [|discriminate].
  rewrite !bind_unfold.
  destruct (write_cell (pos st) _ 0 (Some xv) _) as [p1 q1| | |] eqn:H1; try discriminate.
  apply write_cell_returns in H1 as [H1 ->]. rewrite !bind_unfold.
  destruct (write_cell p1 _ 1 (Some yv) _) as [p2 q2| | |] eqn:H2; try discriminate.
  apply write_cell_returns in H2 as [H2 ->]. intros [= <- <-].
  exists nd, xv, yv, p1. cbn [pos visited fs].
  split; [reflexivity|].
  split; [destruct v1; [injection Hnode as <-|]; auto|].
  split; [destruct v2; [injection Hx as <-|]; auto|].
  split; [destruct v3; [injection Hy as <-|]; auto|].
  auto.
Qed.

Lemma nth_read_shift a k fs0 :
  nth_read k (after_reads a fs0) = nth_read (a + k) fs0.
Proof. unfold nth_read. rewrite after_reads_add. reflexivity. Qed.

Lemma display_inv_step fs0 n count i st p st' p' :
  Z.of_nat count ≤ INT_MAX →
  display_inv fs0 count i st p →
  display_step n i st p = Returns (inl st') p' →
  display_inv fs0 count (S i) st' p'.
Proof.
  intros Hcount (Hlen & Hcnt & Hfs & Hrows) Hrun.
  apply display_step_continues in Hrun
    as (nd0 & xv & yv & p1 & Hfs' & Hnode & Hx & Hy & Hvis & H1 & H2 & Hvisited).
  apply vec_at_some in Hvis as [Hrange Hk].
  set (k := Z.to_nat (to_size_t (nd0 - 1))) in *.
  split; [rewrite Hvisited, length_insert; exact Hlen|].
  split; [rewrite Hvisited, (count_true_insert _ _ Hk), Hcnt; reflexivity|].
  split.
  { rewrite Hfs', Hfs, <- after_reads_add. f_equal. lia. }
  intros Hok r Hr.
  rewrite Hfs', Hfs in Hok. cbn [after_reads] in Hok.
  apply extract_int_ok in Hok as [Hok2 (v3 & Hv3 & _)].
  apply extract_int_ok in Hok2 as [Hok1 (v2 & Hv2 & _)].
  apply extract_int_ok in Hok1 as [Hok0 (v1 & Hv1 & Hv1r)].
  rewrite Hfs in Hnode, Hx, Hy. rewrite !nth_read_shift in Hnode, Hx, Hy.
  assert (E0 : nth_read (3 * i) fs0 = Some v1).
  { unfold nth_read. exact Hv1. }
  assert (E1 : nth_read (3 * i + 1) fs0 = Some v2).
  { unfold nth_read. rewrite after_reads_add. cbn [after_reads]. exact Hv2. }
  assert (E2 : nth_read (3 * i + 2) fs0 = Some v3).
  { unfold nth_read. rewrite after_reads_add. cbn [after_reads]. exact Hv3. }
  replace (3 * i + 0)%nat with (3 * i)%nat in Hnode by lia.
  rewrite E0 in Hnode. rewrite E1 in Hx. rewrite E2 in Hy.
  injection Hnode as <-. injection Hx as <-. injection Hy as <-.
  destruct (decide (r = k)) as [->|Hne].
  - exists i, v2, v3. split; [lia|].
    assert (Hnd : to_size_t (v1 - 1) = v1 - 1).
    { unfold to_size_t, INT_MIN, INT_MAX in *.
      destruct (Z.lt_ge_cases (v1 - 1) 0) as [Hneg|Hpos].
      - assert ((v1 - 1) mod 2 ^ 64 = v1 - 1 + 2 ^ 64) as E
          by (symmetry; apply (Z.mod_unique_pos _ _ (-1)); lia).
        rewrite E in Hrange. lia.
      - apply Z.mod_small. lia. }
    split; [rewrite E0; f_equal; unfold k; rewrite Hnd in *; lia|].
    split; [exact E1|]. split; [exact E2|]. split.
    + rewrite (cell_set_other p1 k 1 v3 (pos st') k 0 H2) by lia.
      eapply cell_set_same; eauto.
    + eapply cell_set_same; eauto.
  - rewrite Hvisited, list_lookup_insert_ne in Hr by congruence.
    rewrite <- Hfs in Hok0.
    destruct (Hrows Hok0 r Hr) as (k0 & xv & yv & Hk0 & R0 & R1 & R2 & C0 & C1).
    exists k0, xv, yv. split; [lia|]. split; [exact R0|]. split; [exact R1|].
    split; [exact R2|]. split.
    + rewrite (cell_set_other p1 k 1 v3 (pos st') r 0 H2) by lia.
      rewrite (cell_set_other (pos st) k 0 v2 p1 r 0 H1) by lia. exact C0.
    + rewrite (cell_set_other p1 k 1 v3 (pos st') r 1 H2) by lia.
      rewrite (cell_set_other (pos st) k 0 v2 p1 r 1 H1) by lia. exact C1.
Qed.

(** X19.  When the display section succeeds for a dimension n, with the
    stream not failed at its end, it has read n triples, and every node r
    of the n has in its row of the position table the two coordinates of
    the one triple that names it (by the number r + 1), wherever that
    triple stands in the section: rows follow the node numbers, not the
    order of the lines, and no node is left without coordinates. *)
Theorem display_rows_follow_node_numbers instance p n instance' p' r :
  entry_map p !! "DIMENSION" = Some (VInt n) →
  0 < n ≤ INT_MAX →
  ParseDisplayData instance p = Returns (true, instance') p' →
  fail (fs p') = false →
  (r < Z.to_nat n)%nat →
  ∃ pm k xv yv,
    posmatrix instance' = Some pm ∧
    fs p' = after_reads (3 * Z.to_nat n) (fs p) ∧
    (k < Z.to_nat n)%nat ∧
    nth_read (3 * k) (fs p) = Some (Z.of_nat r + 1) ∧
    nth_read (3 * k + 1) (fs p) = Some xv ∧
    nth_read (3 * k + 2) (fs p) = Some yv ∧
    cell pm r 0 = Some xv ∧ cell pm r 1 = Some yv.
Proof.
  intros Hdim Hn Hrun Hok Hr. revert Hrun.
  unfold ParseDisplayData, GetEntryValue_int, GetEntryValue_string, log.
  assert (Hsize : to_size_t n = n).
  { unfold to_size_t, INT_MAX in *. apply Z.mod_small. lia. }
  rewrite !bind_unfold, Hdim. rewrite !bind_unfold.
  destruct (entry_map p !! "DISPLAY_DATA_TYPE") as [[dt|z]|];
    rewrite ?bind_unfold; try discriminate.
  destruct (negb (String.eqb dt "TWOD_DISPLAY")); rewrite ?bind_unfold; try discriminate.
  cbv zeta. rewrite Hsize. set (count := Z.to_nat n) in *. rewrite ?bind_unfold.
  destruct (for_loop count 0 (display_step n) _ p) as [[vars|[]] q| | |] eqn:Hloop;
    try discriminate.
  intros [= <- <-].
  pose proof (for_loop_invariant (R := unit) (display_inv (fs p) count)
                (display_step n) count 0
                (mk_display_vars None None None (Matrix_Get count 2) (replicate count false))
                p vars q) as Hinv.
  destruct Hinv as (Hlen & Hcnt & Hfs & Hrows); [| | exact Hloop |].
  - intros k st q0 st' q' _. apply display_inv_step. unfold count. lia.
  - split; [apply length_replicate|]. split; [apply count_true_replicate|].
    split; [reflexivity|]. intros _ r0 Hr0. cbn [visited] in Hr0.
    apply lookup_replicate in Hr0 as [Hr0 _]. discriminate.
  - cbn [Nat.add] in *.
    assert (Hvis : visited vars !! r = Some true).
    { apply count_true_full; [rewrite Hcnt, Hlen; reflexivity | rewrite Hlen; exact Hr]. }
    destruct (Hrows Hok r Hvis) as (k & xv & yv & Hk & R0 & R1 & R2 & C0 & C1).
    exists (pos vars), k, xv, yv. cbn [posmatrix set_posmatrix]. auto 10.
Qed.

(** X20.  In any iteration of the display loop, a node number above the
    dimension, or one that an earlier triple has already used, ends the
    section: the iteration has read its three numbers, writes the
    diagnostic for an invalid node and the section returns false without
    touching the position table. *)
Theorem node_above_or_repeated_is_invalid n i st p v :
  nth_read 0 (fs p) = Some v →
  INT_MIN < v →
  n ≤ v - 1 ∨ (v - 1 < n ∧ vec_at (visited st) (to_size_t (v - 1)) = Some true) →
  display_step n i st p =
    Returns (inr tt)
      (mk_parser (after_reads 3 (fs p)) (entry_map p) (cerr p ++ [InvalidNode])).
Proof.
  intros Hv Hmin [Habove|[Hin Hseen]].
  - apply (display_step_above n i st p v); assumption.
  - apply (display_step_duplicate n i st p v); assumption.
Qed.

(** X21.  NO_DISPLAY is a valid value of the header field
    DISPLAY_DATA_TYPE, but a display section that follows it is an error:
    after that entry was validated, the section reports the value as not
    supported and returns false, before it reads anything. *)
Theorem no_display_then_display_section instance p n :
  entry_map p !! "DISPLAY_DATA_TYPE" = None →
  entry_map p !! "DIMENSION" = Some (VInt n) →
  ∃ p1,
    ParseSpecification instance ("DISPLAY_DATA_TYPE", "NO_DISPLAY") p
      = Returns (true, instance) p1 ∧
    ParseDisplayData instance p1 =
      Returns (false, instance)
        (mk_parser (fs p) (entry_map p1)
           (cerr p ++ [FieldValueUnsupported "DISPLAY_DATA_TYPE" "NO_DISPLAY"])).
Proof.
  intros Hnone Hdim. eexists. split; [reflexivity|].
  unfold ParseDisplayData, GetEntryValue_int, GetEntryValue_string, log.
  rewrite !bind_unfold. cbn [entry_map fs cerr].
  assert (Hd : map_insert "DISPLAY_DATA_TYPE" (VString "NO_DISPLAY") (entry_map p)
               !! "DIMENSION" = Some (VInt n)) by (apply map_insert_keeps; exact Hdim).
  rewrite Hd. rewrite !bind_unfold. cbn [entry_map].
  rewrite (map_insert_absent _ _ _ Hnone). reflexivity.
Qed.

(** ** The end of the parse *)

Lemma no_edge_weight_section_tail c s :
  no_edge_weight_section (String c s) = true → no_edge_weight_section s = true.
Proof.
  cbn [no_edge_weight_section]. intros H. apply andb_true_iff in H as [_ H]. exact H.
Qed.

Lemma no_edge_weight_section_head s :
  no_edge_weight_section s = true → opens_edge_weights (fst (split_line s)) = false.
Proof.
  destruct s; cbn [no_edge_weight_section]; intros H;
    apply andb_true_iff in H as [H _]; apply negb_true_iff in H; exact H.
Qed.

Lemma no_edge_weight_section_skipws s :
  no_edge_weight_section s = true → no_edge_weight_section (skipws s) = true.
Proof.
  induction s as [|c s IH]; cbn [skipws]; [auto|]. intros H.
  destruct (isspace c); [|exact H]. apply IH. exact (no_edge_weight_section_tail _ _ H).
Qed.

Lemma no_edge_weight_section_read_digits s : ∀ acc,
  no_edge_weight_section s = true →
  no_edge_weight_section (snd (read_digits acc s)) = true.
Proof.
  induction s as [|c s IH]; intros acc H; cbn [read_digits]; [exact H|].
  destruct (isdigit c); [|exact H]. apply IH. exact (no_edge_weight_section_tail _ _ H).
Qed.

Lemma no_edge_weight_section_read_sign s :
  no_edge_weight_section s = true →
  no_edge_weight_section (snd (read_sign s)) = true.
Proof.
  intros H. destruct s as [|c s]; [exact H|].
  pose proof (no_edge_weight_section_tail _ _ H) as Ht.
  destruct c as [[] [] [] [] [] [] [] []]; first [exact H | exact Ht].
Qed.

(** [operator>>] leaves unread an end of what was unread. *)
Lemma no_edge_weight_section_extract_int f :
  no_edge_weight_section (rdbuf f) = true →
  no_edge_weight_section (rdbuf (fst (extract_int f))) = true.
Proof.
  intros H. unfold extract_int. destruct (negb (good f)); [exact H|].
  pose proof (no_edge_weight_section_skipws _ H) as Hs.
  destruct (skipws (rdbuf f)) as [|c b]; [reflexivity|].
  pose proof (no_edge_weight_section_read_sign _ Hs) as Ht.
  destruct (read_sign (String c b)) as [sign t]. cbn [snd] in Ht.
  destruct (starts_with_digit t); [|exact Ht].
  pose proof (no_edge_weight_section_read_digits t 0 Ht) as Hr.
  destruct (read_digits 0 t) as [v rest]. cbn [snd] in Hr.
  destruct (sign * v <? INT_MIN); [exact Hr|].
  destruct (INT_MAX <? sign * v); exact Hr.
Qed.

Lemma no_edge_weight_section_split_line s : ∀ l rest,
  split_line s = (l, Some rest) →
  no_edge_weight_section s = true → no_edge_weight_section rest = true.
Proof.
  induction s as [|c s IH]; intros l rest; cbn [split_line]; [discriminate|].
  destruct (Ascii.eqb c ch_nl).
  - intros [= _ <-]. apply no_edge_weight_section_tail.
  - destruct (split_line s) as [l0 r] eqn:E. intros [= _ ->] H.
    apply (IH l0 rest eq_refl). exact (no_edge_weight_section_tail _ _ H).
Qed.

(** [getline] gives a line of the text, or the line it was given. *)
Lemma getline_clear f line :
  no_edge_weight_section (rdbuf f) = true →
  opens_edge_weights line = false →
  no_edge_weight_section (rdbuf (fst (getline f line))) = true
  ∧ opens_edge_weights (snd (getline f line)) = false.
Proof.
  intros H Hline. unfold getline. destruct (negb (good f)); [split; assumption|].
  pose proof (no_edge_weight_section_head _ H) as Hhead.
  destruct (rdbuf f) as [|c b]; [split; reflexivity|].
  destruct (split_line (String c b)) as [l [rest|]] eqn:Es; cbn [fst snd rdbuf] in *.
  - split; [|exact Hhead]. exact (no_edge_weight_section_split_line _ _ _ Es H).
  - split; [reflexivity | exact Hhead].
Qed.

Lemma next_line_clear fuel : ∀ line p got p',
  no_edge_weight_section (rdbuf (fs p)) = true →
  opens_edge_weights line = false →
  next_line fuel line p = Returns got p' →
  no_edge_weight_section (rdbuf (fs p')) = true
  ∧ ∀ l, got = Some l → opens_edge_weights l = false.
Proof.
  induction fuel as [|fuel IH]; intros line p got p' H Hline Hrun; [discriminate|].
  cbn [next_line] in Hrun. apply bind_returns_inv in Hrun as (l & q & Hread & Hrun).
  unfold read_line in Hread.
  destruct (getline_clear (fs p) line H Hline) as [Hq Hl].
  destruct (getline (fs p) line) as [f' l']. injection Hread as <- <-.
  cbn [fst snd] in *.
  destruct (is_blank l') as [[|]|].
  - eapply IH; [| |exact Hrun]; assumption.
  - injection Hrun as <- <-. split; [exact Hq|]. intros l [= <-]. exact Hl.
  - injection Hrun as <- <-. split; [exact Hq|]. discriminate.
Qed.

Lemma clear_ret {A} (a : A) : keeps_clear (mret a).
Proof. intros p b p' H [= _ <-]. exact H. Qed.

Lemma clear_bind {A B} (m : M A) (f : A → M B) :
  keeps_clear m → (∀ a, keeps_clear (f a)) → keeps_clear (m ≫= f).
Proof.
  intros Hm Hf p b p' H (a & q & H1 & H2)%bind_returns_inv.
  apply (Hf a q b p'); [|exact H2]. apply (Hm p a q H H1).
Qed.

Lemma clear_log d : keeps_clear (log d).
Proof. intros p a p' H [= _ <-]. exact H. Qed.

Lemma clear_undefined {A} u : keeps_clear (@undefined_behaviour A u).
Proof. intros p a p' _ [=]. Qed.

Lemma clear_read_int : keeps_clear read_int.
Proof.
  intros p a p' H. unfold read_int.
  pose proof (no_edge_weight_section_extract_int (fs p) H) as He.
  destruct (extract_int (fs p)). intros [= _ <-]. exact He.
Qed.

Lemma clear_GetEntryValue_int key : keeps_clear (GetEntryValue_int key).
Proof. intros p a p' H [= _ <-]. exact H. Qed.

Lemma clear_GetEntryValue_string key : keeps_clear (GetEntryValue_string key).
Proof. intros p a p' H [= _ <-]. exact H. Qed.

Lemma clear_write_cell m i j v : keeps_clear (write_cell m i j v).
Proof.
  intros p a p' H. unfold write_cell.
  destruct (cell_set _ _ _ _); [|discriminate]. intros [= _ <-]. exact H.
Qed.

Lemma clear_for_loop {S R} (body : nat → S → M (S + R)) count :
  (∀ i s, keeps_clear (body i s)) → ∀ i s, keeps_clear (for_loop count i body s).
Proof.
  intros Hbody. induction count as [|count IH]; intros i s; cbn [for_loop].
  - apply clear_ret.
  - apply clear_bind; [apply Hbody|]. intros [s'|r]; [apply IH | apply clear_ret].
Qed.

(** The display section reads numbers only. *)
Lemma clear_ParseDisplayData instance : keeps_clear (ParseDisplayData instance).
Proof.
  unfold ParseDisplayData, display_step.
  repeat first
    [ apply clear_ret | apply clear_log | apply clear_undefined
    | apply clear_read_int
    | apply clear_GetEntryValue_int | apply clear_GetEntryValue_string
    | apply clear_write_cell
    | apply clear_for_loop; intros ? ?
    | apply clear_bind; [|intros ?]
    | match goal with
      | |- keeps_clear (match ?x with _ => _ end) => destruct x
      end ].
Qed.

(** Without a line that opens the edge-weight section, the loop ends
    with the distance matrix it started with. *)
Lemma Parse_loop_no_edge_weights fuel : ∀ instance line ps p exit instance' line' p',
  no_edge_weight_section (rdbuf (fs p)) = true →
  opens_edge_weights line = false →
  Parse_loop fuel instance line ps p = Returns (exit, instance', line') p' →
  dmatrix instance' = dmatrix instance.
Proof.
  induction fuel as [|fuel IH];
    intros instance line ps p exit instance' line' p' H Hline Hrun; [discriminate|].
  cbn [Parse_loop] in Hrun.
  apply bind_returns_inv in Hrun as (got & q & Hnext & Hrun).
  destruct (next_line_clear _ _ _ _ _ H Hline Hnext) as [Hq Hgot].
  destruct got as [l|]; [|injection Hrun as _ <- _ _; reflexivity].
  specialize (Hgot l eq_refl).
  destruct (String.eqb l "EOF"); [injection Hrun as _ <- _ _; reflexivity|].
  pose proof Hgot as Hopens. unfold opens_edge_weights in Hgot.
  destruct (classify l) as [key|key value|].
  - apply bind_returns_inv in Hrun as ([ok i1] & q1 & Hdata & Hrun).
    assert (dmatrix i1 = dmatrix instance) as Hkeep.
    { destruct (ParseData_result _ _ _ _ _ _ Hdata) as (_ & _ & _ & Hd & _).
      apply Hd. intros ->. discriminate. }
    assert (no_edge_weight_section (rdbuf (fs q1)) = true) as Hq1.
    { unfold ParseData in Hdata.
      destruct (String.eqb key "DISPLAY_DATA_SECTION");
        [exact (clear_ParseDisplayData _ _ _ _ Hq Hdata)|].
      rewrite Hgot in Hdata. unfold log in Hdata. rewrite bind_unfold in Hdata.
      injection Hdata as _ _ <-. exact Hq. }
    destruct ok; cbn [negb] in Hrun.
    + rewrite <- Hkeep. exact (IH _ _ _ _ _ _ _ _ Hq1 Hopens Hrun).
    + unfold log in Hrun. rewrite bind_unfold in Hrun.
      injection Hrun as _ <- _ _. exact Hkeep.
  - destruct ps.
    + apply bind_returns_inv in Hrun as ([ok i1] & q1 & Hspec & Hrun).
      destruct ok; cbn [negb] in Hrun.
      * destruct (ParseSpecification_true _ _ _ _ _ _ Hspec) as (_ & Hfs & _ & Hd & _).
        rewrite <- Hd. rewrite <- Hfs in Hq.
        exact (IH _ _ _ _ _ _ _ _ Hq Hopens Hrun).
      * destruct (ParseSpecification_false _ _ _ _ _ _ Hspec) as (-> & _).
        unfold log in Hrun. rewrite bind_unfold in Hrun.
        injection Hrun as _ <- _ _. reflexivity.
    + unfold log in Hrun. rewrite bind_unfold in Hrun.
      injection Hrun as _ <- _ _. reflexivity.
  - unfold log in Hrun. rewrite bind_unfold in Hrun.
    injection Hrun as _ <- _ _. reflexivity.
Qed.

(** C8.  A file in which no line opens the edge-weight section never
    parses to an instance: whenever [Parse] returns, it returns an absent
    result.  When on such a file the loop gets to the sentinel line,
    every line before it having been processed without error, [Parse]
    writes the diagnostic for the missing distance matrix, after what the
    loop left on the diagnostic stream, and returns the absent result. *)
Theorem missing_distance_matrix fuel p :
  is_open (fs p) = true →
  no_edge_weight_section (rdbuf (fs p)) = true →
  (∀ result p', Parse fuel p = Returns result p' → result = None)
  ∧ (∀ instance line p',
       Parse_loop fuel empty_instance "" true p = Returns (AtSentinel, instance, line) p' →
       dmatrix instance = None
       ∧ Parse fuel p =
         Returns None
           (mk_parser (fs p') (entry_map p') (cerr p' ++ [DistanceMatrixNotDefined]))).
Proof.
  intros Hopen Hclear.
  assert (Hloop : ∀ exit instance line p',
            Parse_loop fuel empty_instance "" true p = Returns (exit, instance, line) p' →
            dmatrix instance = None).
  { intros exit instance line p' Hrun.
    apply (Parse_loop_no_edge_weights fuel empty_instance "" true p exit instance line p'
             Hclear eq_refl Hrun). }
  split.
  - intros result p'. unfold Parse. rewrite Hopen. cbn [negb].
    intros Hrun. apply bind_returns_inv in Hrun as ([[exit i] l] & q & Hrun & Hend).
    apply Hloop in Hrun. destruct exit.
    + rewrite Hrun in Hend. unfold log in Hend. rewrite bind_unfold in Hend.
      injection Hend as <- _. reflexivity.
    + unfold log in Hend. rewrite bind_unfold in Hend.
      injection Hend as <- _. reflexivity.
    + injection Hend as <- _. reflexivity.
  - intros instance line p' Hrun. pose proof (Hloop _ _ _ _ Hrun) as Hnone.
    split; [exact Hnone|].
    unfold Parse. rewrite Hopen. cbn [negb].
    rewrite (bind_returns _ _ _ _ _ Hrun). rewrite Hnone. reflexivity.
Qed.

End Allocation.

(** * The properties at concrete inputs

    Instances of the theorems above, and the inputs at which a statement
    of the specification fails.  Where a matrix is created, its cells
    hold [stale_cells]. *)

Lemma lower_diag_row_reads_triangle_witness :
  returned (Parse stale_cells 6 (Open lower_diag_row_file)) =
    Some (Some (mk_instance "" ""
                  (Some [[0; 1; 2; 4]; [1; 0; 3; 5]; [2; 3; 0; 6]; [4; 5; 6; 0]]) None))
  ∧ ∃ d, nth_read 1 (open_file "5 1 7") = Some d ∧
         cell [[5; 1]; [1; 7]] 1 0 = Some d ∧ cell [[5; 1]; [1; 7]] 0 1 = Some d.
Proof.
  destruct (lower_diag_row_reads_triangle stale_cells) as [Hfile Hbuilder]. split.
  - apply (Hfile 6%nat lower_diag_row_file); [lia | left; reflexivity].
  - apply (Hbuilder 2%nat (SquareMatrix_Get stale_cells 2) (Open "5 1 7") [[5; 1]; [1; 7]]
             (mk_parser (mk_ifstream true "" true false) ∅ []) 1%nat 0%nat).
    + apply (Matrix_Get_square stale_cells 2).
    + vm_compute. reflexivity.
    + lia.
Defined.

(** C2, as stated, fails: a FULL_MATRIX section is stored cell by cell, so
    the file with the rows 7 1 and 2 7 parses to a matrix that is neither
    symmetric nor zero on its diagonal; and a LOWER_DIAG_ROW section gives
    the diagonal itself, so the one-city file with the number 5 parses to
    the matrix [[5]]. *)
Lemma symmetric_zero_diagonal_counterexample :
  returned (Parse stale_cells 6 (Open full_matrix_file)) =
    Some (Some (mk_instance "" "" (Some [[7; 1]; [2; 7]]) None))
  ∧ ¬ symmetric [[7; 1]; [2; 7]]
  ∧ ¬ zero_diagonal [[7; 1]; [2; 7]]
  ∧ returned (Parse stale_cells 5 (Open lower_diag_one_file)) =
      Some (Some (mk_instance "" "" (Some [[5]]) None))
  ∧ ¬ zero_diagonal [[5]].
Proof.
  split; [vm_compute; reflexivity|].
  split; [apply symmetricb_false; vm_compute; reflexivity|].
  split; [apply zero_diagonalb_false; vm_compute; reflexivity|].
  split; [vm_compute; reflexivity|].
  apply zero_diagonalb_false. vm_compute. reflexivity.
Qed.

Lemma successful_parse_layout_witness :
  ∃ n fmt m,
    fields (Parse stale_cells 5 (Open lower_diag_row_file)) !! "DIMENSION" = Some (VInt n) ∧
    fields (Parse stale_cells 5 (Open lower_diag_row_file)) !! "EDGE_WEIGHT_FORMAT" = Some (VString fmt) ∧
    dmatrix (mk_instance "" ""
               (Some [[0; 1; 2; 4]; [1; 0; 3; 5]; [2; 3; 0; 6]; [4; 5; 6; 0]]) None) = Some m ∧
    square (Z.to_nat (to_size_t n)) m ∧
    (fmt = "UPPER_ROW" → symmetric m ∧ zero_diagonal m) ∧
    (fmt = "LOWER_DIAG_ROW" → symmetric m).
Proof.
  apply (successful_parse_layout stale_cells 5 (Open lower_diag_row_file)).
  vm_compute. reflexivity.
Defined.

(** C3, as stated, fails: of two validated DIMENSION entries the field
    table keeps the first.  After DIMENSION: 1 and DIMENSION: 2 the
    dispatcher sees the dimension 1: the edge-weight section of the file
    is read as a 1 by 1 matrix. *)
Lemma last_write_wins_counterexample :
  fields (Parse stale_cells 6 (Open two_dimensions_file)) !! "DIMENSION" = Some (VInt 1)
  ∧ fields (Parse stale_cells 6 (Open two_dimensions_file)) !! "DIMENSION" ≠ Some (VInt 2)
  ∧ returned (Parse stale_cells 6 (Open two_dimensions_file)) =
      Some (Some (mk_instance "" "" (Some [[9]]) None)).
Proof.
  split; [vm_compute; reflexivity|].
  split; [vm_compute; discriminate|].
  vm_compute. reflexivity.
Qed.

Lemma first_write_wins_witness :
  entry_map (mk_parser (open_file "")
               (<["EDGE_WEIGHT_FORMAT" := VString "FULL_MATRIX"]> {["DIMENSION" := VInt 1]}) [])
  = entry_map (mk_parser (open_file "")
                 (<["EDGE_WEIGHT_FORMAT" := VString "FULL_MATRIX"]> {["DIMENSION" := VInt 1]}) [])
  ∧ ("DIMENSION" = "DIMENSION" →
     ∃ n, stoi "1" = inr n ∧
          entry_map (mk_parser (open_file "")
                       (<["EDGE_WEIGHT_FORMAT" := VString "FULL_MATRIX"]>
                          {["DIMENSION" := VInt 1]}) []) !! "DIMENSION" = Some (VInt n) ∧
          returned (GetEntryValue_int "DIMENSION"
                      (mk_parser (open_file "")
                         (<["EDGE_WEIGHT_FORMAT" := VString "FULL_MATRIX"]>
                            {["DIMENSION" := VInt 1]}) [])) = Some (Some n))
  ∧ ("DIMENSION" ≠ "DIMENSION" →
     entry_map (mk_parser (open_file "")
                  (<["EDGE_WEIGHT_FORMAT" := VString "FULL_MATRIX"]>
                     {["DIMENSION" := VInt 1]}) []) !! "DIMENSION" = Some (VString "1") ∧
     returned (GetEntryValue_string "DIMENSION"
                 (mk_parser (open_file "")
                    (<["EDGE_WEIGHT_FORMAT" := VString "FULL_MATRIX"]>
                       {["DIMENSION" := VInt 1]}) [])) = Some (Some "1")).
Proof.
  apply (first_write_wins empty_instance empty_instance "DIMENSION" "1" "2"
           (Open "") (mk_parser (open_file "") {["DIMENSION" := VInt 1]} [])
           (mk_parser (open_file "")
              (<["EDGE_WEIGHT_FORMAT" := VString "FULL_MATRIX"]> {["DIMENSION" := VInt 1]}) [])
           (mk_parser (open_file "")
              (<["EDGE_WEIGHT_FORMAT" := VString "FULL_MATRIX"]> {["DIMENSION" := VInt 1]}) [])
           empty_instance empty_instance).
  - reflexivity.
  - vm_compute. reflexivity.
  - intros k w H. cbn [entry_map] in *.
    destruct (String.eqb_spec k "DIMENSION") as [->|Hk].
    + rewrite lookup_insert_ne by discriminate. exact H.
    + rewrite lookup_singleton_ne in H by congruence. discriminate.
  - vm_compute. reflexivity.
Defined.

Lemma missing_distance_matrix_witness :
  dmatrix (mk_instance "a" "" None (Some [[5; 6]])) = None
  ∧ Parse stale_cells 6 (Open display_only_file) =
    Returns None
      (mk_parser (open_file "")
         (map_insert "DISPLAY_DATA_TYPE" (VString "TWOD_DISPLAY")
            (map_insert "DIMENSION" (VInt 1) (map_insert "NAME" (VString "a") ∅)))
         [DistanceMatrixNotDefined]).
Proof.
  destruct (missing_distance_matrix stale_cells 6 (Open display_only_file))
    as [_ H]; [reflexivity | vm_compute; reflexivity |].
  apply (H (mk_instance "a" "" None (Some [[5; 6]])) "EOF"
           (mk_parser (open_file "")
              (map_insert "DISPLAY_DATA_TYPE" (VString "TWOD_DISPLAY")
                 (map_insert "DIMENSION" (VInt 1) (map_insert "NAME" (VString "a") ∅)))
              [])).
  vm_compute. reflexivity.
Defined.

Lemma upper_row_dimension_one_witness :
  (∃ instance',
     ParseEdgeWeights stale_cells (mk_instance "a" "c" None (Some [[3; 4]]))
       (mk_parser (open_file "EOF")
          (<["DIMENSION" := VInt 1]> {["EDGE_WEIGHT_FORMAT" := VString "UPPER_ROW"]}) [])
     = Returns (true, instance')
         (mk_parser (open_file "EOF")
            (<["DIMENSION" := VInt 1]> {["EDGE_WEIGHT_FORMAT" := VString "UPPER_ROW"]}) []) ∧
     dmatrix instance' = Some [[0]] ∧
     name instance' = name (mk_instance "a" "c" None (Some [[3; 4]])) ∧
     comment instance' = comment (mk_instance "a" "c" None (Some [[3; 4]])) ∧
     posmatrix instance' = posmatrix (mk_instance "a" "c" None (Some [[3; 4]])))
  ∧ (∀ v, clear_diagonal 1 [[v]]
            (mk_parser (open_file "EOF")
               (<["DIMENSION" := VInt 1]> {["EDGE_WEIGHT_FORMAT" := VString "UPPER_ROW"]}) [])
          = Returns [[0]]
              (mk_parser (open_file "EOF")
                 (<["DIMENSION" := VInt 1]> {["EDGE_WEIGHT_FORMAT" := VString "UPPER_ROW"]}) []))
  ∧ (∀ v, buildUpperRow [[v]]
            (mk_parser (open_file "EOF")
               (<["DIMENSION" := VInt 1]> {["EDGE_WEIGHT_FORMAT" := VString "UPPER_ROW"]}) [])
          = Returns (true, [[v]])
              (mk_parser (open_file "EOF")
                 (<["DIMENSION" := VInt 1]> {["EDGE_WEIGHT_FORMAT" := VString "UPPER_ROW"]}) [])).
Proof.
  apply (upper_row_dimension_one stale_cells); vm_compute; reflexivity.
Defined.

(** C7, as stated, fails: the pattern is searched for, not matched against
    the whole line.  An identifier followed by a colon without a space is
    taken as a data entry (and then rejected as an unsupported section),
    and characters in front of the identifier are skipped, so that such a
    line is taken as the header entry it contains; neither line gets the
    diagnostic for a line that did not match. *)
Lemma malformed_line_counterexample :
  classify "NAME:x" = DataEntry "NAME"
  ∧ diagnostics (Parse stale_cells 2 (Open (lines ["NAME:x"; "EOF"]))) =
      [FieldUnsupported "NAME"; ErrorParsingData; LastEntryParsed "NAME:x"]
  ∧ classify "?? NAME: x" = SpecificationEntry "NAME" "x"
  ∧ diagnostics (Parse stale_cells 2 (Open (lines ["?? NAME: x"; "EOF"]))) = [DistanceMatrixNotDefined]
  ∧ fields (Parse stale_cells 2 (Open (lines ["?? NAME: x"; "EOF"]))) !! "NAME" = Some (VString "x").
Proof. repeat split; vm_compute; reflexivity. Qed.

Lemma line_classification_witness :
  classify ("NAME" +:+ ": " +:+ "a280  ") = SpecificationEntry "NAME" "a280"
  ∧ classify "EDGE_WEIGHT_SECTION" = DataEntry "EDGE_WEIGHT_SECTION"
  ∧ classify "?!" = NoMatch
  ∧ Parse_loop stale_cells 1 empty_instance "" true (Open (lines ["?!"; "EOF"])) =
      Returns (ParsingError, empty_instance, "?!")
        (mk_parser (open_file (lines ["EOF"])) ∅ [DidNotMatchRegex]).
Proof.
  destruct (line_classification stale_cells) as (_ & Hspec & Hdata & Hnone & Hloop).
  split; [|split; [|split]].
  - apply (Hspec "NAME" "a280  "); [discriminate | reflexivity].
  - apply (Hdata "EDGE_WEIGHT_SECTION"); [discriminate | reflexivity].
  - apply (Hnone "?!"). reflexivity.
  - apply (Hloop 0%nat empty_instance "" true (Open (lines ["?!"; "EOF"])) "?!"
             (mk_parser (open_file (lines ["EOF"])) ∅ [])).
    + vm_compute. reflexivity.
    + reflexivity.
    + apply (Hnone "?!"). reflexivity.
Defined.



Lemma full_matrix_stores_row_major_witness :
  ∃ d, nth_read (1 * 2 + 0) (fs (Open "7 1 2 7")) = Some d ∧
       cell [[7; 1]; [2; 7]] 1 0 = Some d.
Proof.
  apply (full_matrix_stores_row_major 2 (SquareMatrix_Get stale_cells 2) (Open "7 1 2 7")
           [[7; 1]; [2; 7]] (mk_parser (mk_ifstream true "" true false) ∅ [])).
  - apply (Matrix_Get_square stale_cells 2).
  - vm_compute. reflexivity.
  - lia.
  - lia.
Defined.

Lemma upper_row_fills_both_triangles_witness :
  (∃ d, nth_read (upper_offset 3 1 + (2 - 2)) (fs (Open "1 2 3")) = Some d ∧
        cell [[9; 1; 2]; [1; 9; 3]; [2; 3; 9]] 1 2 = Some d ∧
        cell [[9; 1; 2]; [1; 9; 3]; [2; 3; 9]] 2 1 = Some d)
  ∧ cell [[9; 1; 2]; [1; 9; 3]; [2; 3; 9]] 1 1 = cell (replicate 3 (replicate 3 9)) 1 1
  ∧ cell [[9; 1; 2]; [1; 9; 3]; [2; 3; 9]] 2 2 = cell (replicate 3 (replicate 3 9)) 2 2.
Proof.
  apply (upper_row_fills_both_triangles 3 (replicate 3 (replicate 3 9)) (Open "1 2 3")
           [[9; 1; 2]; [1; 9; 3]; [2; 3; 9]]
           (mk_parser (mk_ifstream true "" true false) ∅ [])).
  - split; [reflexivity|]. intros row Hrow.
    apply elem_of_replicate in Hrow as [-> _]. reflexivity.
  - vm_compute. reflexivity.
  - lia.
Defined.

Lemma builders_read_their_layout_witness :
  fs (mk_parser (mk_ifstream true " 2 7 8" false false) ∅ []) =
  after_reads (layout_size "UPPER_ROW" 2) (fs (Open "1 2 7 8")).
Proof.
  apply (builders_read_their_layout "UPPER_ROW" buildUpperRow 2 (SquareMatrix_Get stale_cells 2)
           (Open "1 2 7 8") [[9; 1]; [1; 9]]).
  - unfold ew_formats. apply list_elem_of_In. right. left. reflexivity.
  - apply (Matrix_Get_square stale_cells 2).
  - vm_compute. reflexivity.
Defined.


Lemma edge_weights_prerequisites_witness :
  ParseEdgeWeights stale_cells empty_instance
    (mk_parser (open_file "1 2 3")
       (<["DIMENSION" := VInt 3]> {["EDGE_WEIGHT_FORMAT" := VString "LOWER_ROW"]}) [])
  = Returns (false, empty_instance)
      (mk_parser (open_file "1 2 3")
         (<["DIMENSION" := VInt 3]> {["EDGE_WEIGHT_FORMAT" := VString "LOWER_ROW"]})
         [UnsupportedFormat "LOWER_ROW"]).
Proof.
  destruct (edge_weights_prerequisites stale_cells empty_instance
              (mk_parser (open_file "1 2 3")
                 (<["DIMENSION" := VInt 3]> {["EDGE_WEIGHT_FORMAT" := VString "LOWER_ROW"]}) []))
    as (_ & _ & H).
  apply (H 3 "LOWER_ROW").
  - vm_compute. reflexivity.
  - vm_compute. reflexivity.
  - rewrite !not_elem_of_cons. repeat split; try discriminate. apply not_elem_of_nil.
Defined.

Lemma sections_keep_the_rest_witness :
  name (mk_instance "a" "c" (Some [[7; 1]; [2; 7]]) (Some [[3; 4]; [5; 6]]))
    = name (mk_instance "a" "c" None (Some [[3; 4]; [5; 6]])) ∧
  comment (mk_instance "a" "c" (Some [[7; 1]; [2; 7]]) (Some [[3; 4]; [5; 6]]))
    = comment (mk_instance "a" "c" None (Some [[3; 4]; [5; 6]])) ∧
  ("EDGE_WEIGHT_SECTION" = "EDGE_WEIGHT_SECTION" →
   posmatrix (mk_instance "a" "c" (Some [[7; 1]; [2; 7]]) (Some [[3; 4]; [5; 6]]))
     = posmatrix (mk_instance "a" "c" None (Some [[3; 4]; [5; 6]]))) ∧
  ("EDGE_WEIGHT_SECTION" ≠ "EDGE_WEIGHT_SECTION" →
   dmatrix (mk_instance "a" "c" (Some [[7; 1]; [2; 7]]) (Some [[3; 4]; [5; 6]]))
     = dmatrix (mk_instance "a" "c" None (Some [[3; 4]; [5; 6]]))) ∧
  (true = false →
   mk_instance "a" "c" (Some [[7; 1]; [2; 7]]) (Some [[3; 4]; [5; 6]])
     = mk_instance "a" "c" None (Some [[3; 4]; [5; 6]])) ∧
  entry_map (mk_parser (mk_ifstream true " EOF" false false)
               (<["DIMENSION" := VInt 2]> {["EDGE_WEIGHT_FORMAT" := VString "FULL_MATRIX"]}) [])
    = entry_map (mk_parser (open_file "7 1 2 7 EOF")
                   (<["DIMENSION" := VInt 2]>
                      {["EDGE_WEIGHT_FORMAT" := VString "FULL_MATRIX"]}) []).
Proof.
  apply (sections_keep_the_rest stale_cells
           (mk_instance "a" "c" None (Some [[3; 4]; [5; 6]])) "EDGE_WEIGHT_SECTION" true
           (mk_instance "a" "c" (Some [[7; 1]; [2; 7]]) (Some [[3; 4]; [5; 6]]))
           (mk_parser (open_file "7 1 2 7 EOF")
              (<["DIMENSION" := VInt 2]> {["EDGE_WEIGHT_FORMAT" := VString "FULL_MATRIX"]}) [])).
  vm_compute. reflexivity.
Defined.

Lemma rejected_entry_changes_nothing_witness :
  ParseSpecification empty_instance ("CAPACITY", "30") (Open "") =
  Returns (false, empty_instance)
    (mk_parser (fs (Open "")) (entry_map (Open ""))
       (cerr (Open "") ++ [FieldUnsupported "CAPACITY"])).
Proof.
  destruct (rejected_entry_changes_nothing empty_instance "CAPACITY" "30" (Open ""))
    as [_ H].
  apply H. unfold specification_keys. rewrite !not_elem_of_cons.
  repeat split; try discriminate. apply not_elem_of_nil.
Defined.

Lemma name_and_comment_twice_witness :
  ∃ i1 p1 i2 p2,
    ParseSpecification empty_instance ("NAME", "a") (Open "") = Returns (true, i1) p1 ∧
    ParseSpecification i1 ("NAME", "b") p1 = Returns (true, i2) p2 ∧
    name i2 = "b" ∧ entry_map p2 !! "NAME" = Some (VString "a").
Proof.
  destruct (name_and_comment_twice empty_instance (Open "") "a" "b") as [H _].
  apply H. reflexivity.
Defined.

Lemma dimension_not_positive_is_silent_witness :
  ParseSpecification empty_instance ("DIMENSION", "-" +:+ "4" +:+ " cities") (Open "") =
  Returns (false, empty_instance) (Open "").
Proof.
  apply (dimension_not_positive_is_silent empty_instance (Open "") "-" "4" " cities").
  - discriminate.
  - reflexivity.
  - reflexivity.
  - right. split; [reflexivity|]. vm_compute. discriminate.
Defined.

Lemma parsed_fields_are_typed_witness :
  ("DIMENSION" = "DIMENSION" → ∃ n, VInt 4 = VInt n ∧ 0 < n ≤ INT_MAX)
  ∧ ("DIMENSION" ≠ "DIMENSION" → ∃ s, VInt 4 = VString s).
Proof.
  apply (parsed_fields_are_typed stale_cells 6 lower_diag_row_file "DIMENSION" (VInt 4)).
  vm_compute. reflexivity.
Defined.


Lemma blank_line_is_transparent_witness :
  Parse_loop stale_cells 4 empty_instance "" true (Open (lines [" "; "NAME: a"; "EOF"])) =
  Parse_loop stale_cells 3 empty_instance "" true
    (with_rest (Open (lines [" "; "NAME: a"; "EOF"])) (lines ["NAME: a"; "EOF"])).
Proof.
  apply (blank_line_is_transparent stale_cells 3 empty_instance "" "" true
           (Open (lines [" "; "NAME: a"; "EOF"])) " " (lines ["NAME: a"; "EOF"])).
  - reflexivity.
  - reflexivity.
  - reflexivity.
  - reflexivity.
  - vm_compute. discriminate.
Defined.

Lemma successful_parse_is_silent_witness :
  cerr (mk_parser (open_file "")
          (map_insert "EDGE_WEIGHT_FORMAT" (VString "UPPER_ROW")
             (map_insert "DIMENSION" (VInt 1) ∅)) [])
  = cerr (Open upper_row_one_file).
Proof.
  apply (successful_parse_is_silent stale_cells 4 (Open upper_row_one_file)
           (mk_instance "" "" (Some [[0]]) None)).
  vm_compute. reflexivity.
Defined.

Lemma display_rows_follow_node_numbers_witness :
  ∃ pm k xv yv,
    posmatrix (mk_instance "" "" None (Some [[10; 11]; [20; 21]])) = Some pm ∧
    fs (mk_parser (mk_ifstream true " " false false)
          (<["DIMENSION" := VInt 2]> {["DISPLAY_DATA_TYPE" := VString "TWOD_DISPLAY"]}) [])
      = after_reads (3 * Z.to_nat 2)
          (fs (mk_parser (open_file "2 20 21 1 10 11 ")
                 (<["DIMENSION" := VInt 2]> {["DISPLAY_DATA_TYPE" := VString "TWOD_DISPLAY"]})
                 [])) ∧
    (k < Z.to_nat 2)%nat ∧
    nth_read (3 * k) (open_file "2 20 21 1 10 11 ") = Some (Z.of_nat 0 + 1) ∧
    nth_read (3 * k + 1) (open_file "2 20 21 1 10 11 ") = Some xv ∧
    nth_read (3 * k + 2) (open_file "2 20 21 1 10 11 ") = Some yv ∧
    cell pm 0 0 = Some xv ∧ cell pm 0 1 = Some yv.
Proof.
  apply (display_rows_follow_node_numbers stale_cells empty_instance
           (mk_parser (open_file "2 20 21 1 10 11 ")
              (<["DIMENSION" := VInt 2]> {["DISPLAY_DATA_TYPE" := VString "TWOD_DISPLAY"]}) [])
           2 (mk_instance "" "" None (Some [[10; 11]; [20; 21]]))
           (mk_parser (mk_ifstream true " " false false)
              (<["DIMENSION" := VInt 2]> {["DISPLAY_DATA_TYPE" := VString "TWOD_DISPLAY"]}) [])
           0%nat).
  - vm_compute. reflexivity.
  - vm_compute. split; [reflexivity | discriminate].
  - vm_compute. reflexivity.
  - reflexivity.
  - vm_compute. lia.
Defined.

Lemma node_above_or_repeated_is_invalid_witness :
  display_step 2 1 (mk_display_vars (Some 0) (Some 5) (Some 6) [[5; 6]; [0; 0]] [true; false])
    (Open "1 7 8") =
  Returns (inr tt)
    (mk_parser (after_reads 3 (fs (Open "1 7 8"))) (entry_map (Open "1 7 8"))
       (cerr (Open "1 7 8") ++ [InvalidNode])).
Proof.
  apply (node_above_or_repeated_is_invalid 2 1%nat
           (mk_display_vars (Some 0) (Some 5) (Some 6) [[5; 6]; [0; 0]] [true; false])
           (Open "1 7 8") 1).
  - reflexivity.
  - reflexivity.
  - right. split; reflexivity.
Defined.

Lemma no_display_then_display_section_witness :
  ∃ p1,
    ParseSpecification empty_instance ("DISPLAY_DATA_TYPE", "NO_DISPLAY")
      (mk_parser (open_file "1 0 0") {["DIMENSION" := VInt 1]} [])
      = Returns (true, empty_instance) p1 ∧
    ParseDisplayData stale_cells empty_instance p1 =
      Returns (false, empty_instance)
        (mk_parser (fs (mk_parser (open_file "1 0 0") {["DIMENSION" := VInt 1]} []))
           (entry_map p1)
           (cerr (mk_parser (open_file "1 0 0") {["DIMENSION" := VInt 1]} [])
            ++ [FieldValueUnsupported "DISPLAY_DATA_TYPE" "NO_DISPLAY"])).
Proof.
  apply (no_display_then_display_section stale_cells empty_instance
           (mk_parser (open_file "1 0 0") {["DIMENSION" := VInt 1]} []) 1).
  - vm_compute. reflexivity.
  - vm_compute. reflexivity.
Defined.

Lemma is_blank_whitespace_only_witness :
  true = true ↔
  all_chars (fun c => char_in c WHITESPACE) (String " " (String ch_tab (String ch_cr ""))) = true.
Proof.
  apply (is_blank_whitespace_only (String " " (String ch_tab (String ch_cr ""))) true).
  vm_compute. reflexivity.
Defined.

Lemma builders_stay_inside_the_matrix_witness :
  ∃ ok m' p',
    buildLowDiagRow [[1; 2]; [3; 4]] (Open "5 x") = Returns (ok, m') p'.
Proof.
  apply (builders_stay_inside_the_matrix "LOWER_DIAG_ROW" buildLowDiagRow 2).
  - unfold ew_formats. apply list_elem_of_In. right. right. left. reflexivity.
  - split; [reflexivity|]. intros row Hrow.
    apply list_elem_of_In in Hrow. destruct Hrow as [<-|[<-|[]]]; reflexivity.
Defined.
